(** * json_parser: the copy-on-write string, the reader and the writer

    A shallow embedding of [json_parser.h].  Blocks of bytes live in a heap
    indexed by block addresses; a [cow_string] is a view (block, offset,
    length) into one block.  The reader is a cursor over one such view, the
    writer walks a [Value] tree and produces bytes. *)

From Stdlib Require Import ZArith NArith Ascii String Floats.SpecFloat.
From stdpp Require Import base option list gmap.

Local Open Scope N_scope.

(** ** Machine integers and bytes *)

(** [size_t] is an unsigned 64-bit integer: arithmetic wraps modulo [2^64]. *)
Abbreviation size_t := N.
Definition size_max : N := 2 ^ 64.
Definition wrap (n : N) : size_t := n mod size_max.
Definition size_add (a b : size_t) : size_t := wrap (a + b).
(** unsigned subtraction, [a - b] modulo [2^64] *)
Definition size_sub (a b : size_t) : size_t := wrap (a + size_max - wrap b).

(** [std::string::npos], the largest [size_t]. *)
Definition npos : size_t := size_max - 1.

(** [char] is a byte. *)
Abbreviation char := ascii.
Definition NUL : char := "000"%char.
Definition char_eqb (a b : char) : bool := Ascii.eqb a b.

(** Addresses of the blocks owned by [std::shared_ptr<char[]>]. *)
Definition ptr := positive.

(** The heap: every live block with its bytes. *)
Abbreviation heap := (gmap ptr (list char)).

(** ** Outcomes *)

(** The texts of the [json_exception]s thrown by the reader, with the
    values that [std::format] puts in them. *)
Inductive json_exception :=
  | IllegalToken (c : char) (pos : size_t)
      (* Illegal token '{}' found at position {}. *)
  | ExpectedQuote (pos : size_t) (c : char)
      (* Expected a closing quote after string at position {}, but found '{}'. *)
  | KeyMustBeString (pos : size_t)
      (* Key at position {} must be a string. *)
  | ExpectedColon (pos : size_t) (c : char)
      (* Expected ':' after key at position {}, but found '{}'. *)
  | InvalidToken (c : char) (row column : size_t)
      (* Invalid token {} at row {}, column {}. *)
  | UnexpectedEnd.
      (* Unexpected end of input. *)

(** What a call does: it returns, it throws, it reads or writes outside a
    block (undefined behaviour in C++), or the model's recursion bound was
    too small. *)
Inductive result (A : Type) :=
  | Ok (a : A)
  | Throw (e : json_exception)
  | Undefined
  | OutOfFuel.
Arguments Ok {A} a.
Arguments Throw {A} e.
Arguments Undefined {A}.
Arguments OutOfFuel {A}.

#[global] Instance result_ret : MRet result := λ A a, Ok a.
#[global] Instance result_bind : MBind result := λ A B f m,
  match m with
  | Ok a => f a
  | Throw e => Throw e
  | Undefined => Undefined
  | OutOfFuel => OutOfFuel
  end.

Definition is_Ok {A} (r : result A) : bool :=
  match r with Ok _ => true | _ => false end.
Definition is_Throw {A} (r : result A) : bool :=
  match r with Throw _ => true | _ => false end.

(** ** class cow_string *)

Module cow_string.

Record t := mk { offset : size_t; length : size_t; storage : ptr }.

  (** [storage[i]]: a read inside the block, or undefined behaviour. *)
Definition load (h : heap) (p : ptr) (i : size_t) : result char :=
    match h !! p with
    | Some blk =>
        match blk !! N.to_nat i with
        | Some c => Ok c
        | None => Undefined
        end
    | None => Undefined
    end.

  (** The bytes [storage[from .. from+n)], read left to right. *)
Fixpoint load_range (h : heap) (p : ptr) (from : size_t) (n : nat)
    : result (list char) :=
    match n with
    | O => Ok []
    | S n' =>
        c ← load h p from;
        cs ← load_range h p (size_add from 1) n';
        Ok (c :: cs)
    end.

  (** [operator[](size_t) const] and [char_proxy::operator char]. *)
Definition at_ (h : heap) (s : t) (index : size_t) : result char :=
    load h (storage s) (size_add (offset s) index).

Definition size (s : t) : size_t := length s.

  (** The bytes in the window of [s]: what [data()], [size()] denote. *)
Definition window (h : heap) (s : t) : result (list char) :=
    load_range h (storage s) (offset s) (N.to_nat (length s)).

  (** [operator==] against a C string; [other] is that string without
      its terminator. *)
Definition eq_cstr (h : heap) (s : t) (other : list char) : result bool :=
    let other_length := N.of_nat (List.length other) in
    if negb (length s =? other_length) then Ok false
    else w ← window h s; Ok (bool_decide (w = other)).

  (** [std::char_traits<char>::compare]: bytes compare as unsigned. *)
Fixpoint compare (a b : list char) : comparison :=
    match a, b with
    | x :: a', y :: b' =>
        match N.compare (N_of_ascii x) (N_of_ascii y) with
        | Eq => compare a' b'
        | c => c
        end
    | _, _ => Eq
    end.

  (** [operator<] *)
Definition lt (h : heap) (s other : t) : result bool :=
    let n := N.min (size s) (size other) in
    pa ← load_range h (storage s) (offset s) (N.to_nat n);
    pb ← load_range h (storage other) (offset other) (N.to_nat n);
    match compare pa pb with
    | Lt => Ok true
    | Gt => Ok false
    | Eq => Ok (size s <? size other)
    end.

  (** [substr]: the copy shares the block; no bound is checked. *)
Definition substr (s : t) (off count : size_t) : t :=
    {| offset := size_add (offset s) off; length := count; storage := storage s |}.

  (** [find]: [n] is the number of iterations left, [length - i]. *)
Fixpoint find_from (h : heap) (s : t) (c : char) (n : nat) (i : size_t)
    : result size_t :=
    match n with
    | O => Ok npos
    | S n' =>
        x ← at_ h s i;
        if char_eqb x c then Ok i else find_from h s c n' (size_add i 1)
    end.

Definition find (h : heap) (s : t) (c : char) (pos : size_t) : result size_t :=
    find_from h s c (N.to_nat (length s - pos)) pos.

  (** [cow_string(std::string_view)]: a new block of [view.size() + 1]
      bytes, the bytes of the view and a terminator. *)
Definition ctor (h : heap) (view : list char) : heap * t :=
    let p := fresh (dom h) in
    (<[p := view ++ [NUL]]> h,
     {| offset := 0; length := N.of_nat (List.length view); storage := p |}).

  (** [copy]: a new block with the bytes of the window and a terminator;
      the view moves to it.  (What becomes of the old block is the business
      of its owners, see [memory].) *)
Definition copy (h : heap) (s : t) : result (heap * t) :=
    let n := size_add (length s) 1 in
    if n <=? length s then Undefined
    else
      w ← window h s;
      let p := fresh (dom h) in
      Ok (<[p := w ++ [NUL]]> h,
          {| offset := 0; length := length s; storage := p |}).

  (** The C string at [storage + from]: the bytes up to the first NUL. *)
Fixpoint until_nul (blk : list char) : result (list char) :=
    match blk with
    | [] => Undefined
    | c :: blk' =>
        if char_eqb c NUL then Ok [] else cs ← until_nul blk'; Ok (c :: cs)
    end.

Definition c_string (h : heap) (p : ptr) (from : size_t) : result (list char) :=
    match h !! p with
    | Some blk => until_nul (drop (N.to_nat from) blk)
    | None => Undefined
    end.

  (** [c_str]: the heap and the view afterwards, and the C string that the
      returned pointer points to. *)
Definition c_str (h : heap) (s : t) : result (heap * t * list char) :=
    whole ←
      (if offset s =? 0
       then c ← load h (storage s) (size_add (offset s) (length s));
            Ok (char_eqb c NUL)
       else Ok false);
    if whole : bool then
      cs ← c_string h (storage s) 0; Ok (h, s, cs)
    else
      '(h, s) ← copy h s;
      cs ← c_string h (storage s) (offset s); Ok (h, s, cs).

End cow_string.

Abbreviation cow_string := cow_string.t.

(** ** The owners of the blocks *)

(** The [cow_string] objects alive in a program, by position, and the
    blocks they own.  A block lives while some object points to it;
    [use_count] is the number of those objects. *)
Module memory.

Record t := mk { blocks : heap; strings : list cow_string }.

Definition use_count (m : t) (p : ptr) : nat :=
    List.length (filter (λ s, cow_string.storage s = p) (strings m)).

  (** A block without owners is freed. *)
Definition release (m : t) (p : ptr) : t :=
    if decide (use_count m p = 0%nat)
    then {| blocks := delete p (blocks m); strings := strings m |}
    else m.

Definition get (m : t) (x : nat) : result cow_string :=
    match strings m !! x with
    | Some s => Ok s
    | None => Undefined
    end.

  (** [cow_string(std::string_view)] *)
Definition construct (m : t) (view : list char) : t :=
    let '(h, s) := cow_string.ctor (blocks m) view in
    {| blocks := h; strings := strings m ++ [s] |}.

  (** [cow_string(const cow_string&)] *)
Definition copy_construct (m : t) (x : nat) : result t :=
    s ← get m x;
    Ok {| blocks := blocks m; strings := strings m ++ [s] |}.

  (** [x.substr(off, count)], the result is a new object *)
Definition substr (m : t) (x : nat) (off count : size_t) : result t :=
    s ← get m x;
    Ok {| blocks := blocks m;
          strings := strings m ++ [cow_string.substr s off count] |}.

  (** [x.copy()]: [storage = new_data] drops one owner of the old block. *)
Definition copy (m : t) (x : nat) : result t :=
    s ← get m x;
    '(h, s') ← cow_string.copy (blocks m) s;
    Ok (release {| blocks := h; strings := <[x := s']> (strings m) |}
                (cow_string.storage s)).

  (** [storage[i] = c] *)
Definition store (h : heap) (p : ptr) (i : size_t) (c : char) : result heap :=
    match h !! p with
    | Some blk =>
        if (N.to_nat i <? List.length blk)%nat
        then Ok (<[p := <[N.to_nat i := c]> blk]> h)
        else Undefined
    | None => Undefined
    end.

  (** [x[index] = c], that is [char_proxy::operator=] *)
Definition assign (m : t) (x : nat) (index : size_t) (c : char) : result t :=
    s ← get m x;
    m ← (if (1 <? use_count m (cow_string.storage s))%nat then copy m x else Ok m);
    s ← get m x;
    h ← store (blocks m) (cow_string.storage s)
          (size_add (cow_string.offset s) index) c;
    Ok {| blocks := h; strings := strings m |}.

  (** [x[index]] read, that is [char_proxy::operator char] *)
Definition read (m : t) (x : nat) (index : size_t) : result char :=
    s ← get m x;
    cow_string.at_ (blocks m) s index.

  (** Every object points to a live block. *)
Definition live (m : t) : Prop :=
    ∀ s, s ∈ strings m → is_Some (blocks m !! cow_string.storage s).

End memory.

(** ** <cctype> and <charconv> *)

(** [std::isspace] and [std::isdigit] in the C locale. *)
Definition isspace (c : char) : bool :=
  let n := N_of_ascii c in (n =? 32) || ((9 <=? n) && (n <=? 13)).
Definition isdigit (c : char) : bool :=
  let n := N_of_ascii c in (48 <=? n) && (n <=? 57).

Inductive errc := errc_ok | invalid_argument | result_out_of_range.
#[global] Instance errc_eq_dec : EqDecision errc.
Proof. solve_decision. Defined.

(** [std::from_chars_result]: how many bytes were consumed, and the error. *)
Record from_chars_result := { consumed : nat; ec : errc }.

Definition digit_value (c : char) : N := N_of_ascii c - 48.
(** The number a run of decimal digits denotes. *)
Definition digits_value (ds : list char) : N :=
  foldl (λ acc c, 10 * acc + digit_value c) 0 ds.

(** The longest run of digits at the head of [s], and what follows it. *)
Fixpoint span_digits (s : list char) : list char * list char :=
  match s with
  | c :: s' =>
      if isdigit c then let '(ds, rest) := span_digits s' in (c :: ds, rest)
      else ([], s)
  | [] => ([], [])
  end.

Definition INT64_MIN : Z := (- 2 ^ 63)%Z.
Definition INT64_MAX : Z := (2 ^ 63 - 1)%Z.

(** [std::from_chars] for [std::int64_t], base 10: an optional minus sign,
    then the longest run of digits.  [val] is left alone on failure. *)
Definition from_chars_int (s : list char) (val : Z) : from_chars_result * Z :=
  let '(neg, rest) :=
    match s with
    | "-"%char :: rest => (true, rest)
    | _ => (false, s)
    end in
  let '(ds, _) := span_digits rest in
  if bool_decide (ds = []) then ({| consumed := 0; ec := invalid_argument |}, val)
  else
    let n := (List.length ds + (if neg then 1 else 0))%nat in
    let v := Z.of_N (digits_value ds) in
    let v := if neg then (- v)%Z else v in
    if ((INT64_MIN <=? v) && (v <=? INT64_MAX))%Z
    then ({| consumed := n; ec := errc_ok |}, v)
    else ({| consumed := n; ec := result_out_of_range |}, val).

(** binary64 *)
Definition prec : Z := 53.
Definition emax : Z := 1024.

(** The binary64 nearest to [m * 10^e] (ties to even); an infinity when the
    value is too large, a zero when it is too small. *)
Definition round_decimal (m : positive) (e : Z) : spec_float :=
  match e with
  | Zneg k =>
      SFdiv prec emax (S754_finite false m 0)
                      (S754_finite false (Pos.pow 10 k) 0)
  | _ => binary_normalize prec emax (Z.pos m * 10 ^ e) 0 false
  end.

(** [std::from_chars] for [double], [chars_format::general], on text that
    spells a decimal number: an optional minus sign, digits with an optional
    point (at least one digit), and an exponent that is taken only when it
    has digits.  (The reader hands it runs of digits, points and the letter
    e only, see [scan_number].) *)
Definition from_chars_double (s : list char) (val : spec_float)
  : from_chars_result * spec_float :=
  let '(neg, rest) :=
    match s with
    | "-"%char :: rest => (true, rest)
    | _ => (false, s)
    end in
  let '(ip, r1) := span_digits rest in
  let '(point, fp, r2) :=
    match r1 with
    | "."%char :: r => (1%nat, fst (span_digits r), snd (span_digits r))
    | _ => (0%nat, [], r1)
    end in
  if bool_decide (ip = []) && bool_decide (fp = [])
  then ({| consumed := 0; ec := invalid_argument |}, val)
  else
    let '(elen, ex) :=
      match r2 with
      | c :: r =>
          if char_eqb c "e"%char || char_eqb c "E"%char then
            let '(sgn, slen, r') :=
              match r with
              | "-"%char :: r' => (true, 1%nat, r')
              | "+"%char :: r' => (false, 1%nat, r')
              | _ => (false, 0%nat, r)
              end in
            let ed := fst (span_digits r') in
            if bool_decide (ed = []) then (0%nat, 0%Z)
            else ((1 + slen + List.length ed)%nat,
                  if sgn then (- Z.of_N (digits_value ed))%Z
                  else Z.of_N (digits_value ed))
          else (0%nat, 0%Z)
      | [] => (0%nat, 0%Z)
      end in
    let n := ((if neg then 1 else 0) + List.length ip + point
              + List.length fp + elen)%nat in
    match digits_value (ip ++ fp) with
    | N0 => ({| consumed := n; ec := errc_ok |}, S754_zero neg)
    | Npos m =>
        match round_decimal m (ex - Z.of_nat (List.length fp)) with
        | S754_finite _ m' e' =>
            ({| consumed := n; ec := errc_ok |}, S754_finite neg m' e')
        | _ => ({| consumed := n; ec := result_out_of_range |}, val)
        end
    end.

(** ** The value model *)

#[local] Set Warnings "-register-all".

(** [std::variant<Null, Bool, Integer, Float, String, Array, Object>].  A
    [node] has the single field [value]; an [Object] is the sequence of
    entries of the [std::map] in iteration order. *)
Inductive Value :=
  | Null
  | Bool (b : bool)
  | Integer (i : Z)
  | Float (f : spec_float)
  | String (s : cow_string)
  | Array (a : list Value)
  | Object (o : list (cow_string * Value)).

Definition node := Value.

(** [obj[key] = v] on [std::map<String, node>]: the entry whose key is
    equivalent to [key] (neither is less than the other) gets [v]; without
    one, a new entry goes to its place in the order. *)
Fixpoint map_assign (h : heap) (obj : list (cow_string * Value))
    (key : cow_string) (v : Value) : result (list (cow_string * Value)) :=
  match obj with
  | [] => Ok [(key, v)]
  | (k, x) :: rest =>
      below ← cow_string.lt h key k;
      if below : bool then Ok ((key, v) :: (k, x) :: rest)
      else
        above ← cow_string.lt h k key;
        if above : bool then
          rest' ← map_assign h rest key v;
          Ok ((k, x) :: rest')
        else Ok ((k, v) :: rest)
  end.

(** ** class json_reader *)

Module json_reader.

Record t := mk { src : cow_string; pos : size_t; row : size_t; column : size_t }.

  (** [json_reader(std::string_view)] *)
Definition ctor (h : heap) (view : list char) : heap * t :=
    let '(h, s) := cow_string.ctor h view in
    (h, {| src := s; pos := 0; row := 1; column := 0 |}).

Definition with_pos (r : t) (p : size_t) : t :=
    {| src := src r; pos := p; row := row r; column := column r |}.

  (** [src[pos]] *)
Definition cur (h : heap) (r : t) : result char :=
    cow_string.at_ h (src r) (pos r).

  (** [pos < src.size() && src[pos] == c] *)
Definition at_char (h : heap) (r : t) (c : char) : result bool :=
    if pos r <? cow_string.size (src r)
    then x ← cur h r; Ok (char_eqb x c)
    else Ok false.

  (** [pos < src.size() && src[pos] != c] *)
Definition before_char (h : heap) (r : t) (c : char) : result bool :=
    if pos r <? cow_string.size (src r)
    then x ← cur h r; Ok (negb (char_eqb x c))
    else Ok false.

  (** One turn of the loop of [skip_whitespace]: [n] is [src.size() - pos],
      the number of bytes left. *)
Fixpoint skip_whitespace_loop (h : heap) (n : nat) (r : t) : result t :=
    match n with
    | O => Ok r
    | S n' =>
        c ← cur h r;
        if isspace c then
          let r1 :=
            if char_eqb c "010"%char
            then {| src := src r; pos := pos r;
                    row := size_add (row r) 1; column := 0 |}
            else r in
          skip_whitespace_loop h n'
            {| src := src r1; pos := size_add (pos r1) 1;
               row := row r1; column := size_add (column r1) 1 |}
        else Ok r
    end.

Definition skip_whitespace (h : heap) (r : t) : result t :=
    skip_whitespace_loop h (N.to_nat (cow_string.size (src r) - pos r)) r.

  (** [parse_null], [parse_true], [parse_false]: the keyword [kw] of [n]
      bytes is compared with the [n] bytes at the cursor. *)
Definition parse_literal (h : heap) (r : t) (n : size_t) (kw : string)
      (v : Value) : result (Value * t) :=
    same ← cow_string.eq_cstr h (cow_string.substr (src r) (pos r) n)
             (list_ascii_of_string kw);
    if same : bool then Ok (v, with_pos r (size_add (pos r) n))
    else c ← cur h r; Throw (IllegalToken c (pos r)).

Definition parse_null (h : heap) (r : t) := parse_literal h r 4 "null" Null.
Definition parse_true (h : heap) (r : t) := parse_literal h r 4 "true" (Bool true).
Definition parse_false (h : heap) (r : t) := parse_literal h r 5 "false" (Bool false).

Definition parse_string (h : heap) (r : t) : result (Value * t) :=
    let r := with_pos r (size_add (pos r) 1) in
    end_ ← cow_string.find h (src r) "034"%char (pos r);
    if end_ =? npos then c ← cur h r; Throw (ExpectedQuote (pos r) c)
    else
      let str := cow_string.substr (src r) (pos r) (size_sub end_ (pos r)) in
      Ok (String str, with_pos r (size_add end_ 1)).

  (** The scan of [parse_number]: [n] is [src.size() - end]. *)
Fixpoint scan_number (h : heap) (s : cow_string) (n : nat) (end_ : size_t)
    : result size_t :=
    match n with
    | O => Ok end_
    | S n' =>
        c ← cow_string.at_ h s end_;
        if isdigit c || char_eqb c "e"%char || char_eqb c "."%char
        then scan_number h s n' (size_add end_ 1)
        else Ok end_
    end.

Definition is_float (h : heap) (number : cow_string) : result bool :=
    dot ← cow_string.find h number "."%char 0;
    if negb (dot =? npos) then Ok true
    else e ← cow_string.find h number "e"%char 0; Ok (negb (e =? npos)).

Definition parse_number (h : heap) (r : t) : result (Value * t) :=
    end_ ← scan_number h (src r)
             (N.to_nat (cow_string.size (src r) - pos r)) (pos r);
    let number := cow_string.substr (src r) (pos r) (size_sub end_ (pos r)) in
    let r := with_pos r end_ in
    fl ← is_float h number;
    text ← cow_string.window h number;
    let invalid : result (Value * t) :=
      c ← cur h r; Throw (InvalidToken c (row r) (column r)) in
    if fl : bool then
      let '(res, val) := from_chars_double text (S754_zero false) in
      if bool_decide (ec res = errc_ok) then Ok (Float val, r) else invalid
    else
      let '(res, val) := from_chars_int text 0%Z in
      if bool_decide (ec res = errc_ok) then Ok (Integer val, r) else invalid.

Section containers.
    (** The loops of [parse_array] and [parse_object] call [parse_value],
        which calls them: [parse_value] is a parameter here and [n] bounds
        the number of turns. *)
Variable h : heap.
Variable parse_value : t → result (Value * t).

    (** [if (pos < src.size() && src[pos] == ',') pos++; skip_whitespace();] *)
Definition after_element (r : t) : result t :=
      comma ← at_char h r ","%char;
      let r := if comma : bool then with_pos r (size_add (pos r) 1) else r in
      skip_whitespace h r.

Fixpoint parse_array_loop (n : nat) (r : t) (arr : list Value)
      : result (Value * t) :=
      match n with
      | O => OutOfFuel
      | S n' =>
          more ← before_char h r "]"%char;
          if more : bool then
            '(value, r) ← parse_value r;
            r ← after_element r;
            parse_array_loop n' r (arr ++ [value])
          else Ok (Array arr, with_pos r (size_add (pos r) 1))
      end.

Definition parse_array (n : nat) (r : t) : result (Value * t) :=
      let r := with_pos r (size_add (pos r) 1) in
      r ← skip_whitespace h r;
      parse_array_loop n r [].

    (** One turn of the loop of [parse_object], up to the assignment. *)
Definition parse_entry (r : t) : result (cow_string * Value * t) :=
      '(key, r) ← parse_value r;
      match key with
      | String key =>
          colon ← at_char h r ":"%char;
          if colon : bool then
            let r := with_pos r (size_add (pos r) 1) in
            '(value, r) ← parse_value r;
            r ← after_element r;
            Ok (key, value, r)
          else c ← cur h r; Throw (ExpectedColon (pos r) c)
      | _ => Throw (KeyMustBeString (pos r))
      end.

Fixpoint parse_object_loop (n : nat) (r : t)
        (obj : list (cow_string * Value)) : result (Value * t) :=
      match n with
      | O => OutOfFuel
      | S n' =>
          more ← before_char h r "}"%char;
          if more : bool then
            '(key, value, r) ← parse_entry r;
            obj ← map_assign h obj key value;
            parse_object_loop n' r obj
          else Ok (Object obj, with_pos r (size_add (pos r) 1))
      end.

Definition parse_object (n : nat) (r : t) : result (Value * t) :=
      let r := with_pos r (size_add (pos r) 1) in
      r ← skip_whitespace h r;
      parse_object_loop n r [].
End containers.

Fixpoint parse_value (h : heap) (fuel : nat) (r : t) : result (Value * t) :=
    match fuel with
    | O => OutOfFuel
    | S fuel' =>
        r ← skip_whitespace h r;
        if cow_string.size (src r) <=? pos r then Throw UnexpectedEnd
        else
          c ← cur h r;
          if char_eqb c "n"%char then parse_null h r
          else if char_eqb c "t"%char then parse_true h r
          else if char_eqb c "f"%char then parse_false h r
          else if char_eqb c "034"%char then parse_string h r
          else if char_eqb c "["%char then parse_array h (parse_value h fuel') fuel' r
          else if char_eqb c "{"%char then parse_object h (parse_value h fuel') fuel' r
          else parse_number h r
    end.

  (** The recursion bound [parse] runs with: one more than the bytes of the
      input (see [parse_value_fuel]). *)
Definition fuel_of (r : t) : nat := S (N.to_nat (cow_string.size (src r))).

Definition parse (h : heap) (r : t) : result node :=
    let r := {| src := src r; pos := 0; row := 1; column := 0 |} in
    '(v, _) ← parse_value h (fuel_of r) r;
    Ok v.

End json_reader.

Abbreviation json_reader := json_reader.t.

(** ** <ostream> *)

(** The decimal digits of [n], most significant first; [fuel] is larger
    than the number of digits. *)
Fixpoint digits_of (fuel : nat) (n : N) (acc : list char) : list char :=
  match fuel with
  | O => acc
  | S fuel' =>
      let acc := ascii_of_N (48 + n mod 10) :: acc in
      if n / 10 =? 0 then acc else digits_of fuel' (n / 10) acc
  end.

Definition decimal (n : N) : list char :=
  digits_of (S (N.to_nat (N.size n))) n [].

(** [output << obj] for [std::int64_t]. *)
Definition put_int (i : Z) : list char :=
  if (i <? 0)%Z then "-"%char :: decimal (Z.to_N (- i)) else decimal (Z.to_N i).

(** [output << obj] for [double]: the stream's default format, [%g] with
    six significant digits.  The value [a / b] is rounded to six decimal
    digits (ties to even); the exponent [x] of the rounded value chooses
    between fixed and scientific notation, and trailing zeros go. *)
Definition round_half_even (a b : N) : N :=
  let q := a / b in
  match 2 * (a mod b) ?= b with
  | Lt => q
  | Gt => q + 1
  | Eq => if N.even q then q else q + 1
  end.

(** The least [k], from [k] on, with [b <= a * 10^k]. *)
Fixpoint first_scale (fuel : nat) (a b k : N) : N :=
  match fuel with
  | O => k
  | S fuel' => if b <=? a * 10 ^ k then k else first_scale fuel' a b (k + 1)
  end.

(** The decimal exponent of [a / b]: [10^x <= a / b < 10^(x+1)]. *)
Definition decimal_exponent (a b : N) : Z :=
  if b <=? a then (Z.of_nat (List.length (decimal (a / b))) - 1)%Z
  else (- Z.of_N (first_scale (S (N.size_nat b)) a b 1))%Z.

Definition six_digits (a b : N) : N * Z :=
  let x := decimal_exponent a b in
  let '(a', b') :=
    match (5 - x)%Z with
    | Zneg k => (a, b * 10 ^ Npos k)
    | s => (a * 10 ^ Z.to_N s, b)
    end in
  let d := round_half_even a' b' in
  if d =? 1000000 then (100000, (x + 1)%Z) else (d, x).

Fixpoint strip_zeros (ds : list char) : list char :=
  match ds with
  | [] => []
  | c :: ds' =>
      match strip_zeros ds' with
      | [] => if char_eqb c "0"%char then [] else [c]
      | r => c :: r
      end
  end.

Definition fraction (ds : list char) : list char :=
  match strip_zeros ds with
  | [] => []
  | fs => "."%char :: fs
  end.

Definition put_finite (a b : N) : list char :=
  let '(d, x) := six_digits a b in
  let ds := decimal d in
  if ((x <? -4) || (6 <=? x))%Z then
    let ex := decimal (Z.to_N (Z.abs x)) in
    take 1 ds ++ fraction (drop 1 ds)
      ++ "e"%char :: (if (x <? 0)%Z then "-"%char else "+"%char)
      :: (if (List.length ex <? 2)%nat then "0"%char :: ex else ex)
  else if (0 <=? x)%Z then
    take (S (Z.to_nat x)) ds ++ fraction (drop (S (Z.to_nat x)) ds)
  else
    "0"%char :: fraction (replicate (Z.to_nat (- x - 1)) "0"%char ++ ds).

Definition put_double (f : spec_float) : list char :=
  let sign (s : bool) := if s then ["-"%char] else [] in
  match f with
  | S754_zero s => sign s ++ ["0"%char]
  | S754_infinity s => sign s ++ list_ascii_of_string "inf"
  | S754_nan => list_ascii_of_string "nan"
  | S754_finite s m e =>
      sign s ++
      match e with
      | Zneg k => put_finite (Npos m) (2 ^ Npos k)
      | _ => put_finite (Npos m * 2 ^ Z.to_N e) 1
      end
  end.

(** ** class json_writer *)

Module json_writer.

Section write.
Variable h : heap.

    (** The elements of an array or the entries of an object, with a comma
        after each but the last. *)
Fixpoint separated (items : list (result (list char))) : result (list char) :=
      match items with
      | [] => Ok []
      | [x] => x
      | x :: rest => a ← x; b ← separated rest; Ok (a ++ ","%char :: b)
      end.

Fixpoint write (node : Value) : result (list char) :=
      match node with
      | Null => Ok (list_ascii_of_string "null")
      | Bool obj => Ok (list_ascii_of_string (if obj then "true" else "false"))
      | Integer obj => Ok (put_int obj)
      | Float obj => Ok (put_double obj)
      | String obj =>
          '(_, _, cs) ← cow_string.c_str h obj;
          Ok ("034"%char :: cs ++ ["034"%char])
      | Array obj =>
          body ← separated (map write obj);
          Ok ("["%char :: body ++ ["]"%char])
      | Object obj =>
          body ← separated
                   (map (λ '(key, value),
                           k ← cow_string.window h key;
                           v ← write value;
                           Ok ("034"%char :: k ++ "034"%char :: ":"%char :: v))
                        obj);
          Ok ("{"%char :: body ++ ["}"%char])
      end.
End write.

End json_writer.

(** ** struct node *)

(** [obj[key]] read on [std::map<String, node>]: the value of the entry
    whose key is equivalent to [key]; without one, an entry with a
    default node, which is [Null], goes to its place in the order.  The
    flag says whether the entry is new. *)
Fixpoint map_index (h : heap) (obj : list (cow_string * Value))
    (key : cow_string) : result (list (cow_string * Value) * Value * bool) :=
  match obj with
  | [] => Ok ([(key, Null)], Null, true)
  | (k, x) :: rest =>
      below ← cow_string.lt h key k;
      if below : bool then Ok ((key, Null) :: (k, x) :: rest, Null, true)
      else
        above ← cow_string.lt h k key;
        if above : bool then
          '(rest', y, fresh_entry) ← map_index h rest key;
          Ok ((k, x) :: rest', y, fresh_entry)
        else Ok (obj, x, false)
  end.

Module node_access.

(** What an accessor of [node] gives: a reference, a [std::runtime_error]
    with its message, or undefined behaviour. *)
Inductive access (A : Type) : Type :=
  | Ref (a : A)
  | RuntimeError (what : string)
  | Wild.
Arguments Ref {A} a.
Arguments RuntimeError {A} what.
Arguments Wild {A}.

  (** [operator[](const size_t index)]: [std::vector::operator[]] checks
      no bound. *)
Definition at_index (value : Value) (index : size_t) : access Value :=
    match value with
    | Array arr =>
        match arr !! N.to_nat index with
        | Some x => Ref x
        | None => Wild
        end
    | _ => RuntimeError "not an array"
    end.

  (** [push] *)
Definition push (value v : Value) : Value :=
    match value with
    | Array arr => Array (arr ++ [v])
    | _ => value
    end.

  (** [operator[](std::string_view key)]: the key becomes a [cow_string]
      on a block of its own; the map keeps it when the entry is new, and
      the block goes with the temporary otherwise.  The heap and the value
      of the node afterwards, and the node that the reference points to. *)
Definition at_key (h : heap) (value : Value) (key : list char)
    : access (heap * Value * Value) :=
    match value with
    | Object obj =>
        let '(h1, k) := cow_string.ctor h key in
        match map_index h1 obj k with
        | Ok (obj', x, fresh_entry) =>
            Ref (if fresh_entry : bool then h1 else h, Object obj', x)
        | _ => Wild
        end
    | _ => RuntimeError "not an object"
    end.

End node_access.

(** ** Texts *)

(** JSON text is written here with an apostrophe where the text has a
    double quote: [lit] puts the double quotes back. *)
Definition lit (s : string) : list char :=
  map (λ c, if char_eqb c "'"%char then "034"%char else c)
      (list_ascii_of_string s).

(** A reader over [text] in an empty heap, and its parse. *)
Definition text_heap (text : list char) : heap := fst (json_reader.ctor ∅ text).
Definition text_reader (text : list char) : json_reader :=
  snd (json_reader.ctor ∅ text).
Definition parse_text (text : list char) : result node :=
  json_reader.parse (text_heap text) (text_reader text).

(** ** What a tree says *)

(** A tree with the bytes of its strings in place of the views. *)
Inductive tree :=
  | TNull
  | TBool (b : bool)
  | TInteger (i : Z)
  | TFloat (f : spec_float)
  | TString (s : list char)
  | TArray (a : list tree)
  | TObject (o : list (list char * tree)).

Fixpoint sequence {A} (rs : list (result A)) : result (list A) :=
  match rs with
  | [] => Ok []
  | r :: rs' => a ← r; as_ ← sequence rs'; Ok (a :: as_)
  end.

Fixpoint contents (h : heap) (v : Value) : result tree :=
  match v with
  | Null => Ok TNull
  | Bool b => Ok (TBool b)
  | Integer i => Ok (TInteger i)
  | Float f => Ok (TFloat f)
  | String s => w ← cow_string.window h s; Ok (TString w)
  | Array a => ts ← sequence (map (contents h) a); Ok (TArray ts)
  | Object o =>
      es ← sequence (map (λ '(k, x), w ← cow_string.window h k;
                                     t ← contents h x; Ok (w, t)) o);
      Ok (TObject es)
  end.

(** The tree that the parse of [text] says. *)
Definition parsed (text : list char) : result tree :=
  v ← parse_text text; contents (text_heap text) v.

Definition str (s : string) : list char := list_ascii_of_string s.

(** * The vocabulary of the properties *)

Definition sample1 : list char :=
  lit "{'a':1,'b':[1,2,3],'c':{'d':true,'e':null},'f':2.5}".

(** Two and a half, as a binary64. *)
Definition two_and_a_half : spec_float := binary_normalize prec emax 5 (-1) false.

(** The two strings of [test_cow_string] in main.cpp: [str2] is a copy of
      [str1], then [str2[7] = 'C']. *)
Definition hello_shared : memory.t :=
    let m := memory.construct {| memory.blocks := ∅; memory.strings := [] |}
               (str "Hello, World!") in
    match memory.copy_construct m 0 with Ok m => m | _ => m end.

Definition hello_written : memory.t :=
    match memory.assign hello_shared 1 7 "C"%char with
    | Ok m => m
    | _ => hello_shared
    end.

(** The view [s] shows the bytes [w] of a block that has [a] before them
    and [b] after them. *)
Definition holds (h : heap) (s : cow_string) (a w b : list char) : Prop :=
  h !! cow_string.storage s = Some (a ++ w ++ b)
  ∧ cow_string.offset s = N.of_nat (List.length a)
  ∧ cow_string.length s = N.of_nat (List.length w)
  ∧ N.of_nat (List.length (a ++ w ++ b)) ≤ npos.

(** The reader [r] reads [text]: its source is the block that the
    constructor made of [text]. *)
Definition reads (h : heap) (r : json_reader) (text : list char) : Prop :=
  holds h (json_reader.src r) [] text [NUL].

(** [r] reads [pre ++ suf] and its cursor is between the two. *)
Definition cursor (h : heap) (r : json_reader) (pre suf : list char) : Prop :=
  reads h r (pre ++ suf) ∧ json_reader.pos r = N.of_nat (List.length pre).

Definition no_space_ahead (suf : list char) : Prop :=
  match suf with c :: _ => isspace c = false | [] => True end.

(** The bytes that the scan of [parse_number] runs over. *)
Definition number_char (c : char) : bool :=
  isdigit c || char_eqb c "e"%char || char_eqb c "."%char.

(** The number token at the head of [suf]: the longest run of digits,
    points and letters e; [after_run] is what follows it. *)
Fixpoint number_run (suf : list char) : list char :=
  match suf with
  | c :: suf' => if number_char c then c :: number_run suf' else []
  | [] => []
  end.

Fixpoint after_run (suf : list char) : list char :=
  match suf with
  | c :: suf' => if number_char c then after_run suf' else suf
  | [] => []
  end.

Definition next_byte (suf : list char) : char :=
  match suf with c :: _ => c | [] => NUL end.

Definition has_point_or_e (run : list char) : bool :=
  bool_decide ("."%char ∈ run ∨ "e"%char ∈ run).

(** What [parse_number] does with the token [run] when [suf] follows it. *)
Definition convert (r : json_reader) (pre run suf : list char)
  : result (Value * json_reader) :=
  let r1 := json_reader.with_pos r (N.of_nat (List.length (pre ++ run))) in
  let invalid :=
    Throw (InvalidToken (next_byte suf) (json_reader.row r)
             (json_reader.column r)) in
  if has_point_or_e run then
    let '(res, val) := from_chars_double run (S754_zero false) in
    if bool_decide (ec res = errc_ok) then Ok (Float val, r1) else invalid
  else
    let '(res, val) := from_chars_int run 0%Z in
    if bool_decide (ec res = errc_ok) then Ok (Integer val, r1) else invalid.

(** Every string of [v], key or value, is a view into the block [p]. *)
Fixpoint views_into (p : ptr) (v : Value) : Prop :=
  match v with
  | String s => cow_string.storage s = p
  | Array a => foldr (λ x P, views_into p x ∧ P) True a
  | Object o =>
      foldr (λ '(k, x) P, cow_string.storage k = p ∧ views_into p x ∧ P) True o
  | _ => True
  end.

Definition entries_into (p : ptr) (o : list (cow_string * Value)) : Prop :=
  views_into p (Object o).

(** The conversion that [parse_number] picks for the token [run] fails. *)
Definition conversion_fails (run : list char) : Prop :=
  if has_point_or_e run
  then ec (fst (from_chars_double run (S754_zero false))) ≠ errc_ok
  else ec (fst (from_chars_int run 0%Z)) ≠ errc_ok.

Definition is_Float (v : Value) : Prop := ∃ f, v = Float f.

Definition is_Integer (v : Value) : Prop := ∃ i, v = Integer i.

(** [offset + length] is at most the length of the buffer, which is the
    block without its terminator. *)
Definition within_buffer (h : heap) (s : cow_string) : Prop :=
  match h !! cow_string.storage s with
  | Some blk =>
      cow_string.offset s + cow_string.length s ≤ N.of_nat (List.length blk) - 1
  | None => False
  end.

(** An object whose first key is followed by the whitespace [w]. *)
Definition spaced_key (ws k : list char) (w : char) (rest : list char)
  : list char :=
  "{"%char :: ws ++ "034"%char :: k ++ "034"%char :: w :: rest.

(** [operator<] on the bytes of two views: the lexicographic order of the
    bytes taken as unsigned, a proper prefix first. *)
Fixpoint bytes_lt (a b : list char) : bool :=
  match a, b with
  | _, [] => false
  | [], _ :: _ => true
  | x :: a', y :: b' =>
      match N.compare (N_of_ascii x) (N_of_ascii y) with
      | Lt => true
      | Gt => false
      | Eq => bytes_lt a' b'
      end
  end.

(** [map_assign] on entries whose keys are bytes. *)
Fixpoint assign_bytes {A} (l : list (list char * A)) (w : list char) (x : A)
  : list (list char * A) :=
  match l with
  | [] => [(w, x)]
  | (k, y) :: rest =>
      if bytes_lt w k then (w, x) :: (k, y) :: rest
      else if bytes_lt k w then (k, y) :: assign_bytes rest w x
      else (k, x) :: rest
  end.

(** The keys go up strictly. *)
Fixpoint ascending (ks : list (list char)) : Prop :=
  match ks with
  | [] => True
  | k :: ks' => Forall (λ k', bytes_lt k k' = true) ks' ∧ ascending ks'
  end.

(** The values of the entries with the key [w], in order. *)
Fixpoint values_at {A} (w : list char) (l : list (list char * A)) : list A :=
  match l with
  | [] => []
  | (k, y) :: rest =>
      if decide (k = w) then y :: values_at w rest else values_at w rest
  end.

(** The entries [es] assigned one after the other, from [l] on. *)
Definition assign_all {A} (l es : list (list char * A)) : list (list char * A) :=
  foldl (λ l e, assign_bytes l e.1 e.2) l es.

(** The entries of an object with the bytes of their keys. *)
Fixpoint keyed (h : heap) (obj : list (cow_string * Value))
  : result (list (list char * Value)) :=
  match obj with
  | [] => Ok []
  | (k, v) :: rest => w ← cow_string.window h k; l ← keyed h rest; Ok ((w, v) :: l)
  end.

(** The entries that the loop of [parse_object] reads, in the order of the
    text. *)
Fixpoint entries (h : heap) (pv : json_reader → result (Value * json_reader))
    (n : nat) (r : json_reader) : list (cow_string * Value) :=
  match n with
  | O => []
  | S n' =>
      match json_reader.before_char h r "}"%char with
      | Ok true =>
          match json_reader.parse_entry h pv r with
          | Ok (key, value, r') => (key, value) :: entries h pv n' r'
          | _ => []
          end
      | _ => []
      end
  end.

Definition sample5 : list char := lit "{'a':1,'a':2}".

(** The items with a comma between them. *)
Fixpoint commas (items : list (list char)) : list char :=
  match items with
  | [] => []
  | [x] => x
  | x :: rest => x ++ ","%char :: commas rest
  end.

Definition quoted (s : list char) : list char := "034"%char :: s ++ ["034"%char].

(** What the writer puts for a value that says [t]. *)
Fixpoint render (t : tree) : list char :=
  match t with
  | TNull => str "null"
  | TBool b => str (if b then "true" else "false")
  | TInteger i => put_int i
  | TFloat f => put_double f
  | TString s => quoted s
  | TArray a => "["%char :: commas (map render a) ++ ["]"%char]
  | TObject o =>
      "{"%char
      :: commas (map (λ '(k, x), quoted k ++ ":"%char :: render x) o)
      ++ ["}"%char]
  end.

#[global] Instance spec_float_eq_dec : EqDecision spec_float.
Proof. solve_decision. Defined.

(** A Float whose text is a number token with a point or an exponent letter
    that converts back to it. *)
Definition float_ok (f : spec_float) : bool :=
  let text := put_double f in
  forallb number_char text && has_point_or_e text
  && bool_decide (ec (from_chars_double text (S754_zero false)).1 = errc_ok)
  && bool_decide ((from_chars_double text (S754_zero false)).2 = f).

(** The trees of the round trip: the integers are not negative, the floats
    are [float_ok], no string or key has a double quote, and the keys of an
    object go up strictly, as they do in a [std::map]. *)
Fixpoint tree_ok (t : tree) : Prop :=
  match t with
  | TNull | TBool _ => True
  | TInteger i => (0 ≤ i ≤ INT64_MAX)%Z
  | TFloat f => float_ok f = true
  | TString s => ("034"%char ∉ s)
  | TArray a => foldr (λ x P, tree_ok x ∧ P) True a
  | TObject o =>
      foldr (λ '(k, x) P, ("034"%char ∉ k) ∧ tree_ok x ∧ P) True o
      ∧ ascending o.*1
  end.

(** The first byte of the text of a value: not a whitespace, not a comma
    and not a closing bracket. *)
Definition starts_value (text : list char) : Prop :=
  match text with
  | c :: _ =>
      isspace c = false ∧ char_eqb c ","%char = false
      ∧ char_eqb c "]"%char = false ∧ char_eqb c "}"%char = false
  | [] => False
  end.

(** The text of [t] at the cursor, followed by [suf], parses to a value
    that says [t], and the cursor goes behind the text. *)
Definition parses_back (h : heap) (t : tree) : Prop :=
  ∀ fuel r pre suf,
    (List.length (render t) ≤ fuel)%nat →
    cursor h r pre (render t ++ suf) →
    number_char (next_byte suf) = false →
    ∃ v, json_reader.parse_value h (S fuel) r
         = Ok (v, json_reader.with_pos r (N.of_nat (List.length (pre ++ render t))))
         ∧ contents h v = Ok t.

(** What follows an item: a comma and the other items, or the closing
    bracket. *)
Definition rest_of (items : list (list char)) (closer : char)
    (suf : list char) : list char :=
  match items with
  | [] => closer :: suf
  | _ => ","%char :: commas items ++ closer :: suf
  end.

Definition entry_text (e : list char * tree) : list char :=
  let '(k, x) := e in quoted k ++ ":"%char :: render x.

Definition entry_contents (h : heap) (e : cow_string * Value)
  : result (list char * tree) :=
  let '(k, x) := e in w ← cow_string.window h k; t ← contents h x; Ok (w, t).

(** The string values of [v] are views within their buffers, without a
    NUL byte. *)
Fixpoint writable (h : heap) (v : Value) : Prop :=
  match v with
  | String s => ∃ a w b, holds h s a w b ∧ b ≠ [] ∧ NUL ∉ w
  | Array a => foldr (λ x P, writable h x ∧ P) True a
  | Object o => foldr (λ '(_, x) P, writable h x ∧ P) True o
  | _ => True
  end.

(** A text with every kind of node, the value that its parse gives and the
    tree that the value says. *)
Definition sample_text : list char := lit "['x',1,2.5,{'k':null,'m':true}]".

Definition sample_value : Value :=
  let view o := {| cow_string.offset := o; cow_string.length := 1;
                   cow_string.storage := 1%positive |} in
  Array [String (view 2); Integer 1; Float two_and_a_half;
         Object [(view 13, Null); (view 22, Bool true)]].

Definition sample_tree : tree :=
  TArray [TString (str "x"); TInteger 1; TFloat two_and_a_half;
          TObject [(str "k", TNull); (str "m", TBool true)]].

(** The call returns or throws: it does not stop for want of fuel. *)
Definition runs {A} (m : result A) : Prop := m ≠ OutOfFuel.

(** The bytes that close an array or an object. *)
Definition closer (c : char) : bool :=
  char_eqb c "]"%char || char_eqb c "}"%char.

(** The reader [r] with the source [s] in place of its own. *)
Definition on (s : cow_string) (r : json_reader) : json_reader :=
  {| json_reader.src := s; json_reader.pos := json_reader.pos r;
     json_reader.row := json_reader.row r;
     json_reader.column := json_reader.column r |}.

(** The view [k] has the same bytes in the heaps [h1] and [h2]. *)
Definition same_window (h1 h2 : heap) (k : cow_string) : Prop :=
  ∃ w, cow_string.window h1 k = Ok w ∧ cow_string.window h2 k = Ok w.

(** The value [v] says the same tree in the heaps [h1] and [h2]. *)
Definition same_contents (h1 h2 : heap) (v : Value) : Prop :=
  ∃ t, contents h1 v = Ok t ∧ contents h2 v = Ok t.

Definition same_entry (h1 h2 : heap) (e : cow_string * Value) : Prop :=
  same_window h1 h2 e.1 ∧ same_contents h1 h2 e.2.

(** The bytes of [w] before its first NUL: what a C string that starts
    with [w] and a terminator shows. *)
Fixpoint before_nul (w : list char) : list char :=
  match w with
  | [] => []
  | c :: w' => if char_eqb c NUL then [] else c :: before_nul w'
  end.

(** The line feeds among [ws]. *)
Definition newlines (ws : list char) : nat :=
  List.length (filter (λ c, c = "010"%char) ws).

(** The column after the whitespace [ws], from the column [col]: the bytes
    since the last line feed, that one counted. *)
Fixpoint column_after (col : N) (ws : list char) : N :=
  match ws with
  | [] => col
  | c :: ws' =>
      column_after ((if char_eqb c "010"%char then 0 else col) + 1) ws'
  end.

(** A space, two line feeds, two spaces and the digit 1. *)
Definition spaced_one : list char :=
  [" "; "010"; "010"; " "; " "; "1"]%char.

(** The text of a string token with a backslash before a double quote:
    a quote, the letter a, a backslash, a quote, the letter b, a quote. *)
Definition escaped_quote : list char :=
  ["034"; "a"; "092"; "034"; "b"; "034"]%char.

(** [P] holds of every string of [v], the keys and the values. *)
Fixpoint every_string (P : cow_string → Prop) (v : Value) : Prop :=
  match v with
  | String s => P s
  | Array a => foldr (λ x Q, every_string P x ∧ Q) True a
  | Object o => foldr (λ '(k, x) Q, P k ∧ every_string P x ∧ Q) True o
  | _ => True
  end.

(** The view [s] shows bytes of [text], in a block that holds [text] and
    its terminator. *)
Definition view_of (h : heap) (text : list char) (s : cow_string) : Prop :=
  ∃ a w b, text = a ++ w ++ b ∧ holds h s a w (b ++ [NUL]).

(** No string value of [t] has a NUL byte (the keys may). *)
Fixpoint nul_free (t : tree) : Prop :=
  match t with
  | TString s => NUL ∉ s
  | TArray a => foldr (λ x P, nul_free x ∧ P) True a
  | TObject o => foldr (λ '(_, x) P, nul_free x ∧ P) True o
  | _ => True
  end.

(** What may stand behind an element of an array: a comma or none, then
    whitespace. *)
Definition separator (comma : bool) (ws : list char) : list char :=
  (if comma then [","%char] else []) ++ ws.

(** The texts of the trees, each with its separator behind it. *)
Fixpoint spaced (items : list (tree * bool * list char)) : list char :=
  match items with
  | [] => []
  | (t, comma, ws) :: rest => render t ++ separator comma ws ++ spaced rest
  end.

(** The text of a last element that has no separator behind it. *)
Definition last_text (last : option tree) : list char :=
  match last with Some t => render t | None => [] end.

(** An element with a separator that is not empty, of whitespace. *)
Definition item_ok (item : tree * bool * list char) : Prop :=
  tree_ok item.1.1
  ∧ Forall (λ c, isspace c = true) item.2
  ∧ (item.1.2 = true ∨ item.2 ≠ []).

(** * Properties *)

(** ** Samples *)

(** C3. Parsing sample 1 succeeds; the object has the keys a, b, c, f in
    this order, with a = Integer 1, b = Array [1, 2, 3],
    c = Object {d: true, e: null} and f = Float 2.5. *)
Theorem sample1_parses :
  parsed sample1 =
  Ok (TObject
        [(str "a", TInteger 1);
         (str "b", TArray [TInteger 1; TInteger 2; TInteger 3]);
         (str "c", TObject [(str "d", TBool true); (str "e", TNull)]);
         (str "f", TFloat two_and_a_half)]).
Proof. vm_compute. reflexivity. Qed.

(** C8. Parsing [{"a":}] raises a parse error: after the colon the cursor is
    on the closing brace, the number scanned there is empty and its
    conversion fails.  No root node is returned. *)
Theorem missing_value_is_error :
  parse_text (lit "{'a':}") = Throw (InvalidToken "}"%char 1 0).
Proof. vm_compute. reflexivity. Qed.

(** ** The copy-on-write string *)

Section cow_facts.
Import cow_string memory.

Lemma filter_length_one {A} (P : A → Prop) `{!∀ a, Decision (P a)}
      (l : list A) i a :
    l !! i = Some a → P a → (1 ≤ List.length (filter P l))%nat.
Proof.
    revert i; induction l as [|b l IH]; intros [|i] Hi Ha; simplify_eq/=.
    - rewrite filter_cons_True by done. simpl. lia.
    - rewrite filter_cons. specialize (IH _ Hi Ha).
      destruct (decide (P b)); simpl; lia.
Qed.

Lemma filter_length_two {A} (P : A → Prop) `{!∀ a, Decision (P a)}
      (l : list A) i j a b :
    i ≠ j → l !! i = Some a → l !! j = Some b → P a → P b →
    (2 ≤ List.length (filter P l))%nat.
Proof.
    revert i j; induction l as [|c l IH]; intros [|i] [|j] Hij Hi Hj Ha Hb;
      simplify_eq/=.
    - rewrite filter_cons_True by done. simpl.
      pose proof (filter_length_one P l j b Hj Hb). lia.
    - rewrite filter_cons_True by done. simpl.
      pose proof (filter_length_one P l i a Hi Ha). lia.
    - rewrite filter_cons.
      assert (i ≠ j) as Hne by congruence.
      specialize (IH i j Hne Hi Hj Ha Hb).
      destruct (decide (P c)); simpl; lia.
Qed.

  (** Two objects on one block: the block is shared. *)
Lemma use_count_shared m x y sx sy :
    x ≠ y → strings m !! x = Some sx → strings m !! y = Some sy →
    storage sx = storage sy → (2 ≤ use_count m (storage sx))%nat.
Proof.
    intros Hxy Hx Hy Hs. unfold use_count.
    eapply (filter_length_two (λ s, storage s = storage sx)); eauto.
Qed.

Lemma fresh_block (h : heap) p : is_Some (h !! p) → p ≠ fresh (dom h).
Proof.
    intros Hp ->. apply elem_of_dom in Hp. by apply is_fresh in Hp.
Qed.

  (** The write of [assign] after the copy goes to the new block. *)
Lemma assign_shared m x sx index c m' :
    strings m !! x = Some sx →
    (2 ≤ use_count m (storage sx))%nat →
    assign m x index c = Ok m' →
    ∃ w blk,
      window (blocks m) sx = Ok w ∧
      strings m' = <[x := {| offset := 0; length := length sx;
                            storage := fresh (dom (blocks m)) |}]> (strings m) ∧
      blocks m' = <[fresh (dom (blocks m)) := blk]> (blocks m).
Proof.
    intros Hx Hc. unfold assign, get. rewrite Hx. simpl.
    destruct (Nat.ltb_spec 1 (use_count m (storage sx))) as [_|]; [|lia].
    unfold memory.copy, get. rewrite Hx. simpl. unfold cow_string.copy.
    destruct (size_add (length sx) 1 <=? length sx); [done|].
    destruct (window (blocks m) sx) as [w| | |] eqn:Hw; simpl; try done.
    set (p' := fresh (dom (blocks m))).
    set (s' := {| offset := 0; length := length sx; storage := p' |}).
    assert (x < List.length (strings m))%nat as Hlen by by eapply lookup_lt_Some.
    assert (release {| blocks := <[p' := w ++ [NUL]]> (blocks m);
                       strings := <[x := s']> (strings m) |} (storage sx)
            = {| blocks := <[p' := w ++ [NUL]]> (blocks m);
                 strings := <[x := s']> (strings m) |}) as ->.
    { unfold release. case_decide as H0; [|done]. exfalso.
      revert H0. unfold use_count; simpl.
      (* some other object still points to the block *)
      assert (∃ y sy, y ≠ x ∧ strings m !! y = Some sy
                      ∧ storage sy = storage sx) as (y & sy & Hy & Hly & Hsy).
      { clear -Hc Hx. unfold use_count in Hc.
        revert x Hx Hc. induction (strings m) as [|a l IH]; intros x Hx Hc.
        - simpl in Hc. lia.
        - rewrite filter_cons in Hc. destruct x as [|x]; simplify_eq/=.
          + rewrite decide_True in Hc by done. simpl in Hc.
            destruct (filter (λ s, storage s = storage sx) l) as [|b l'] eqn:Hf;
              [simpl in Hc; lia|].
            assert (b ∈ filter (λ s, storage s = storage sx) l) as Hb
              by (rewrite Hf; left).
            apply list_elem_of_filter in Hb as [Hb1 Hb2].
            apply list_elem_of_lookup in Hb2 as [i Hi].
            exists (S i), b. done.
          + destruct (decide (storage a = storage sx)) as [Ha|Ha].
            * exists 0%nat, a. done.
            * destruct (IH x Hx Hc) as (y & sy & ? & ? & ?).
              exists (S y), sy. split_and!; [congruence|done..]. }
      intros H0.
      pose proof (filter_length_one (λ s, storage s = storage sx)
                    (<[x := s']> (strings m)) y sy) as H1.
      rewrite list_lookup_insert_ne in H1 by done.
      specialize (H1 Hly Hsy). lia. }
    simpl. rewrite list_lookup_insert_eq by done. simpl.
    unfold store. rewrite lookup_insert_eq.
    destruct (_ <? _)%nat; simpl; [|done].
    intros [= <-]. simpl. exists w. eexists. split_and!; [done..|].
    by rewrite insert_insert_eq.
Qed.

  (** C1. COW isolation: when two objects share a block, a write through
      one of them goes to a private copy of the block; every indexed read
      through the other one gives what it gave before. *)
Theorem cow_isolation m x y sx sy index c m' :
    live m →
    x ≠ y →
    strings m !! x = Some sx →
    strings m !! y = Some sy →
    storage sx = storage sy →
    assign m x index c = Ok m' →
    ∀ j, read m' y j = read m y j.
Proof.
    intros Hlive Hxy Hx Hy Hs Ha j.
    pose proof (use_count_shared m x y sx sy Hxy Hx Hy Hs) as Hc.
    destruct (assign_shared m x sx index c m' Hx Hc Ha)
      as (w & blk & _ & Hstr & Hblk).
    unfold read, get. rewrite Hstr, Hblk.
    rewrite list_lookup_insert_ne by done. rewrite Hy. simpl.
    unfold at_, load. rewrite lookup_insert_ne; [done|].
    symmetry. apply fresh_block. apply Hlive.
    apply list_elem_of_lookup. eauto.
Qed.

  

Lemma cow_isolation_witness :
    read hello_written 0 7 = read hello_shared 0 7
    ∧ read hello_shared 0 7 = Ok "W"%char
    ∧ read hello_written 1 7 = Ok "C"%char.
Proof.
    split; [|split; vm_compute; reflexivity].
    apply (cow_isolation hello_shared 1 0
             {| offset := 0; length := 13; storage := 1%positive |}
             {| offset := 0; length := 13; storage := 1%positive |}
             7 "C"%char hello_written).
    - intros s Hs. apply list_elem_of_In in Hs. simpl in Hs.
      destruct Hs as [<-|[<-|[]]]; vm_compute; eauto.
    - discriminate.
    - reflexivity.
    - reflexivity.
    - reflexivity.
    - vm_compute. reflexivity.
Defined.
End cow_facts.

(** ** Arithmetic on [size_t] *)

Lemma size_max_eq : size_max = 18446744073709551616.
Proof. reflexivity. Qed.

Lemma wrap_small n : n < size_max → wrap n = n.
Proof. intros. unfold wrap. by apply N.mod_small. Qed.

Lemma size_add_small a b : a + b < size_max → size_add a b = a + b.
Proof. apply wrap_small. Qed.

Lemma size_sub_small a b : b ≤ a → a < size_max → size_sub a b = a - b.
Proof.
  intros Hba Ha. unfold size_sub. rewrite (wrap_small b) by lia.
  unfold wrap. replace (a + size_max - b) with (a - b + 1 * size_max) by lia.
  rewrite N.Div0.mod_add. apply N.mod_small. lia.
Qed.

Global Opaque size_max.

Ltac size_simpl :=
  repeat first
    [ rewrite size_add_small
        by (rewrite ?size_max_eq; unfold npos in *;
            rewrite ?size_max_eq in *; lia)
    | rewrite size_sub_small
        by (rewrite ?size_max_eq; unfold npos in *;
            rewrite ?size_max_eq in *; lia) ].

(** ** Views *)

Section views.
Import cow_string.
Context (h : heap).
Implicit Types (s : cow_string) (a w b : list char).

Lemma load_block p blk i c :
  h !! p = Some blk → blk !! i = Some c → load h p (N.of_nat i) = Ok c.
Proof. intros Hb Hi. unfold load. by rewrite Hb, Nat2N.id, Hi. Qed.

Lemma load_range_block p a w b :
  h !! p = Some (a ++ w ++ b) →
  N.of_nat (List.length (a ++ w ++ b)) ≤ npos →
  load_range h p (N.of_nat (List.length a)) (List.length w) = Ok w.
Proof.
  revert a. induction w as [|c w IH]; intros a Hb Hn; [done|].
  simpl. erewrite load_block; [|done|by apply list_lookup_middle].
  simpl. rewrite !length_app in Hn. simpl in Hn.
  size_simpl.
  replace (N.of_nat (List.length a) + 1) with (N.of_nat (List.length (a ++ [c])))
    by (rewrite length_app; simpl; lia).
  rewrite IH; [done|by rewrite <- app_assoc|].
  rewrite !length_app. simpl. lia.
Qed.

Lemma holds_window s a w b : holds h s a w b → window h s = Ok w.
Proof.
  intros (Hb & Ho & Hl & Hn). unfold window. rewrite Ho, Hl, Nat2N.id.
  by apply (load_range_block _ a w b).
Qed.

Lemma holds_at s a w b i c :
  holds h s a w b → (w ++ b) !! i = Some c → at_ h s (N.of_nat i) = Ok c.
Proof.
  intros (Hb & Ho & Hl & Hn) Hi. unfold at_. rewrite Ho.
  apply lookup_lt_Some in Hi as Hlt. rewrite !length_app in Hn.
  rewrite length_app in Hlt. size_simpl.
  replace (N.of_nat (List.length a) + N.of_nat i)
    with (N.of_nat (List.length a + i)) by lia.
  eapply load_block; [done|]. by rewrite lookup_app_r, Nat.add_comm, Nat.add_sub by lia.
Qed.

Lemma holds_substr s a w1 w2 w3 b :
  holds h s a (w1 ++ w2 ++ w3) b →
  holds h (substr s (N.of_nat (List.length w1)) (N.of_nat (List.length w2)))
        (a ++ w1) w2 (w3 ++ b).
Proof.
  intros (Hb & Ho & Hl & Hn). unfold holds, substr. simpl.
  rewrite Ho. rewrite !length_app in Hn.
  split_and!.
  - rewrite Hb. f_equal. by rewrite <- !app_assoc.
  - size_simpl. rewrite length_app. lia.
  - done.
  - rewrite !length_app. lia.
Qed.

Lemma holds_eq_cstr s a w b other :
  holds h s a w b → eq_cstr h s other = Ok (bool_decide (w = other)).
Proof.
  intros Hs. unfold eq_cstr. pose proof Hs as (_ & _ & Hl & _). rewrite Hl.
  destruct (N.eqb_spec (N.of_nat (List.length w)) (N.of_nat (List.length other)))
    as [He|He]; simpl.
  - by rewrite (holds_window _ _ _ _ Hs).
  - rewrite bool_decide_eq_false_2; [done|]. intros ->. done.
Qed.

Lemma find_from_found s a w1 k c w3 b :
  holds h s a (w1 ++ k ++ c :: w3) b → c ∉ k →
  find_from h s c (List.length (k ++ c :: w3)) (N.of_nat (List.length w1))
  = Ok (N.of_nat (List.length (w1 ++ k))).
Proof.
  revert w1. induction k as [|x k IH]; intros w1 Hs Hk; simpl.
  - erewrite holds_at; [|done|]; last first.
    { rewrite <- app_assoc. by apply list_lookup_middle. }
    simpl. unfold char_eqb. rewrite Ascii.eqb_refl. by rewrite app_nil_r.
  - erewrite holds_at; [|done|]; last first.
    { rewrite <- app_assoc. by apply list_lookup_middle. }
    simpl. apply not_elem_of_cons in Hk as [Hx Hk].
    unfold char_eqb. destruct (Ascii.eqb_spec x c) as [->|_]; [done|].
    pose proof Hs as (_ & _ & _ & Hn). rewrite !length_app in Hn. simpl in Hn.
    size_simpl.
    replace (N.of_nat (List.length w1) + 1)
      with (N.of_nat (List.length (w1 ++ [x]))) by (rewrite length_app; simpl; lia).
    rewrite IH; [|by rewrite <- app_assoc|done].
    by rewrite <- app_assoc.
Qed.

Lemma find_from_none s a w1 k b c :
  holds h s a (w1 ++ k) b → c ∉ k →
  find_from h s c (List.length k) (N.of_nat (List.length w1)) = Ok npos.
Proof.
  revert w1. induction k as [|x k IH]; intros w1 Hs Hk; simpl; [done|].
  erewrite holds_at; [|done|]; last first.
  { rewrite <- app_assoc. by apply list_lookup_middle. }
  simpl. apply not_elem_of_cons in Hk as [Hx Hk].
  unfold char_eqb. destruct (Ascii.eqb_spec x c) as [->|_]; [done|].
  pose proof Hs as (_ & _ & _ & Hn). rewrite !length_app in Hn. simpl in Hn.
  size_simpl.
  replace (N.of_nat (List.length w1) + 1)
    with (N.of_nat (List.length (w1 ++ [x]))) by (rewrite length_app; simpl; lia).
  apply IH; [by rewrite <- app_assoc|done].
Qed.

Lemma holds_find s a w1 k c w3 b :
  holds h s a (w1 ++ k ++ c :: w3) b → c ∉ k →
  find h s c (N.of_nat (List.length w1)) = Ok (N.of_nat (List.length (w1 ++ k))).
Proof.
  intros Hs Hk. unfold find. pose proof Hs as (_ & _ & Hl & _). rewrite Hl.
  replace (N.to_nat _) with (List.length (k ++ c :: w3))
    by (rewrite !length_app; lia).
  by apply (find_from_found s a w1 k c w3 b).
Qed.

Lemma holds_find_none s a w1 k b c :
  holds h s a (w1 ++ k) b → c ∉ k →
  find h s c (N.of_nat (List.length w1)) = Ok npos.
Proof.
  intros Hs Hk. unfold find. pose proof Hs as (_ & _ & Hl & _). rewrite Hl.
  replace (N.to_nat _) with (List.length k) by (rewrite !length_app; lia).
  by eapply find_from_none.
Qed.

End views.

(** ** The reader on a text *)

Lemma text_reader_reads text :
  N.of_nat (List.length text) < npos →
  reads (text_heap text) (text_reader text) text.
Proof.
  intros Hlen. unfold reads, holds, text_heap, text_reader, json_reader.ctor,
    cow_string.ctor. simpl. rewrite lookup_insert_eq.
  split_and!; [done..|]. rewrite length_app. simpl. lia.
Qed.

Lemma text_reader_cursor text :
  N.of_nat (List.length text) < npos →
  cursor (text_heap text) (text_reader text) [] text.
Proof. intros. split; [by apply text_reader_reads|done]. Qed.

Section reading.
Import cow_string json_reader.
Context (h : heap).
Implicit Types (r : json_reader) (pre suf text : list char).

Lemma cursor_size r pre suf :
  cursor h r pre suf →
  size (src r) = N.of_nat (List.length pre + List.length suf).
Proof. intros [(_ & _ & Hl & _) _]. unfold size. by rewrite Hl, length_app. Qed.

Lemma cursor_bound r pre suf :
  cursor h r pre suf → N.of_nat (List.length pre + List.length suf) < npos.
Proof.
  intros [(_ & _ & _ & H) _]. rewrite !length_app in H. simpl in H. lia.
Qed.

Lemma cursor_left r pre suf :
  cursor h r pre suf → N.to_nat (size (src r) - pos r) = List.length suf.
Proof. intros Hc. rewrite (cursor_size _ _ _ Hc). destruct Hc as [_ ->]. lia. Qed.

Lemma cursor_cur r pre c suf : cursor h r pre (c :: suf) → cur h r = Ok c.
Proof.
  intros [Hr Hp]. unfold cur. rewrite Hp. eapply holds_at; [done|].
  rewrite <- app_assoc. simpl. by apply list_lookup_middle.
Qed.

Lemma cursor_cur_end r pre : cursor h r pre [] → cur h r = Ok NUL.
Proof.
  intros [Hr Hp]. unfold cur. rewrite Hp. eapply holds_at; [done|].
  rewrite app_nil_r. by apply list_lookup_middle.
Qed.

Lemma cursor_with_pos r pre a suf p :
  cursor h r pre (a ++ suf) → p = N.of_nat (List.length (pre ++ a)) →
  cursor h (with_pos r p) (pre ++ a) suf.
Proof. intros [Hr Hp] ->. split; [|done]. unfold reads. by rewrite <- app_assoc. Qed.

Lemma cursor_advance r pre a suf :
  cursor h r pre (a ++ suf) →
  cursor h (with_pos r (size_add (pos r) (N.of_nat (List.length a))))
         (pre ++ a) suf.
Proof.
  intros Hc. apply cursor_with_pos; [done|].
  pose proof (cursor_bound _ _ _ Hc) as Hn. destruct Hc as [_ ->].
  rewrite length_app in *. size_simpl. lia.
Qed.

Lemma cursor_step r pre c suf :
  cursor h r pre (c :: suf) →
  cursor h (with_pos r (size_add (pos r) 1)) (pre ++ [c]) suf.
Proof. intros H. by apply (cursor_advance r pre [c] suf). Qed.

Lemma cursor_at_char r pre c suf x :
  cursor h r pre (c :: suf) → at_char h r x = Ok (char_eqb c x).
Proof.
  intros Hc. unfold at_char. rewrite (cursor_size _ _ _ Hc).
  rewrite (cursor_cur _ _ _ _ Hc). destruct Hc as [_ ->]. simpl.
  destruct (N.ltb_spec (N.of_nat (List.length pre))
              (N.of_nat (List.length pre + S (List.length suf)))); [done|lia].
Qed.

Lemma cursor_at_char_end r pre x : cursor h r pre [] → at_char h r x = Ok false.
Proof.
  intros Hc. unfold at_char. rewrite (cursor_size _ _ _ Hc).
  destruct Hc as [_ ->]. simpl.
  destruct (N.ltb_spec (N.of_nat (List.length pre))
              (N.of_nat (List.length pre + 0))); [lia|done].
Qed.

Lemma cursor_before_char r pre c suf x :
  cursor h r pre (c :: suf) → before_char h r x = Ok (negb (char_eqb c x)).
Proof.
  intros Hc. unfold before_char. rewrite (cursor_size _ _ _ Hc).
  rewrite (cursor_cur _ _ _ _ Hc). destruct Hc as [_ ->]. simpl.
  destruct (N.ltb_spec (N.of_nat (List.length pre))
              (N.of_nat (List.length pre + S (List.length suf)))); [done|lia].
Qed.

Lemma cursor_before_char_end r pre x :
  cursor h r pre [] → before_char h r x = Ok false.
Proof.
  intros Hc. unfold before_char. rewrite (cursor_size _ _ _ Hc).
  destruct Hc as [_ ->]. simpl.
  destruct (N.ltb_spec (N.of_nat (List.length pre))
              (N.of_nat (List.length pre + 0))); [lia|done].
Qed.

(** The view that [substr] cuts at the cursor. *)
Lemma cursor_substr r pre w suf :
  cursor h r pre (w ++ suf) →
  holds h (substr (src r) (pos r) (N.of_nat (List.length w)))
        pre w (suf ++ [NUL]).
Proof.
  intros [Hr ->]. unfold reads in Hr.
  apply (holds_substr h (src r) [] pre w suf [NUL]) in Hr. done.
Qed.

(** *** skip_whitespace *)

Lemma skip_whitespace_stay r pre suf :
  cursor h r pre suf → no_space_ahead suf → skip_whitespace h r = Ok r.
Proof.
  intros Hc Hs. unfold skip_whitespace. rewrite (cursor_left _ _ _ Hc).
  destruct suf as [|c suf]; [done|]. simpl.
  rewrite (cursor_cur _ _ _ _ Hc). simpl. simpl in Hs. by rewrite Hs.
Qed.

Lemma skip_whitespace_loop_spaces ws : ∀ r pre suf,
  cursor h r pre (ws ++ suf) → Forall (λ c, isspace c = true) ws →
  no_space_ahead suf →
  ∃ r', skip_whitespace_loop h (List.length (ws ++ suf)) r = Ok r'
        ∧ cursor h r' (pre ++ ws) suf ∧ src r' = src r.
Proof.
  induction ws as [|c ws IH]; intros r pre suf Hc Hws Hs.
  - exists r. rewrite app_nil_r. split_and!; [|done..].
    simpl in *. destruct suf as [|c suf]; [done|]. simpl.
    rewrite (cursor_cur _ _ _ _ Hc). simpl. simpl in Hs. by rewrite Hs.
  - apply Forall_cons in Hws as [Hcs Hws]. simpl.
    rewrite (cursor_cur _ _ _ _ Hc). simpl. rewrite Hcs.
    set (r1 := if char_eqb c "010"%char then _ else r).
    assert (src r1 = src r ∧ pos r1 = pos r) as [Hs1 Hp1]
      by (unfold r1; by destruct (char_eqb c "010"%char)).
    rewrite Hs1, Hp1.
    match goal with |- context [skip_whitespace_loop _ _ ?r2] =>
      destruct (IH r2 (pre ++ [c]) suf) as (r' & Hr' & Hc' & Hsrc) end.
    + apply (cursor_step r pre c (ws ++ suf)) in Hc as [Hc1 Hc2].
      split; [done|]. simpl in *. done.
    + done.
    + done.
    + exists r'. rewrite Hr'. rewrite <- app_assoc in Hc'. done.
Qed.

Lemma skip_whitespace_spaces r pre ws suf :
  cursor h r pre (ws ++ suf) → Forall (λ c, isspace c = true) ws →
  no_space_ahead suf →
  ∃ r', skip_whitespace h r = Ok r'
        ∧ cursor h r' (pre ++ ws) suf ∧ src r' = src r.
Proof.
  intros Hc. unfold skip_whitespace. rewrite (cursor_left _ _ _ Hc).
  by apply skip_whitespace_loop_spaces.
Qed.

End reading.

(** ** Tokens at the cursor *)

Lemma number_run_split suf : suf = number_run suf ++ after_run suf.
Proof.
  induction suf as [|c suf IH]; [done|]. simpl.
  destruct (number_char c); [|done]. simpl. by f_equal.
Qed.

Lemma number_run_chars suf : Forall (λ c, number_char c = true) (number_run suf).
Proof.
  induction suf as [|c suf IH]; [constructor|]. simpl.
  destruct (number_char c) eqn:E; [by constructor|constructor].
Qed.

Lemma after_run_head suf : number_char (next_byte (after_run suf)) = false.
Proof.
  induction suf as [|c suf IH]; [done|]. simpl.
  destruct (number_char c) eqn:E; [done|]. done.
Qed.

Section tokens.
Import cow_string json_reader.
Context (h : heap).
Implicit Types (r : json_reader) (pre suf text : list char).

Lemma cursor_next r pre suf : cursor h r pre suf → cur h r = Ok (next_byte suf).
Proof.
  destruct suf; [apply cursor_cur_end|apply cursor_cur].
Qed.

Lemma with_pos_with_pos r p q : with_pos (with_pos r p) q = with_pos r q.
Proof. done. Qed.

(** *** Literals *)

Lemma parse_literal_ok r pre kw suf v :
  cursor h r pre (list_ascii_of_string kw ++ suf) →
  parse_literal h r (N.of_nat (String.length kw)) kw v
  = Ok (v, with_pos r (N.of_nat (List.length (pre ++ list_ascii_of_string kw)))).
Proof.
  intros Hc. unfold parse_literal.
  assert (String.length kw = List.length (list_ascii_of_string kw)) as Hlen.
  { clear. induction kw; simpl; congruence. }
  rewrite Hlen.
  rewrite (holds_eq_cstr h _ _ _ _ _ (cursor_substr h r pre _ suf Hc)).
  rewrite bool_decide_eq_true_2 by done. simpl.
  pose proof (cursor_bound _ _ _ _ Hc) as Hn. destruct Hc as [_ ->].
  rewrite !length_app in *. size_simpl. do 3 f_equal. lia.
Qed.

(** *** Strings *)

Lemma parse_string_ok r pre k suf :
  cursor h r pre ("034"%char :: k ++ "034"%char :: suf) →
  "034"%char ∉ k →
  parse_string h r
  = Ok (String (substr (src r) (N.of_nat (S (List.length pre)))
                  (N.of_nat (List.length k))),
        with_pos r (N.of_nat (List.length pre + List.length k + 2))).
Proof.
  intros Hc Hk. unfold parse_string.
  pose proof (cursor_bound _ _ _ _ Hc) as Hn. simpl in Hn.
  rewrite length_app in Hn. simpl in Hn.
  apply cursor_step in Hc. set (r1 := with_pos r _) in *.
  assert (pos r1 = N.of_nat (List.length (pre ++ ["034"%char]))) as Hp
    by apply Hc.
  rewrite Hp.
  destruct Hc as [Hr _]. unfold reads in Hr.
  change (src r1) with (src r) in *.
  rewrite (holds_find h _ _ _ _ _ _ _ Hr Hk).
  rewrite !length_app in *. simpl in *.
  unfold npos in *. rewrite size_max_eq in *.
  destruct (N.eqb_spec (N.of_nat (List.length pre + 1 + List.length k))
              (18446744073709551616 - 1)) as [He|_]; [lia|].
  simpl. size_simpl. unfold r1. rewrite with_pos_with_pos.
  do 3 f_equal; [f_equal|]; lia.
Qed.

Lemma parse_string_holds r pre k suf :
  cursor h r pre ("034"%char :: k ++ "034"%char :: suf) →
  holds h (substr (src r) (N.of_nat (S (List.length pre)))
             (N.of_nat (List.length k)))
        (pre ++ ["034"%char]) k ("034"%char :: suf ++ [NUL]).
Proof.
  intros [Hr _]. unfold reads in Hr.
  change (pre ++ "034"%char :: k ++ "034"%char :: suf)
    with (pre ++ ["034"%char] ++ k ++ "034"%char :: suf) in Hr.
  rewrite app_assoc in Hr.
  apply (holds_substr h (src r) [] _ k _ [NUL]) in Hr.
  rewrite length_app in Hr. simpl in Hr.
  by rewrite Nat.add_1_r in Hr.
Qed.

(** *** Numbers *)

Lemma scan_number_run s a w1 run b : ∀ suf,
  holds h s a (w1 ++ run ++ suf) b →
  Forall (λ c, number_char c = true) run →
  number_char (next_byte suf) = false →
  scan_number h s (List.length (run ++ suf)) (N.of_nat (List.length w1))
  = Ok (N.of_nat (List.length (w1 ++ run))).
Proof.
  revert w1. induction run as [|c run IH]; intros w1 suf Hs Hrun Hsuf.
  - simpl. rewrite app_nil_r. destruct suf as [|c suf]; [done|]. simpl.
    erewrite holds_at; [|done|]; last first.
    { rewrite <- app_assoc. by apply list_lookup_middle. }
    simpl. simpl in Hsuf. unfold number_char in Hsuf. by rewrite Hsuf.
  - apply Forall_cons in Hrun as [Hc Hrun]. simpl.
    erewrite holds_at; [|done|]; last first.
    { rewrite <- app_assoc. by apply list_lookup_middle. }
    simpl. unfold number_char in Hc. rewrite Hc.
    pose proof Hs as (_ & _ & _ & Hn). rewrite !length_app in Hn. simpl in Hn.
    size_simpl.
    replace (N.of_nat (List.length w1) + 1)
      with (N.of_nat (List.length (w1 ++ [c]))) by (rewrite length_app; simpl; lia).
    rewrite (IH (w1 ++ [c]) suf); [by rewrite <- app_assoc|by rewrite <- app_assoc|done..].
Qed.

Lemma holds_find_first s a w b c :
  holds h s a w b →
  find h s c 0 = Ok npos ∧ c ∉ w
  ∨ ∃ i, find h s c 0 = Ok i ∧ i ≠ npos ∧ c ∈ w.
Proof.
  intros Hs. destruct (decide (c ∈ w)) as [Hin|Hout].
  - right. apply list_elem_of_split_l in Hin as (k & w3 & -> & Hk).
    exists (N.of_nat (List.length ([] ++ k))). split_and!.
    + by apply (holds_find h s a [] k c w3 b).
    + destruct Hs as (_ & _ & _ & Hn). rewrite !length_app in Hn.
      simpl in *. lia.
    + set_solver.
  - left. split; [|done]. by apply (holds_find_none h s a [] w b c).
Qed.

Lemma holds_is_float s a w b :
  holds h s a w b → is_float h s = Ok (has_point_or_e w).
Proof.
  intros Hs. unfold is_float, has_point_or_e.
  destruct (holds_find_first s a w b "."%char Hs) as [[-> Hp]|(i & -> & Hi & Hp)];
    simpl.
  - rewrite N.eqb_refl. simpl.
    destruct (holds_find_first s a w b "e"%char Hs) as [[-> He]|(j & -> & Hj & He)];
      simpl.
    + rewrite N.eqb_refl. simpl. rewrite bool_decide_eq_false_2; [done|]. tauto.
    + apply N.eqb_neq in Hj. rewrite Hj. simpl.
      rewrite bool_decide_eq_true_2; [done|]. tauto.
  - apply N.eqb_neq in Hi. rewrite Hi. simpl.
    rewrite bool_decide_eq_true_2; [done|]. tauto.
Qed.

Lemma parse_number_run r pre run suf :
  cursor h r pre (run ++ suf) →
  Forall (λ c, number_char c = true) run →
  number_char (next_byte suf) = false →
  parse_number h r = convert r pre run suf.
Proof.
  intros Hc Hrun Hsuf. unfold parse_number, convert.
  rewrite (cursor_left _ _ _ _ Hc).
  pose proof (cursor_bound _ _ _ _ Hc) as Hn.
  pose proof Hc as [Hr Hp]. unfold reads in Hr.
  rewrite Hp. rewrite (scan_number_run _ _ _ _ _ _ Hr Hrun Hsuf). simpl.
  rewrite !length_app in *.
  unfold npos in Hn. rewrite size_max_eq in Hn.
  rewrite size_sub_small by (rewrite ?size_max_eq; lia).
  replace (N.of_nat (List.length pre + List.length run) - N.of_nat (List.length pre))
    with (N.of_nat (List.length run)) by lia.
  rewrite <- Hp.
  pose proof (cursor_substr h r pre run suf Hc) as Hs.
  rewrite (holds_is_float _ _ _ _ Hs). simpl.
  rewrite (holds_window h _ _ _ _ Hs). simpl.
  assert (cursor h (with_pos r (N.of_nat (List.length pre + List.length run)))
            (pre ++ run) suf) as Hc1.
  { apply cursor_with_pos; [done|]. by rewrite length_app. }
  rewrite (cursor_next _ _ _ Hc1). simpl. done.
Qed.

End tokens.

(** ** Zero-copy slicing *)

Lemma bind_Ok {A B} (m : result A) (f : A → result B) b :
  m ≫= f = Ok b → ∃ a, m = Ok a ∧ f a = Ok b.
Proof. destruct m; simpl; [eauto|done..]. Qed.

Tactic Notation "bind_inv" hyp(H) :=
  let a := fresh "a" in
  let Ha := fresh "Ha" in
  apply bind_Ok in H as (a & Ha & H).

Tactic Notation "bind_inv" hyp(H) "as" simple_intropattern(a) ident(Ha) :=
  apply bind_Ok in H as (a & Ha & H).

Section zero_copy.
Import cow_string json_reader.
Context (h : heap).

Lemma skip_whitespace_loop_src n : ∀ r r',
  skip_whitespace_loop h n r = Ok r' → src r' = src r.
Proof.
  induction n as [|n IH]; intros r r' H; simpl in H; [by simplify_eq|].
  bind_inv H. destruct (isspace a); [|by simplify_eq].
  apply IH in H. simpl in H. rewrite H. by destruct (char_eqb a "010"%char).
Qed.

Lemma skip_whitespace_src r r' : skip_whitespace h r = Ok r' → src r' = src r.
Proof. apply skip_whitespace_loop_src. Qed.

Lemma parse_literal_src r n kw v0 v r' :
  parse_literal h r n kw v0 = Ok (v, r') → v = v0 ∧ src r' = src r.
Proof.
  unfold parse_literal. intros H. bind_inv H. destruct a.
  - by simplify_eq.
  - bind_inv H. done.
Qed.

Lemma parse_string_src r v r' :
  parse_string h r = Ok (v, r') →
  (∃ s, v = String s ∧ storage s = storage (src r)) ∧ src r' = src r.
Proof.
  unfold parse_string. intros H. bind_inv H.
  destruct (a =? npos).
  - bind_inv H. done.
  - simplify_eq. split; [|done]. eexists. split; [done|]. done.
Qed.

Lemma parse_number_src r v r' :
  parse_number h r = Ok (v, r') →
  ((∃ f, v = Float f) ∨ (∃ i, v = Integer i)) ∧ src r' = src r.
Proof.
  unfold parse_number. intros H. bind_inv H. bind_inv H. bind_inv H.
  destruct a0.
  - destruct (from_chars_double _ _) as [res val].
    case_bool_decide; [|by bind_inv H]. simplify_eq. eauto.
  - destruct (from_chars_int _ _) as [res val].
    case_bool_decide; [|by bind_inv H]. simplify_eq. eauto.
Qed.

Lemma after_element_src r r' : after_element h r = Ok r' → src r' = src r.
Proof.
  unfold after_element. intros H. bind_inv H.
  apply skip_whitespace_src in H. rewrite H. by destruct a.
Qed.

Lemma map_assign_into p obj : ∀ key v obj',
  entries_into p obj → storage key = p → views_into p v →
  map_assign h obj key v = Ok obj' → entries_into p obj'.
Proof.
  induction obj as [|[k x] obj IH]; intros key v obj' Ho Hk Hv H; simpl in H.
  - simplify_eq. by repeat split.
  - destruct Ho as (Hk1 & Hx & Ho). bind_inv H. destruct a.
    + simplify_eq. by repeat split.
    + bind_inv H. destruct a.
      * bind_inv H. simplify_eq. split; [done|split; [done|]].
        by apply (IH key v _ Ho Hk Hv).
      * simplify_eq. by repeat split.
Qed.

Section loops.
Context (pv : json_reader → result (Value * json_reader)).
Hypothesis pv_into : ∀ r v r',
  pv r = Ok (v, r') → views_into (storage (src r)) v ∧ src r' = src r.

Lemma parse_array_loop_into n : ∀ r arr v r',
  views_into (storage (src r)) (Array arr) →
  parse_array_loop h pv n r arr = Ok (v, r') →
  views_into (storage (src r)) v ∧ src r' = src r.
Proof.
  induction n as [|n IH]; intros r arr v r' Harr H; simpl in H; [done|].
  bind_inv H. destruct a; [|by simplify_eq].
  bind_inv H. destruct a as [value r1].
  apply pv_into in Ha0 as [Hv Hs1]. bind_inv H.
  apply after_element_src in Ha0 as Hs2.
  apply IH in H as [Hv' Hs'].
  - rewrite Hs2, Hs1 in Hv', Hs'. split; assumption.
  - rewrite Hs2, Hs1. simpl in *. rewrite foldr_app. simpl.
    clear -Harr Hv. induction arr as [|x arr IHa]; simpl in *; tauto.
Qed.

Lemma parse_entry_into r key value r' :
  parse_entry h pv r = Ok (key, value, r') →
  storage key = storage (src r) ∧ views_into (storage (src r)) value
  ∧ src r' = src r.
Proof.
  unfold parse_entry. intros H. bind_inv H as [k r1] Hkey.
  apply pv_into in Hkey as [Hk Hs1].
  destruct k; try done. bind_inv H as colon Hcolon.
  destruct colon; [|by bind_inv H].
  bind_inv H as [v r2] Hval. apply pv_into in Hval as [Hv Hs2].
  bind_inv H as r3 Hafter. apply after_element_src in Hafter.
  simplify_eq. simpl in *. rewrite Hafter, Hs2. rewrite Hs1 in Hv. done.
Qed.

Lemma parse_object_loop_into n : ∀ r obj v r',
  entries_into (storage (src r)) obj →
  parse_object_loop h pv n r obj = Ok (v, r') →
  views_into (storage (src r)) v ∧ src r' = src r.
Proof.
  induction n as [|n IH]; intros r obj v r' Hobj H; simpl in H; [done|].
  bind_inv H. destruct a; [|by simplify_eq].
  bind_inv H. destruct a as [[key value] r1].
  apply parse_entry_into in Ha0 as (Hk & Hv & Hs1). bind_inv H.
  apply IH in H as [Hv' Hs'].
  - rewrite Hs1 in Hv', Hs'. split; assumption.
  - rewrite Hs1. by eapply map_assign_into.
Qed.
End loops.

Lemma parse_value_into fuel : ∀ r v r',
  parse_value h fuel r = Ok (v, r') →
  views_into (storage (src r)) v ∧ src r' = src r.
Proof.
  induction fuel as [|fuel IH]; intros r v r' H; simpl in H; [done|].
  bind_inv H. apply skip_whitespace_src in Ha. rewrite <- Ha.
  destruct (size (src a) <=? pos a); [done|]. bind_inv H.
  repeat match type of H with (if ?c then _ else _) = _ => destruct c end.
  - by apply parse_literal_src in H as [-> ?].
  - by apply parse_literal_src in H as [-> ?].
  - by apply parse_literal_src in H as [-> ?].
  - by apply parse_string_src in H as [(s & -> & ?) ?].
  - unfold parse_array in H. bind_inv H.
    apply skip_whitespace_src in Ha1. simpl in Ha1.
    apply (parse_array_loop_into _ IH) in H; [|done]. by rewrite Ha1 in H.
  - unfold parse_object in H. bind_inv H.
    apply skip_whitespace_src in Ha1. simpl in Ha1.
    apply (parse_object_loop_into _ IH) in H; [|done]. by rewrite Ha1 in H.
  - by apply parse_number_src in H as [[[? ->]|[? ->]] ?].
Qed.

(** C5. Zero-copy slicing.  [substr] gives a view of the same block and
    leaves the heap as it is, whatever the number of owners of the block;
    the block only gains an owner.  Every string in a tree that the reader
    returns is a view into the block of the source. *)
Theorem zero_copy :
  (∀ m x s off count,
     memory.strings m !! x = Some s →
     memory.substr m x off count
     = Ok {| memory.blocks := memory.blocks m;
             memory.strings := memory.strings m ++ [substr s off count] |}
     ∧ storage (substr s off count) = storage s
     ∧ memory.use_count
         {| memory.blocks := memory.blocks m;
            memory.strings := memory.strings m ++ [substr s off count] |}
         (storage s)
       = S (memory.use_count m (storage s)))
  ∧ (∀ r v,
       parse h r = Ok v → views_into (storage (src r)) v).
Proof.
  split.
  - intros m x s off count Hx. unfold memory.substr, memory.get.
    rewrite Hx. simpl. split_and!; [done..|].
    unfold memory.use_count. simpl. rewrite filter_app, length_app.
    rewrite filter_cons_True by done. simpl. lia.
  - intros r v H. unfold parse in H. bind_inv H. destruct a as [v' r'].
    simplify_eq. by apply parse_value_into in Ha as [? _].
Qed.

End zero_copy.

Lemma zero_copy_witness :
  views_into 1%positive
    (String {| cow_string.offset := 1; cow_string.length := 5;
               cow_string.storage := 1%positive |})
  ∧ memory.use_count
      {| memory.blocks := memory.blocks hello_shared;
         memory.strings := memory.strings hello_shared
                           ++ [cow_string.substr
                                 {| cow_string.offset := 0; cow_string.length := 13;
                                    cow_string.storage := 1%positive |} 7 5] |}
      1%positive = 3%nat.
Proof.
  split.
  - apply (proj2 (zero_copy (text_heap (lit "'hello'"))) (text_reader (lit "'hello'"))).
    vm_compute. reflexivity.
  - apply (proj1 (zero_copy ∅) hello_shared 0%nat
             {| cow_string.offset := 0; cow_string.length := 13;
                cow_string.storage := 1%positive |} 7 5).
    reflexivity.
Defined.

(** ** Numbers *)

(** C7. Number classification and conversion.  With the cursor anywhere in
    the text, the token is the longest run of digits, points and letters e
    there.  When its conversion fails, [parse_number] throws; otherwise it
    returns a Float if the token has a point or an e, and an Integer if it
    has none, and the cursor is behind the token. *)
Theorem number_classification h r pre suf :
  cursor h r pre suf →
  let run := number_run suf in
  (conversion_fails run →
     json_reader.parse_number h r
     = Throw (InvalidToken (next_byte (after_run suf))
                (json_reader.row r) (json_reader.column r)))
  ∧ (¬ conversion_fails run →
     ∃ v, json_reader.parse_number h r
          = Ok (v, json_reader.with_pos r (N.of_nat (List.length (pre ++ run))))
          ∧ (is_Float v ↔ has_point_or_e run = true)
          ∧ (is_Integer v ↔ has_point_or_e run = false)).
Proof.
  intros Hc run. subst run. set (run := number_run suf).
  assert (json_reader.parse_number h r = convert r pre run (after_run suf)) as ->.
  { apply parse_number_run.
    - unfold run. by rewrite <- number_run_split.
    - apply number_run_chars.
    - apply after_run_head. }
  unfold conversion_fails, convert.
  destruct (has_point_or_e run).
  - destruct (from_chars_double run _) as [res val]. simpl.
    split; intros Hf.
    + by rewrite bool_decide_eq_false_2.
    + rewrite bool_decide_eq_true_2
        by (destruct (ec res); [done|exfalso; by apply Hf..]).
      eexists. split; [done|]. split; [split; [done|by eexists]|].
      split; [by intros [? ?]|done].
  - destruct (from_chars_int run _) as [res val]. simpl.
    split; intros Hf.
    + by rewrite bool_decide_eq_false_2.
    + rewrite bool_decide_eq_true_2
        by (destruct (ec res); [done|exfalso; by apply Hf..]).
      eexists. split; [done|]. split; [split; [by intros [? ?]|done]|].
      split; [done|by eexists].
Qed.

(** The tokens 1e10 and 100, and two runs that do not convert: the empty
    run (the cursor is on a minus sign) and the run made of one letter e. *)
Lemma number_classification_witness :
  parse_text (str "1e10") = Ok (Float (binary_normalize prec emax (10 ^ 10) 0 false))
  ∧ parse_text (str "100") = Ok (Integer 100)
  ∧ json_reader.parse_number (text_heap (str "-1")) (text_reader (str "-1"))
    = Throw (InvalidToken "-"%char 1 0)
  ∧ json_reader.parse_number (text_heap (str "e")) (text_reader (str "e"))
    = Throw (InvalidToken NUL 1 0).
Proof.
  split; [vm_compute; reflexivity|]. split; [vm_compute; reflexivity|]. split.
  - apply (proj1 (number_classification (text_heap (str "-1"))
                    (text_reader (str "-1")) [] (str "-1")
                    (text_reader_cursor (str "-1") eq_refl))).
    vm_compute. discriminate.
  - apply (proj1 (number_classification (text_heap (str "e"))
                    (text_reader (str "e")) [] (str "e")
                    (text_reader_cursor (str "e") eq_refl))).
    vm_compute. discriminate.
Defined.

(** ** The invariant of the views *)

Section invariant.
Import cow_string.

(** The constructor, the copy-on-write clone and [substr] within the
    window keep the invariant. *)
Lemma ctor_within h view :
  within_buffer (ctor h view).1 (ctor h view).2.
Proof.
  unfold within_buffer, ctor. simpl. rewrite lookup_insert_eq.
  rewrite length_app. simpl. lia.
Qed.

Lemma copy_within h s h' s' : copy h s = Ok (h', s') → within_buffer h' s'.
Proof.
  unfold copy. destruct (_ <=? _); [done|]. intros H.
  bind_inv H as w Hw. simplify_eq. unfold within_buffer. simpl.
  rewrite lookup_insert_eq. rewrite length_app. simpl.
  assert (List.length w = N.to_nat (length s)) as ->; [|lia].
  unfold window in Hw. clear -Hw. revert w Hw.
  generalize (offset s). induction (N.to_nat (length s)) as [|n IH];
    intros o w Hw; simpl in Hw.
  - by simplify_eq.
  - bind_inv Hw as c Hc. bind_inv Hw as cs Hcs. simplify_eq. simpl.
    f_equal. by eapply IH.
Qed.

Lemma substr_within h s off count :
  within_buffer h s → off + count ≤ length s →
  within_buffer h (substr s off count).
Proof.
  unfold within_buffer, substr. simpl.
  destruct (h !! storage s) as [blk|]; [|done]. intros Hs Hoc.
  unfold size_add, wrap.
  pose proof (N.Div0.mod_le (offset s + off) size_max). lia.
Qed.

(** The view of a string token is within the buffer. *)
Lemma string_token_within h r pre k suf :
  cursor h r pre ("034"%char :: k ++ "034"%char :: suf) →
  within_buffer h (substr (json_reader.src r) (N.of_nat (S (List.length pre)))
                     (N.of_nat (List.length k))).
Proof.
  intros Hc. apply parse_string_holds in Hc as (Hb & Ho & Hl & _).
  unfold within_buffer. rewrite Hb, Ho, Hl. rewrite !length_app. simpl.
  rewrite length_app. simpl. lia.
Qed.

End invariant.

(** C4, at the input [n]: the source of the reader is within its buffer of
    one byte, but the view that [parse_null] takes for its lookahead,
    [src.substr(pos, 4)], has [offset + length = 4]; comparing it with the
    keyword reads outside the block. *)
Theorem lookahead_outside_buffer :
  let h := text_heap (str "n") in
  let r := text_reader (str "n") in
  within_buffer h (json_reader.src r)
  ∧ ¬ within_buffer h
        (cow_string.substr (json_reader.src r) (json_reader.pos r) 4)
  ∧ parse_text (str "n") = Undefined.
Proof.
  split_and!.
  - vm_compute. discriminate.
  - vm_compute. intros H. by apply H.
  - vm_compute. reflexivity.
Qed.

(** ** Whitespace *)

Section dispatch.
Import cow_string json_reader.
Context (h : heap).

(** [parse_value] with the cursor on the byte [c], not a whitespace. *)
Lemma parse_value_at fuel r pre c suf :
  cursor h r pre (c :: suf) → isspace c = false →
  parse_value h (S fuel) r =
    if char_eqb c "n"%char then parse_null h r
    else if char_eqb c "t"%char then parse_true h r
    else if char_eqb c "f"%char then parse_false h r
    else if char_eqb c "034"%char then parse_string h r
    else if char_eqb c "["%char then parse_array h (parse_value h fuel) fuel r
    else if char_eqb c "{"%char then parse_object h (parse_value h fuel) fuel r
    else parse_number h r.
Proof.
  intros Hc Hs. simpl. rewrite (skip_whitespace_stay h r pre (c :: suf) Hc Hs).
  simpl. rewrite (cursor_size _ _ _ _ Hc). destruct Hc as [Hr Hp] eqn:E.
  rewrite Hp. simpl.
  destruct (N.leb_spec (N.of_nat (List.length pre + S (List.length suf)))
              (N.of_nat (List.length pre))); [lia|].
  rewrite (cursor_cur h r pre c suf (conj Hr Hp)). done.
Qed.

Lemma parse_value_at_brace fuel r pre suf :
  cursor h r pre ("{"%char :: suf) →
  parse_value h (S fuel) r = parse_object h (parse_value h fuel) fuel r.
Proof. intros Hc. by rewrite (parse_value_at fuel r pre _ suf Hc). Qed.

Lemma parse_value_at_bracket fuel r pre suf :
  cursor h r pre ("["%char :: suf) →
  parse_value h (S fuel) r = parse_array h (parse_value h fuel) fuel r.
Proof. intros Hc. by rewrite (parse_value_at fuel r pre _ suf Hc). Qed.

Lemma parse_value_at_quote fuel r pre suf :
  cursor h r pre ("034"%char :: suf) →
  parse_value h (S fuel) r = parse_string h r.
Proof. intros Hc. by rewrite (parse_value_at fuel r pre _ suf Hc). Qed.

Lemma parse_value_at_digit fuel r pre c suf :
  cursor h r pre (c :: suf) → isdigit c = true →
  parse_value h (S fuel) r = parse_number h r.
Proof.
  intros Hc Hd.
  assert (isspace c = false ∧ char_eqb c "n"%char = false
          ∧ char_eqb c "t"%char = false ∧ char_eqb c "f"%char = false
          ∧ char_eqb c "034"%char = false ∧ char_eqb c "["%char = false
          ∧ char_eqb c "{"%char = false) as (Hs & H1 & H2 & H3 & H4 & H5 & H6).
  { clear -Hd. revert Hd.
    destruct c as [[] [] [] [] [] [] [] []]; vm_compute; intros H; done. }
  rewrite (parse_value_at fuel r pre _ suf Hc Hs).
  by rewrite H1, H2, H3, H4, H5, H6.
Qed.

(** [parse_value] with nothing left. *)
Lemma parse_value_at_end fuel r pre :
  cursor h r pre [] → parse_value h (S fuel) r = Throw UnexpectedEnd.
Proof.
  intros Hc. simpl. rewrite (skip_whitespace_stay h r pre [] Hc I). simpl.
  rewrite (cursor_size _ _ _ _ Hc). destruct Hc as [_ ->].
  destruct (N.leb_spec (N.of_nat (List.length pre + List.length (@nil char)))
              (N.of_nat (List.length pre))) as [|Hlt]; [done|].
  simpl in Hlt. lia.
Qed.

Lemma space_not_structural c :
  isspace c = true →
  char_eqb c ","%char = false ∧ char_eqb c ":"%char = false
  ∧ char_eqb c "]"%char = false ∧ char_eqb c "}"%char = false.
Proof.
  destruct c as [[] [] [] [] [] [] [] []]; vm_compute; intros H; done.
Qed.

(** In the loop of [parse_object], a key followed by a whitespace. *)
Lemma key_then_space pv n r obj key r1 c :
  before_char h r "}"%char = Ok true →
  pv r = Ok (String key, r1) →
  cur h r1 = Ok c → isspace c = true →
  parse_object_loop h pv (S n) r obj = Throw (ExpectedColon (pos r1) c).
Proof.
  intros Hb Hk Hc Hs. simpl. rewrite Hb. simpl. unfold parse_entry.
  rewrite Hk. simpl. unfold at_char.
  apply space_not_structural in Hs as (_ & Hcolon & _).
  rewrite Hc. simpl. rewrite Hcolon.
  by destruct (pos r1 <? size (src r1)).
Qed.

(** After an element, the whitespace before the next byte is skipped. *)
Lemma after_element_spaces r pre w ws suf :
  cursor h r pre (w :: ws ++ suf) →
  Forall (λ c, isspace c = true) (w :: ws) → no_space_ahead suf →
  ∃ r', after_element h r = Ok r' ∧ cursor h r' (pre ++ w :: ws) suf.
Proof.
  intros Hc Hws Hs. unfold after_element.
  rewrite (cursor_at_char h r pre w (ws ++ suf) _ Hc).
  apply Forall_cons in Hws as Hw. destruct Hw as [Hw _].
  apply space_not_structural in Hw as (-> & _). simpl.
  destruct (skip_whitespace_spaces h r pre (w :: ws) suf Hc Hws Hs)
    as (r' & -> & Hc' & _).
  by exists r'.
Qed.

End dispatch.

(** C10, as amended.  Whitespace is skipped before a value and after an
    element with its optional comma, so also before a closing bracket; it
    is not skipped between a key and its colon.  Whenever the loop of
    [parse_object] has read a key and the cursor is on a whitespace, it
    throws [ExpectedColon] with that byte; so does the parse of every text
    that is an object whose first key is followed by a whitespace. *)
Theorem space_before_colon :
  (∀ h r pre w ws suf,
     cursor h r pre (w :: ws ++ suf) →
     Forall (λ c, isspace c = true) (w :: ws) → no_space_ahead suf →
     ∃ r', json_reader.after_element h r = Ok r'
           ∧ cursor h r' (pre ++ w :: ws) suf)
  ∧ (∀ h pv n r obj key r1 c,
       json_reader.before_char h r "}"%char = Ok true →
       pv r = Ok (String key, r1) →
       json_reader.cur h r1 = Ok c → isspace c = true →
       json_reader.parse_object_loop h pv (S n) r obj
       = Throw (ExpectedColon (json_reader.pos r1) c))
  ∧ (∀ ws k w rest,
       Forall (λ c, isspace c = true) ws → "034"%char ∉ k → isspace w = true →
       N.of_nat (List.length (spaced_key ws k w rest)) < npos →
       parse_text (spaced_key ws k w rest)
       = Throw (ExpectedColon (N.of_nat (List.length ws + List.length k + 3)) w)).
Proof.
  split; [apply after_element_spaces|]. split; [apply key_then_space|].
  intros ws k w rest Hws Hk Hw Hlen.
  set (text := spaced_key ws k w rest) in *.
  set (h := text_heap text). set (r := text_reader text).
  pose proof (text_reader_cursor text Hlen) as Hc. fold h r in Hc.
  unfold parse_text, json_reader.parse. fold h r.
  change {| json_reader.src := json_reader.src r; json_reader.pos := 0;
            json_reader.row := 1; json_reader.column := 0 |} with r.
  unfold json_reader.fuel_of. rewrite (cursor_size _ _ _ _ Hc).
  rewrite Nat2N.id. simpl List.length.
  unfold text, spaced_key in Hc.
  rewrite (parse_value_at_brace h _ r [] _ Hc).
  unfold json_reader.parse_object.
  apply cursor_step in Hc.
  destruct (skip_whitespace_spaces h _ _ ws _ Hc Hws eq_refl)
    as (r1 & Hskip & Hc1 & Hs1).
  rewrite Hskip. cbn [mbind result_bind].
  rewrite length_app. cbn [List.length].
  replace (List.length ws + S (List.length (k ++ "034"%char :: w :: rest)))%nat
    with (S (List.length ws + List.length (k ++ "034"%char :: w :: rest)))%nat by lia.
  cbn [Nat.add].
  erewrite (key_then_space h _ _ r1 []
              (cow_string.substr (json_reader.src r1) _ _)
              (json_reader.with_pos r1
                 (N.of_nat (List.length ("{"%char :: ws) + List.length k + 2)))
              w).
  - cbn [mbind result_bind json_reader.with_pos json_reader.pos].
    do 2 f_equal. cbn [List.length]. lia.
  - by rewrite (cursor_before_char h r1 _ _ _ _ Hc1).
  - rewrite (parse_value_at_quote h _ r1 _ _ Hc1).
    by rewrite (parse_string_ok h r1 _ k _ Hc1 Hk).
  - apply (cursor_cur h _ (("{"%char :: ws) ++ "034"%char :: k ++ ["034"%char]) w rest).
    apply (cursor_with_pos h r1 _ ("034"%char :: k ++ ["034"%char]) (w :: rest)).
    + simpl. rewrite <- app_assoc. exact Hc1.
    + rewrite !length_app. simpl. rewrite length_app. simpl. lia.
  - done.
Qed.

Lemma space_before_colon_witness :
  parse_text (lit "{'a' : 1}") = Throw (ExpectedColon 4 " "%char).
Proof.
  apply (proj2 (proj2 space_before_colon) [] (str "a") " "%char (str ": 1}")).
  - constructor.
  - vm_compute. intros H. inversion H as [|? ? ? H1]; inversion H1.
  - reflexivity.
  - reflexivity.
Defined.

(** C10 as stated fails: the whitespace between the value 1 and the closing
    bracket or brace is skipped, and the text is accepted. *)
Lemma space_before_closer_is_skipped :
  parse_text (lit "[1 ]") = Ok (Array [Integer 1])
  ∧ parsed (lit "{'a':1 }") = Ok (TObject [(str "a", TInteger 1)])
  ∧ parsed (lit "[1, 2 ]") = Ok (TArray [TInteger 1; TInteger 2]).
Proof. split_and!; vm_compute; reflexivity. Qed.

(** ** The order of the keys *)

Lemma N_of_ascii_inj x y : N_of_ascii x = N_of_ascii y → x = y.
Proof.
  intros H. rewrite <- (ascii_N_embedding x), <- (ascii_N_embedding y).
  by rewrite H.
Qed.

Lemma bytes_lt_irrefl a : bytes_lt a a = false.
Proof.
  induction a as [|x a IH]; [done|]. simpl. by rewrite N.compare_refl.
Qed.

Lemma bytes_lt_trans a : ∀ b c,
  bytes_lt a b = true → bytes_lt b c = true → bytes_lt a c = true.
Proof.
  induction a as [|x a IH]; intros [|y b] [|z c] Hab Hbc; simpl in *; try done.
  destruct (N.compare_spec (N_of_ascii x) (N_of_ascii y)) as [Hxy|Hxy|Hxy];
    destruct (N.compare_spec (N_of_ascii y) (N_of_ascii z)) as [Hyz|Hyz|Hyz];
    try done.
  - rewrite Hxy, Hyz, N.compare_refl. by eapply IH.
  - rewrite Hxy. by apply N.compare_lt_iff in Hyz as ->.
  - rewrite <- Hyz. by apply N.compare_lt_iff in Hxy as ->.
  - assert (N_of_ascii x < N_of_ascii z) as Hxz by lia.
    by apply N.compare_lt_iff in Hxz as ->.
Qed.

Lemma bytes_lt_total a : ∀ b,
  bytes_lt a b = false → bytes_lt b a = false → a = b.
Proof.
  induction a as [|x a IH]; intros [|y b] Hab Hba; simpl in *; try done.
  rewrite (N.compare_antisym (N_of_ascii x) (N_of_ascii y)) in Hba.
  destruct (N.compare_spec (N_of_ascii x) (N_of_ascii y)) as [Hxy|Hxy|Hxy];
    simpl in *; try done.
  apply N_of_ascii_inj in Hxy as ->. f_equal. by apply IH.
Qed.

Lemma bytes_lt_asym a b : bytes_lt a b = true → bytes_lt b a = false.
Proof.
  intros Hab. destruct (bytes_lt b a) eqn:Hba; [|done].
  pose proof (bytes_lt_trans _ _ _ Hab Hba) as H.
  by rewrite bytes_lt_irrefl in H.
Qed.

(** The comparison that [operator<] makes is this order. *)
Lemma compare_take a : ∀ b,
  match cow_string.compare
          (take (List.length a `min` List.length b) a)
          (take (List.length a `min` List.length b) b) with
  | Lt => true
  | Gt => false
  | Eq => (N.of_nat (List.length a) <? N.of_nat (List.length b))
  end = bytes_lt a b.
Proof.
  induction a as [|x a IH]; intros [|y b]; simpl; try done.
  destruct (N.compare (N_of_ascii x) (N_of_ascii y)); try done.
  rewrite <- IH. destruct (cow_string.compare _ _); try done.
  destruct (N.ltb_spec (N.of_nat (List.length a)) (N.of_nat (List.length b)));
    destruct (N.ltb_spec (N.of_nat (S (List.length a))) (N.of_nat (S (List.length b))));
    try done; lia.
Qed.

(** ** The map of an object *)

Section assign_bytes.
Context {A : Type}.
Implicit Types (l : list (list char * A)) (w k : list char) (x : A).

Lemma assign_bytes_keys l w x k :
  k ∈ (assign_bytes l w x).*1 → k = w ∨ k ∈ l.*1.
Proof.
  induction l as [|[k' y] l IH]; simpl.
  - intros ?%list_elem_of_singleton. by left.
  - destruct (bytes_lt w k'); [|destruct (bytes_lt k' w) eqn:E]; simpl.
    + intros [->|H]%elem_of_cons; [by left|by right].
    + intros [->|H]%elem_of_cons; [right; left|].
      destruct (IH H) as [->|?]; [by left|right; by right].
    + intros H. by right.
Qed.

Lemma assign_bytes_ascending l w x :
  ascending l.*1 → ascending (assign_bytes l w x).*1.
Proof.
  induction l as [|[k y] l IH]; simpl; [done|]. intros [Hk Hl].
  destruct (bytes_lt w k) eqn:Hwk; [|destruct (bytes_lt k w) eqn:Hkw]; simpl.
  - split_and!; [|done..]. constructor; [done|].
    eapply Forall_impl; [done|]. intros k' Hk'. simpl in Hk'.
    by eapply bytes_lt_trans.
  - split; [|by apply IH]. apply Forall_forall. intros k' Hk'.
    apply assign_bytes_keys in Hk' as [->|Hk']; [done|].
    by eapply Forall_forall in Hk.
  - done.
Qed.

Lemma values_at_out w l :
  Forall (λ k, k ≠ w) l.*1 → values_at w l = [].
Proof.
  induction l as [|[k y] l IH]; simpl; [done|].
  intros [Hk Hl]%Forall_cons. rewrite decide_False by done. by apply IH.
Qed.

Lemma assign_bytes_values l w x w' :
  ascending l.*1 →
  values_at w' (assign_bytes l w x)
  = if decide (w' = w) then [x] else values_at w' l.
Proof.
  induction l as [|[k y] l IH]; simpl.
  - intros _. destruct (decide (w = w')), (decide (w' = w)); congruence.
  - intros [Hk Hl].
    destruct (bytes_lt w k) eqn:Hwk; [|destruct (bytes_lt k w) eqn:Hkw]; simpl.
    + assert (k ≠ w) as Hkw by (intros ->; by rewrite bytes_lt_irrefl in Hwk).
      assert (values_at w l = []) as Hout.
      { apply values_at_out. eapply Forall_impl; [done|].
        intros k' Hk' ->. simpl in Hk'.
        pose proof (bytes_lt_trans _ _ _ Hwk Hk') as H.
        by rewrite bytes_lt_irrefl in H. }
      repeat case_decide; simplify_eq; rewrite ?Hout; done.
    + rewrite IH by done.
      assert (k ≠ w) as Hne by (intros ->; by rewrite bytes_lt_irrefl in Hkw).
      repeat case_decide; simplify_eq; done.
    + apply bytes_lt_total in Hwk; [|done]. subst k.
      assert (values_at w l = []) as Hout.
      { apply values_at_out. eapply Forall_impl; [done|].
        intros k' Hk' ->. simpl in Hk'. by rewrite bytes_lt_irrefl in Hk'. }
      repeat case_decide; simplify_eq; rewrite ?Hout; done.
Qed.

Lemma assign_bytes_append l w x :
  Forall (λ k, bytes_lt k w = true) l.*1 →
  assign_bytes l w x = l ++ [(w, x)].
Proof.
  induction l as [|[k y] l IH]; simpl; [done|].
  intros [Hk Hl]%Forall_cons. rewrite (bytes_lt_asym _ _ Hk), Hk.
  f_equal. by apply IH.
Qed.

Lemma assign_all_ascending es : ∀ l,
  ascending l.*1 → ascending (assign_all l es).*1.
Proof.
  induction es as [|[k x] es IH]; intros l Hl; simpl; [done|].
  apply IH. by apply assign_bytes_ascending.
Qed.

(** Last write wins: a key that was assigned has one entry, with the value
    assigned last. *)
Lemma assign_all_values es : ∀ l w,
  ascending l.*1 →
  values_at w (assign_all l es)
  = match last (values_at w es) with
    | Some x => [x]
    | None => values_at w l
    end.
Proof.
  induction es as [|[k x] es IH]; intros l w Hl; simpl; [done|].
  rewrite IH by by apply assign_bytes_ascending.
  rewrite assign_bytes_values by done.
  destruct (decide (k = w)) as [->|Hne].
  - rewrite decide_True by done. rewrite last_cons.
    by destruct (last (values_at w es)).
  - rewrite decide_False by done. done.
Qed.

End assign_bytes.

Section keyed.
Import cow_string.
Context (h : heap).

Lemma load_range_length p n : ∀ o w,
  load_range h p o n = Ok w → List.length w = n.
Proof.
  induction n as [|n IH]; intros o w H; simpl in H; [by simplify_eq|].
  bind_inv H as c Hc. bind_inv H as cs Hcs. simplify_eq. simpl.
  f_equal. by eapply IH.
Qed.

Lemma load_range_take p n : ∀ o w m,
  load_range h p o n = Ok w → (m ≤ n)%nat →
  load_range h p o m = Ok (take m w).
Proof.
  induction n as [|n IH]; intros o w m H Hm; simpl in H.
  - simplify_eq. by replace m with 0%nat by lia.
  - bind_inv H as c Hc. bind_inv H as cs Hcs. simplify_eq.
    destruct m as [|m]; [done|]. simpl. rewrite Hc. simpl.
    rewrite (IH _ _ m Hcs) by lia. done.
Qed.

Lemma window_lt s s' w w' :
  window h s = Ok w → window h s' = Ok w' → lt h s s' = Ok (bytes_lt w w').
Proof.
  unfold window. intros Hw Hw'. unfold lt, size.
  pose proof (load_range_length _ _ _ _ Hw) as Hl.
  pose proof (load_range_length _ _ _ _ Hw') as Hl'.
  rewrite (load_range_take _ _ _ _ _ Hw) by lia.
  rewrite (load_range_take _ _ _ _ _ Hw') by lia.
  simpl. rewrite <- compare_take.
  replace (N.to_nat (N.min (length s) (length s')))
    with (List.length w `min` List.length w')%nat by lia.
  destruct (compare _ _); try done.
  rewrite Hl, Hl', !N2Nat.id. done.
Qed.

Lemma map_assign_keyed obj : ∀ l key w v,
  keyed h obj = Ok l → window h key = Ok w →
  ∃ obj', map_assign h obj key v = Ok obj'
          ∧ keyed h obj' = Ok (assign_bytes l w v).
Proof.
  induction obj as [|[k x] obj IH]; intros l key w v Hl Hw; simpl in *.
  - simplify_eq. eexists. split; [done|]. simpl. by rewrite Hw.
  - bind_inv Hl as wk Hwk. bind_inv Hl as l' Hl'. simplify_eq. simpl.
    rewrite (window_lt _ _ _ _ Hw Hwk). simpl.
    destruct (bytes_lt w wk).
    + eexists. split; [done|]. simpl. by rewrite Hw, Hwk, Hl'.
    + rewrite (window_lt _ _ _ _ Hwk Hw). simpl.
      destruct (bytes_lt wk w).
      * destruct (IH l' key w v Hl' Hw) as (obj' & -> & Hk). simpl.
        eexists. split; [done|]. simpl. by rewrite Hwk, Hk.
      * eexists. split; [done|]. simpl. by rewrite Hwk, Hl'.
Qed.

End keyed.

(** ** Duplicate keys *)

Section string_values.
Import cow_string json_reader.
Context (h : heap).

Lemma reads_cursor r text :
  reads h r text → pos r < size (src r) →
  ∃ pre c suf, text = pre ++ c :: suf ∧ cursor h r pre (c :: suf).
Proof.
  intros Hr Hp. pose proof Hr as (_ & _ & Hl & _). unfold size in Hp.
  rewrite Hl in Hp.
  destruct (lookup_lt_is_Some_2 text (N.to_nat (pos r))) as [c Hc]; [lia|].
  apply list_elem_of_split_length in Hc as (pre & suf & -> & Hlen).
  exists pre, c, suf. split; [done|]. split; [done|]. lia.
Qed.

Lemma parse_string_unterminated r pre suf :
  cursor h r pre ("034"%char :: suf) → "034"%char ∉ suf →
  parse_string h r
  = Throw (ExpectedQuote (N.of_nat (S (List.length pre))) (next_byte suf)).
Proof.
  intros Hc Hk. unfold parse_string.
  apply cursor_step in Hc. set (r1 := with_pos r _) in *.
  assert (pos r1 = N.of_nat (List.length (pre ++ ["034"%char]))) as Hp
    by apply Hc.
  rewrite Hp. pose proof Hc as [Hr _]. unfold reads in Hr.
  rewrite (holds_find_none h _ _ _ _ _ _ Hr Hk). cbn [mbind result_bind].
  rewrite N.eqb_refl. rewrite (cursor_next h _ _ _ Hc). simpl.
  rewrite length_app. simpl. do 2 f_equal. lia.
Qed.

Lemma parse_array_loop_Array pv n : ∀ r arr v r',
  parse_array_loop h pv n r arr = Ok (v, r') → ∃ a, v = Array a.
Proof.
  induction n as [|n IH]; intros r arr v r' H; simpl in H; [done|].
  bind_inv H as more Hm. destruct more; [|simplify_eq; eauto].
  bind_inv H as [value r1] Hv. bind_inv H as r2 Hr2. by eapply IH.
Qed.

Lemma parse_object_loop_Object pv n : ∀ r obj v r',
  parse_object_loop h pv n r obj = Ok (v, r') → ∃ o, v = Object o.
Proof.
  induction n as [|n IH]; intros r obj v r' H; simpl in H; [done|].
  bind_inv H as more Hm. destruct more; [|simplify_eq; eauto].
  bind_inv H as [[key value] r1] Hv. bind_inv H as obj1 Ho. by eapply IH.
Qed.

(** A string that [parse_value] returns has its bytes in the text. *)
Lemma parse_value_string_window fuel r text s r' :
  reads h r text → parse_value h fuel r = Ok (String s, r') →
  ∃ w, window h s = Ok w.
Proof.
  intros Hr H. destruct fuel as [|fuel]; simpl in H; [done|].
  bind_inv H as r1 Hskip.
  assert (reads h r1 text) as Hr1.
  { unfold reads. by rewrite (skip_whitespace_src h _ _ Hskip). }
  destruct (N.leb_spec (size (src r1)) (pos r1)) as [|Hlt]; [done|].
  bind_inv H as c Hc.
  destruct (reads_cursor r1 text Hr1 Hlt) as (pre & c' & suf & -> & Hcur).
  rewrite (cursor_cur h _ _ _ _ Hcur) in Hc. simplify_eq.
  unfold char_eqb in H.
  destruct (Ascii.eqb c "n"%char);
    [by apply parse_literal_src in H as [? _]|].
  destruct (Ascii.eqb c "t"%char);
    [by apply parse_literal_src in H as [? _]|].
  destruct (Ascii.eqb c "f"%char);
    [by apply parse_literal_src in H as [? _]|].
  destruct (Ascii.eqb_spec c "034"%char) as [->|_].
  - destruct (decide ("034"%char ∈ suf)) as [Hin|Hout].
    + apply list_elem_of_split_l in Hin as (k & suf' & -> & Hk).
      rewrite (parse_string_ok h r1 pre k suf' Hcur Hk) in H. simplify_eq.
      exists k. eapply holds_window. by apply parse_string_holds.
    + by rewrite (parse_string_unterminated r1 pre suf Hcur Hout) in H.
  - destruct (Ascii.eqb c "["%char).
    { unfold parse_array in H. bind_inv H as r2 Hr2.
      by apply parse_array_loop_Array in H as [? ?]. }
    destruct (Ascii.eqb c "{"%char).
    { unfold parse_object in H. bind_inv H as r2 Hr2.
      by apply parse_object_loop_Object in H as [? ?]. }
    by apply parse_number_src in H as [[[? ?]|[? ?]] _].
Qed.

End string_values.

Section last_write.
Import cow_string json_reader.
Context (h : heap) (text : list char) (fuel : nat).

Lemma parse_entry_key r key value r' :
  reads h r text →
  parse_entry h (parse_value h fuel) r = Ok (key, value, r') →
  reads h r' text ∧ ∃ w, window h key = Ok w.
Proof.
  intros Hr H. split.
  - apply (parse_entry_into h _ (parse_value_into h fuel)) in H as (_ & _ & Hs).
    unfold reads. by rewrite Hs.
  - unfold parse_entry in H. bind_inv H as [k r1] Hk.
    destruct k; try done. bind_inv H as colon Hcolon.
    destruct colon; [|by bind_inv H].
    bind_inv H as [v r2] Hv. bind_inv H as r3 Hr3. simplify_eq.
    by eapply parse_value_string_window.
Qed.

Lemma parse_object_loop_entries n : ∀ r obj l v r',
  reads h r text → keyed h obj = Ok l →
  parse_object_loop h (parse_value h fuel) n r obj = Ok (v, r') →
  ∃ obj' es,
    v = Object obj'
    ∧ keyed h (entries h (parse_value h fuel) n r) = Ok es
    ∧ keyed h obj' = Ok (assign_all l es).
Proof.
  induction n as [|n IH]; intros r obj l v r' Hr Hl H; simpl in H; [done|].
  bind_inv H as more Hm. simpl. rewrite Hm.
  destruct more; [|simplify_eq; by exists obj, []].
  bind_inv H as [[key value] r1] He. rewrite He.
  bind_inv H as obj1 Ho.
  destruct (parse_entry_key _ _ _ _ Hr He) as (Hr1 & w & Hw).
  destruct (map_assign_keyed h obj l key w value Hl Hw) as (obj1' & Ho' & Hl1).
  rewrite Ho in Ho'. simplify_eq.
  destruct (IH _ _ _ _ _ Hr1 Hl1 H) as (obj' & es & -> & Hes & Hl').
  exists obj', ((w, value) :: es). split_and!; [done| |done].
  simpl. by rewrite Hw, Hes.
Qed.

(** C6. Duplicate keys, last write wins.  When the loop of [parse_object]
    returns, the keys of the object go up strictly, so no key has two
    entries; and for every key [w], the object has an entry for [w] exactly
    when the text has one, with the value of the last of them. *)
Theorem last_write_wins n r v r' :
  reads h r text →
  parse_object_loop h (parse_value h fuel) n r [] = Ok (v, r') →
  ∃ obj l es,
    v = Object obj
    ∧ keyed h obj = Ok l
    ∧ keyed h (entries h (parse_value h fuel) n r) = Ok es
    ∧ ascending l.*1
    ∧ ∀ w, values_at w l
           = match last (values_at w es) with Some x => [x] | None => [] end.
Proof.
  intros Hr H.
  destruct (parse_object_loop_entries n r [] [] v r' Hr eq_refl H)
    as (obj & es & -> & Hes & Hl).
  exists obj, (assign_all [] es), es. split_and!; [done..| |].
  - by apply assign_all_ascending.
  - intros w. by rewrite assign_all_values.
Qed.

End last_write.

(** Sample 5: the loop reads the entries a = 1 and a = 2; the object has the
    one entry a = 2. *)
Lemma last_write_wins_witness :
  parsed sample5 = Ok (TObject [(str "a", TInteger 2)])
  ∧ ∃ obj l es,
      Object [({| cow_string.offset := 2; cow_string.length := 1;
                  cow_string.storage := 1%positive |}, Integer 2)] = Object obj
      ∧ keyed (text_heap sample5) obj = Ok l
      ∧ keyed (text_heap sample5)
          (entries (text_heap sample5)
             (json_reader.parse_value (text_heap sample5) 13) 13
             (json_reader.with_pos (text_reader sample5) 1)) = Ok es
      ∧ ascending l.*1
      ∧ ∀ w, values_at w l
             = match last (values_at w es) with Some x => [x] | None => [] end.
Proof.
  split; [vm_compute; reflexivity|].
  apply (last_write_wins (text_heap sample5) sample5 13 13
           (json_reader.with_pos (text_reader sample5) 1) _
           (json_reader.with_pos (text_reader sample5) 13)).
  - by apply text_reader_reads.
  - vm_compute. reflexivity.
Defined.

(** ** Decimal digits *)

Lemma digits_value_snoc ds d :
  digits_value (ds ++ [d]) = 10 * digits_value ds + digit_value d.
Proof. unfold digits_value. by rewrite foldl_app. Qed.

Lemma isdigit_digit d : d < 10 → isdigit (ascii_of_N (48 + d)) = true.
Proof.
  intros Hd. unfold isdigit. rewrite N_ascii_embedding by lia.
  apply andb_true_iff. split; apply N.leb_le; lia.
Qed.

Lemma digit_value_digit d : d < 10 → digit_value (ascii_of_N (48 + d)) = d.
Proof. intros Hd. unfold digit_value. rewrite N_ascii_embedding by lia. lia. Qed.

Lemma digits_of_spec fuel : ∀ n acc,
  n < 2 ^ N.of_nat fuel →
  ∃ ds, digits_of (S fuel) n acc = ds ++ acc
        ∧ Forall (λ c, isdigit c = true) ds ∧ ds ≠ []
        ∧ digits_value ds = n.
Proof.
  induction fuel as [|fuel IH]; intros n acc Hn.
  - assert (n = 0) as -> by (simpl in Hn; lia).
    exists ["0"%char]. split_and!; [done| |done|done].
    by constructor.
  - pose proof (N.mod_lt n 10) as Hmod.
    cbn [digits_of]. destruct (N.eqb_spec (n / 10) 0) as [Hz|Hnz].
    + exists [ascii_of_N (48 + n mod 10)]. split_and!; [done| |done|].
      * constructor; [|done]. apply isdigit_digit. lia.
      * unfold digits_value. simpl. rewrite digit_value_digit by lia.
        rewrite (N.div_mod n 10) at 2 by lia. lia.
    + destruct (IH (n / 10) (ascii_of_N (48 + n mod 10) :: acc))
        as (ds & Hds & Hdig & _ & Hval).
      { rewrite Nat2N.inj_succ, N.pow_succ_r' in Hn.
        apply N.Div0.div_lt_upper_bound. lia. }
      exists (ds ++ [ascii_of_N (48 + n mod 10)]). split_and!.
      * cbn [digits_of] in Hds. rewrite Hds. by rewrite <- app_assoc.
      * apply Forall_app. split; [done|]. constructor; [|done].
        apply isdigit_digit. lia.
      * by destruct ds.
      * rewrite digits_value_snoc, Hval, digit_value_digit by lia.
        rewrite (N.div_mod n 10) at 3 by lia. lia.
Qed.

Lemma decimal_spec n :
  Forall (λ c, isdigit c = true) (decimal n) ∧ decimal n ≠ []
  ∧ digits_value (decimal n) = n.
Proof.
  unfold decimal.
  destruct (digits_of_spec (N.to_nat (N.size n)) n []) as (ds & -> & ? & ? & ?).
  { rewrite N2Nat.id. apply N.size_gt. }
  by rewrite app_nil_r.
Qed.

Lemma span_digits_all ds :
  Forall (λ c, isdigit c = true) ds → span_digits ds = (ds, []).
Proof.
  induction ds as [|c ds IH]; [done|]. intros [Hc Hds]%Forall_cons.
  simpl. by rewrite Hc, IH.
Qed.

Lemma isdigit_number_char c : isdigit c = true → number_char c = true.
Proof. unfold number_char. by intros ->. Qed.

Lemma digits_no_point_or_e ds :
  Forall (λ c, isdigit c = true) ds → has_point_or_e ds = false.
Proof.
  intros Hds. unfold has_point_or_e. apply bool_decide_eq_false_2.
  intros [H|H]; eapply Forall_forall in H; try done; done.
Qed.

(** A non-negative [int64] that the writer has put converts back. *)
Lemma from_chars_int_decimal n v0 :
  (Z.of_N n ≤ INT64_MAX)%Z →
  from_chars_int (decimal n) v0
  = ({| consumed := List.length (decimal n); ec := errc_ok |}, Z.of_N n).
Proof.
  intros Hn. destruct (decimal_spec n) as (Hdig & Hne & Hval).
  unfold from_chars_int.
  destruct (decimal n) as [|c ds] eqn:E; [done|].
  assert (c ≠ "-"%char) as Hc.
  { intros ->. by apply Forall_cons in Hdig as [? _]. }
  assert (match c :: ds with
          | "-"%char :: rest => (true, rest)
          | _ => (false, c :: ds)
          end = (false, c :: ds)) as ->.
  { clear -Hc. by destruct c as [[] [] [] [] [] [] [] []]. }
  rewrite (span_digits_all _ Hdig). rewrite bool_decide_eq_false_2 by done.
  rewrite Hval. unfold INT64_MIN, INT64_MAX in *.
  destruct ((_ <=? _)%Z && (_ <=? _)%Z) eqn:Hr.
  - do 2 f_equal. lia.
  - apply andb_false_iff in Hr as [Hr|Hr]; apply Z.leb_gt in Hr; lia.
Qed.

(** ** The text of a tree *)

Lemma tree_ok_array a : tree_ok (TArray a) ↔ Forall tree_ok a.
Proof.
  simpl. induction a as [|x a IH]; simpl; [by split|].
  rewrite Forall_cons. tauto.
Qed.

Lemma tree_ok_object o :
  tree_ok (TObject o)
  ↔ Forall (λ e, ("034"%char ∉ e.1) ∧ tree_ok e.2) o ∧ ascending o.*1.
Proof.
  simpl. apply and_iff_compat_r.
  induction o as [|[k x] o IH]; simpl; [by split|].
  rewrite Forall_cons. simpl. tauto.
Qed.

(** Induction on trees, with the elements and the entries. *)
Lemma tree_induction (P : tree → Prop) :
  P TNull → (∀ b, P (TBool b)) → (∀ i, P (TInteger i)) →
  (∀ f, P (TFloat f)) →
  (∀ s, P (TString s)) →
  (∀ a, Forall P a → P (TArray a)) →
  (∀ o, Forall (λ e, P e.2) o → P (TObject o)) →
  ∀ t, P t.
Proof.
  intros HN HB HI HF HS HA HO.
  fix IH 1. intros [| | | | |a|o]; [done..| |].
  - apply HA. induction a as [|x a IHa]; constructor; [apply IH|done].
  - apply HO. induction o as [|[k x] o IHo]; constructor; [apply IH|done].
Qed.

Lemma number_char_starts c :
  number_char c = true →
  isspace c = false ∧ char_eqb c ","%char = false
  ∧ char_eqb c "]"%char = false ∧ char_eqb c "}"%char = false
  ∧ char_eqb c "n"%char = false ∧ char_eqb c "t"%char = false
  ∧ char_eqb c "f"%char = false ∧ char_eqb c "034"%char = false
  ∧ char_eqb c "["%char = false ∧ char_eqb c "{"%char = false.
Proof. destruct c as [[] [] [] [] [] [] [] []]; vm_compute; intros H; done. Qed.

Lemma starts_value_app a b : starts_value a → starts_value (a ++ b).
Proof. by destruct a. Qed.

Lemma render_starts t : tree_ok t → starts_value (render t).
Proof.
  destruct t as [|[]|i|f|s|a|o]; simpl; try done.
  - intros [Hi _]. unfold put_int.
    destruct (Z.ltb_spec i 0); [lia|].
    destruct (decimal_spec (Z.to_N i)) as (Hd & Hne & _).
    destruct (decimal (Z.to_N i)) as [|c ds]; [done|].
    apply Forall_cons in Hd as [Hc _]. apply isdigit_number_char in Hc.
    apply number_char_starts in Hc. simpl. tauto.
  - unfold float_ok. intros H.
    apply andb_true_iff in H as [H _]. apply andb_true_iff in H as [H _].
    apply andb_true_iff in H as [Hall Hpe].
    destruct (put_double f) as [|c ds]; [done|]. simpl in Hall.
    apply andb_true_iff in Hall as [Hc _].
    apply number_char_starts in Hc. simpl. tauto.
Qed.

(** ** Parsing the text of a tree *)

Section parse_back.
Import cow_string json_reader.
Context (h : heap).

Lemma with_pos_pos r : with_pos r (pos r) = r.
Proof. by destruct r. Qed.

Lemma parse_value_at_number fuel r pre c suf :
  cursor h r pre (c :: suf) → number_char c = true →
  parse_value h (S fuel) r = parse_number h r.
Proof.
  intros Hc Hd.
  destruct (number_char_starts c Hd)
    as (Hs & _ & _ & _ & H1 & H2 & H3 & H4 & H5 & H6).
  rewrite (parse_value_at h fuel r pre _ suf Hc Hs).
  by rewrite H1, H2, H3, H4, H5, H6.
Qed.

Lemma literal_back kw v t :
  render t = str kw → contents h v = Ok t →
  (∀ fuel r pre suf,
     cursor h r pre (str kw ++ suf) →
     parse_value h (S fuel) r
     = parse_literal h r (N.of_nat (String.length kw)) kw v) →
  parses_back h t.
Proof.
  intros Ht Hv Hd fuel r pre suf _ Hc _. rewrite Ht in *.
  exists v. split; [|done]. rewrite (Hd _ _ _ _ Hc).
  by apply (parse_literal_ok h r pre kw suf).
Qed.

Lemma null_back : parses_back h TNull.
Proof.
  apply (literal_back "null" Null); [done..|].
  intros fuel r pre suf Hc. by rewrite (parse_value_at h fuel r pre _ _ Hc).
Qed.

Lemma bool_back b : parses_back h (TBool b).
Proof.
  destruct b.
  - apply (literal_back "true" (Bool true)); [done..|].
    intros fuel r pre suf Hc. by rewrite (parse_value_at h fuel r pre _ _ Hc).
  - apply (literal_back "false" (Bool false)); [done..|].
    intros fuel r pre suf Hc. by rewrite (parse_value_at h fuel r pre _ _ Hc).
Qed.

Lemma number_back_aux fuel r pre run suf v :
  cursor h r pre (run ++ suf) →
  Forall (λ c, number_char c = true) run → run ≠ [] →
  number_char (next_byte suf) = false →
  convert r pre run suf
  = Ok (v, with_pos r (N.of_nat (List.length (pre ++ run)))) →
  parse_value h (S fuel) r
  = Ok (v, with_pos r (N.of_nat (List.length (pre ++ run)))).
Proof.
  intros Hc Hrun Hne Hsuf Hconv.
  destruct run as [|c run]; [done|].
  apply Forall_cons in Hrun as Hrun'. destruct Hrun' as [Hcn _].
  rewrite (parse_value_at_number fuel r pre c (run ++ suf) Hc Hcn).
  by rewrite (parse_number_run h r pre (c :: run) suf Hc Hrun Hsuf).
Qed.

Lemma integer_back i : tree_ok (TInteger i) → parses_back h (TInteger i).
Proof.
  intros [Hi0 Himax] fuel r pre suf _ Hc Hsuf. cbn [render] in *.
  unfold put_int in *. destruct (Z.ltb_spec i 0); [lia|].
  destruct (decimal_spec (Z.to_N i)) as (Hdig & Hne & Hval).
  exists (Integer i). split; [|done].
  apply (number_back_aux fuel r pre _ suf); [done| |done..|].
  { eapply Forall_impl; [done|]. apply isdigit_number_char. }
  unfold convert. rewrite (digits_no_point_or_e _ Hdig).
  rewrite from_chars_int_decimal by lia. simpl.
  by rewrite Z2N.id by lia.
Qed.

Lemma float_back f : tree_ok (TFloat f) → parses_back h (TFloat f).
Proof.
  intros Hf fuel r pre suf _ Hc Hsuf. cbn [render tree_ok] in *.
  unfold float_ok in Hf.
  apply andb_true_iff in Hf as [Hf Hval]. apply andb_true_iff in Hf as [Hf Hec].
  apply andb_true_iff in Hf as [Hall Hpe].
  apply bool_decide_eq_true in Hval, Hec.
  exists (Float f). split; [|done].
  apply (number_back_aux fuel r pre _ suf); [done| | |done|].
  { apply Forall_forall. intros c Hin.
    by eapply (proj1 (forallb_forall _ _) Hall), list_elem_of_In. }
  { intros E. by rewrite E in Hpe. }
  unfold convert. rewrite Hpe.
  destruct (from_chars_double _ _) as [res val]. simpl in *.
  rewrite bool_decide_eq_true_2 by done. by subst.
Qed.

Lemma string_back s : tree_ok (TString s) → parses_back h (TString s).
Proof.
  intros Hs fuel r pre suf _ Hc _. cbn [render tree_ok] in *.
  unfold quoted in *. rewrite <- app_comm_cons, <- app_assoc in Hc.
  cbn [app] in Hc.
  eexists. split.
  - rewrite (parse_value_at_quote h fuel r pre _ Hc).
    rewrite (parse_string_ok h r pre s suf Hc Hs).
    do 3 f_equal. rewrite length_app. simpl. rewrite length_app. simpl. lia.
  - simpl. by rewrite (holds_window h _ _ _ _ (parse_string_holds h r pre s suf Hc)).
Qed.

(** *** The elements of an array, the entries of an object *)

Lemma commas_cons_app x items closer suf :
  commas (x :: items) ++ closer :: suf = x ++ rest_of items closer suf.
Proof.
  destruct items as [|y items]; simpl; [done|].
  by rewrite <- app_assoc.
Qed.

Lemma commas_length x items :
  List.length (commas (x :: items))
  = (List.length x
     + match items with [] => 0 | _ => S (List.length (commas items)) end)%nat.
Proof.
  destruct items as [|y items]; simpl; [lia|].
  rewrite length_app. simpl. lia.
Qed.

Lemma rest_of_next items closer suf :
  number_char closer = false →
  number_char (next_byte (rest_of items closer suf)) = false.
Proof. by destruct items. Qed.

Lemma commas_starts items closer suf :
  Forall starts_value items → isspace closer = false →
  no_space_ahead (commas items ++ closer :: suf).
Proof.
  intros Hi Hc. destruct items as [|x items]; [done|].
  apply Forall_cons in Hi as [Hx _]. rewrite commas_cons_app.
  destruct x as [|c x]; [done|]. simpl. by destruct Hx.
Qed.

(** After an item: the comma goes, no whitespace follows. *)
Lemma after_element_rest r pre items closer suf :
  cursor h r pre (rest_of items closer suf) →
  Forall starts_value items → isspace closer = false →
  char_eqb closer ","%char = false →
  after_element h r
  = Ok (with_pos r (N.of_nat (List.length pre
                               + match items with [] => 0 | _ => 1 end)))
  ∧ cursor h (with_pos r (N.of_nat (List.length pre
                               + match items with [] => 0 | _ => 1 end)))
      (pre ++ match items with [] => [] | _ => [","%char] end)
      (commas items ++ closer :: suf).
Proof.
  intros Hc Hi Hs Hcomma. unfold after_element.
  destruct items as [|x items].
  - simpl in *. rewrite (cursor_at_char h r pre _ _ _ Hc). rewrite Hcomma.
    cbn [mbind result_bind].
    rewrite (skip_whitespace_stay h r pre _ Hc) by done.
    rewrite Nat.add_0_r, app_nil_r.
    destruct Hc as [Hr Hp] eqn:E. rewrite <- Hp, with_pos_pos. done.
  - unfold rest_of in Hc.
    rewrite (cursor_at_char h r pre _ _ _ Hc). cbn [mbind result_bind].
    change (char_eqb ","%char ","%char) with true. cbn match.
    apply cursor_step in Hc as Hc1.
    rewrite (skip_whitespace_stay h _ _ _ Hc1)
      by by apply commas_starts.
    pose proof (cursor_bound h _ _ _ Hc) as Hn. simpl in Hn.
    destruct Hc as [_ Hp]. rewrite Hp in *.
    replace (size_add (N.of_nat (List.length pre)) 1)
      with (N.of_nat (List.length pre + 1)) in *; [done|].
    size_simpl. lia.
Qed.

(** *** Arrays *)

Lemma sequence_snoc {A} (rs : list (result A)) (r : result A) xs x :
  sequence rs = Ok xs → r = Ok x → sequence (rs ++ [r]) = Ok (xs ++ [x]).
Proof.
  revert xs. induction rs as [|r0 rs IH]; intros xs Hrs ->; simpl in *.
  - by simplify_eq.
  - bind_inv Hrs as a Ha. bind_inv Hrs as as_ Has. simplify_eq.
    rewrite (IH as_ Has eq_refl). done.
Qed.

Lemma array_loop_back fuel suf a :
  Forall (λ x, tree_ok x → parses_back h x) a → Forall tree_ok a →
  Forall (λ x, (List.length (render x) < fuel)%nat) a →
  ∀ n acc ts r pre,
    (List.length a < n)%nat →
    cursor h r pre (commas (map render a) ++ "]"%char :: suf) →
    sequence (map (contents h) acc) = Ok ts →
    ∃ vs,
      parse_array_loop h (parse_value h fuel) n r acc
      = Ok (Array (acc ++ vs),
            with_pos r (N.of_nat (List.length
                          (pre ++ commas (map render a) ++ ["]"%char]))))
      ∧ sequence (map (contents h) (acc ++ vs)) = Ok (ts ++ a).
Proof.
  induction a as [|x a IH]; intros Hback Hok Hfuel n acc ts r pre Hn Hc Hacc.
  - destruct n as [|n]; [simpl in Hn; lia|]. exists []. simpl in *.
    rewrite (cursor_before_char h r pre _ _ _ Hc).
    change (negb (char_eqb "]"%char "]"%char)) with false.
    cbn [mbind result_bind]. rewrite !app_nil_r. split; [|done].
    pose proof (cursor_bound h _ _ _ Hc) as Hb. simpl in Hb.
    destruct Hc as [_ ->]. size_simpl. rewrite length_app. simpl.
    do 3 f_equal. lia.
  - destruct n as [|n]; [simpl in Hn; lia|].
    apply Forall_cons in Hback as [Hx Hback].
    apply Forall_cons in Hok as [Hokx Hok].
    apply Forall_cons in Hfuel as [Hfx Hfuel].
    cbn [map] in Hc. rewrite commas_cons_app in Hc.
    pose proof (render_starts x Hokx) as Hstart.
    cbn [parse_array_loop].
    destruct (render x) as [|c rx] eqn:Erx; [done|].
    rewrite (cursor_before_char h r pre c _ _ Hc).
    destruct Hstart as (_ & _ & Hcb & _). rewrite Hcb.
    cbn [negb mbind result_bind].
    destruct fuel as [|fuel]; [lia|].
    rewrite <- Erx in *.
    destruct (Hx Hokx fuel r pre (rest_of (map render a) "]"%char suf))
      as (v & Hv & Hcv); [lia|done|by apply rest_of_next|].
    rewrite Hv. cbn [mbind result_bind].
    assert (Forall starts_value (map render a)) as Hstarts.
    { apply Forall_map. eapply Forall_impl; [exact Hok|]. apply render_starts. }
    destruct (after_element_rest
                (with_pos r (N.of_nat (List.length (pre ++ render x))))
                (pre ++ render x) (map render a) "]"%char suf)
      as [Hafter Hc2]; [|done..|].
    { apply cursor_with_pos; [done|done]. }
    rewrite Hafter. cbn [mbind result_bind].
    rewrite with_pos_with_pos in *.
    destruct (IH Hback Hok Hfuel n (acc ++ [v]) (ts ++ [x]) _ _
                ltac:(simpl in Hn; lia) Hc2) as (vs & Hloop & Hseq).
    { rewrite map_app. by apply sequence_snoc. }
    exists (v :: vs). rewrite Hloop. rewrite with_pos_with_pos.
    rewrite <- !app_assoc in Hseq. split; [|done].
    rewrite <- (app_assoc acc [v] vs). do 4 f_equal. cbn [map].
    destruct (map render a); cbn [commas];
      rewrite <- ?app_assoc, ?app_nil_r; done.
Qed.

(** *** Objects *)

Lemma entry_contents_keyed obj : ∀ ts,
  sequence (map (entry_contents h) obj) = Ok ts →
  ∃ l, keyed h obj = Ok l ∧ l.*1 = ts.*1.
Proof.
  induction obj as [|[k x] obj IH]; intros ts H; simpl in H.
  - simplify_eq. by exists [].
  - bind_inv H as e He. bind_inv H as es Hes. simplify_eq.
    bind_inv He as w Hw. bind_inv He as t Ht. simplify_eq.
    destruct (IH es Hes) as (l & Hl & Hk).
    exists ((w, x) :: l). split.
    + simpl. by rewrite Hw, Hl.
    + rewrite !fmap_cons. by f_equal.
Qed.

Lemma map_assign_append obj : ∀ l key w v,
  keyed h obj = Ok l → window h key = Ok w →
  Forall (λ k, bytes_lt k w = true) l.*1 →
  map_assign h obj key v = Ok (obj ++ [(key, v)]).
Proof.
  induction obj as [|[k x] obj IH]; intros l key w v Hl Hw Hlt; simpl in *.
  - done.
  - bind_inv Hl as wk Hwk. bind_inv Hl as l' Hl'. simplify_eq.
    apply Forall_cons in Hlt as [Hk Hlt]. simpl in Hk.
    rewrite (window_lt h _ _ _ _ Hw Hwk), (bytes_lt_asym _ _ Hk).
    cbn [mbind result_bind].
    rewrite (window_lt h _ _ _ _ Hwk Hw), Hk. cbn [mbind result_bind].
    by rewrite (IH l' key w v Hl' Hw Hlt).
Qed.

Lemma ascending_app ks k ks' :
  ascending (ks ++ k :: ks') → Forall (λ k', bytes_lt k' k = true) ks.
Proof.
  induction ks as [|k0 ks IH]; simpl; [done|]. intros [Hk0 Hks].
  constructor; [|by apply IH].
  eapply Forall_forall in Hk0; [done|]. apply elem_of_app. right. left.
Qed.

Lemma object_loop_back fuel suf o :
  Forall (λ e, tree_ok e.2 → parses_back h e.2) o →
  Forall (λ e, ("034"%char ∉ e.1) ∧ tree_ok e.2) o →
  Forall (λ e, (List.length (entry_text e) < fuel)%nat) o →
  ∀ n obj ts r pre,
    (List.length o < n)%nat →
    cursor h r pre (commas (map entry_text o) ++ "}"%char :: suf) →
    sequence (map (entry_contents h) obj) = Ok ts →
    ascending (ts ++ o).*1 →
    ∃ es,
      parse_object_loop h (parse_value h fuel) n r obj
      = Ok (Object (obj ++ es),
            with_pos r (N.of_nat (List.length
                          (pre ++ commas (map entry_text o) ++ ["}"%char]))))
      ∧ sequence (map (entry_contents h) (obj ++ es)) = Ok (ts ++ o).
Proof.
  induction o as [|[k x] o IH];
    intros Hback Hok Hfuel n obj ts r pre Hn Hc Hobj Hasc.
  - destruct n as [|n]; [simpl in Hn; lia|]. exists []. simpl in *.
    rewrite (cursor_before_char h r pre _ _ _ Hc).
    change (negb (char_eqb "}"%char "}"%char)) with false.
    cbn [mbind result_bind]. rewrite !app_nil_r. split; [|done].
    pose proof (cursor_bound h _ _ _ Hc) as Hb. simpl in Hb.
    destruct Hc as [_ ->]. size_simpl. rewrite length_app. simpl.
    do 3 f_equal. lia.
  - destruct n as [|n]; [simpl in Hn; lia|].
    apply Forall_cons in Hback as [Hx Hback].
    apply Forall_cons in Hok as [[Hk Hokx] Hok].
    apply Forall_cons in Hfuel as [Hfx Hfuel].
    cbn [fst snd] in *.
    cbn [map] in Hc. rewrite commas_cons_app in Hc.
    set (rest := rest_of (map entry_text o) "}"%char suf) in *.
    assert (entry_text (k, x) ++ rest
            = "034"%char :: k ++ "034"%char :: ":"%char :: render x ++ rest)
      as Heq.
    { unfold entry_text, quoted. simpl. by rewrite <- !app_assoc. }
    rewrite Heq in Hc. cbn [entry_text] in Hfx. unfold quoted in Hfx.
    cbn [parse_object_loop].
    rewrite (cursor_before_char h r pre _ _ _ Hc).
    change (negb (char_eqb "034"%char "}"%char)) with true.
    cbn [mbind result_bind].
    destruct fuel as [|fuel]; [lia|].
    (* the key *)
    unfold parse_entry.
    rewrite (parse_value_at_quote h fuel r pre _ Hc).
    rewrite (parse_string_ok h r pre k _ Hc Hk). cbn [mbind result_bind].
    pose proof (holds_window h _ _ _ _ (parse_string_holds h r pre k _ Hc)) as Hw.
    set (key := substr (src r) _ _) in *.
    assert (cursor h (with_pos r (N.of_nat (List.length pre + List.length k + 2)))
              (pre ++ quoted k) (":"%char :: render x ++ rest)) as Hc1.
    { unfold quoted.
      apply (cursor_with_pos h r pre ("034"%char :: k ++ ["034"%char])).
      - rewrite <- app_comm_cons, <- app_assoc. done.
      - rewrite length_app. simpl. rewrite length_app. simpl. lia. }
    rewrite (cursor_at_char h _ _ _ _ _ Hc1).
    change (char_eqb ":"%char ":"%char) with true. cbn [mbind result_bind].
    apply cursor_step in Hc1 as Hc2. rewrite with_pos_with_pos in *.
    (* the value *)
    rewrite length_app in Hfx. simpl in Hfx. rewrite length_app in Hfx.
    simpl in Hfx.
    destruct (Hx Hokx fuel _ _ rest ltac:(lia) Hc2) as (v & Hv & Hcv).
    { by apply rest_of_next. }
    rewrite Hv. cbn [mbind result_bind]. rewrite with_pos_with_pos.
    assert (Forall starts_value (map entry_text o)) as Hstarts.
    { apply Forall_map. apply Forall_forall. by intros [k' x'] _. }
    match goal with |- context [after_element h (with_pos r ?p)] =>
      destruct (after_element_rest (with_pos r p)
                  (((pre ++ quoted k) ++ [":"%char]) ++ render x)
                  (map entry_text o) "}"%char suf) as [Hafter Hc3];
        [|done..|] end.
    { by apply (cursor_with_pos h _ _ (render x) rest _ Hc2). }
    rewrite Hafter. cbn [mbind result_bind]. rewrite with_pos_with_pos in *.
    (* the assignment *)
    destruct (entry_contents_keyed obj ts Hobj) as (l & Hl & Hkeys).
    rewrite (map_assign_append obj l key k v Hl Hw).
    2:{ rewrite Hkeys. rewrite fmap_app in Hasc. simpl in Hasc.
        by eapply ascending_app. }
    cbn [mbind result_bind].
    destruct (IH Hback Hok Hfuel n (obj ++ [(key, v)]) (ts ++ [(k, x)]) _ _
                ltac:(simpl in Hn; lia) Hc3) as (es & Hloop & Hseq).
    { rewrite map_app. apply sequence_snoc; [done|].
      simpl. by rewrite Hw, Hcv. }
    { by rewrite <- app_assoc. }
    exists ((key, v) :: es). rewrite Hloop. rewrite with_pos_with_pos.
    rewrite <- !app_assoc in Hseq. split; [|done].
    rewrite <- (app_assoc obj [(key, v)] es). do 4 f_equal. cbn [map].
    unfold quoted.
    destruct (map entry_text o); cbn [commas entry_text]; unfold quoted;
      rewrite <- ?app_assoc, ?app_nil_r; simpl; rewrite <- ?app_assoc; done.
Qed.

(** *** Every tree *)

Lemma tree_back t : tree_ok t → parses_back h t.
Proof.
  induction t as [|b|i|f|s|a IH|o IH] using tree_induction; intros Hok.
  - apply null_back.
  - apply bool_back.
  - by apply integer_back.
  - by apply float_back.
  - by apply string_back.
  - apply tree_ok_array in Hok.
    intros fuel r pre suf Hfuel Hc Hsuf. cbn [render] in *.
    rewrite <- app_comm_cons, <- app_assoc in Hc. cbn [app] in Hc.
    rewrite (parse_value_at_bracket h fuel r pre _ Hc).
    unfold parse_array. apply cursor_step in Hc as Hc1.
    assert (Forall starts_value (map render a)) as Hstarts.
    { apply Forall_map. eapply Forall_impl; [exact Hok|]. apply render_starts. }
    rewrite (skip_whitespace_stay h _ _ _ Hc1) by by apply commas_starts.
    cbn [mbind result_bind].
    destruct (array_loop_back fuel suf a IH Hok) with
      (n := fuel) (acc := @nil Value) (ts := @nil tree)
      (r := with_pos r (size_add (pos r) 1)) (pre := pre ++ ["["%char])
      as (vs & Hloop & Hseq); [| |done|done|].
    + simpl in Hfuel. rewrite length_app in Hfuel. simpl in Hfuel.
      clear -Hfuel. apply Forall_forall. intros x Hx.
      apply list_elem_of_split in Hx as (a1 & a2 & ->).
      rewrite map_app in Hfuel. cbn [map] in Hfuel.
      assert (∀ l1 y l2, List.length y ≤ List.length (commas (l1 ++ y :: l2)))%nat
        as Hle.
      { clear. induction l1 as [|z l1 IHl]; intros y l2.
        - cbn [app]. rewrite commas_length. lia.
        - rewrite <- app_comm_cons, commas_length.
          specialize (IHl y l2). destruct (l1 ++ y :: l2) eqn:E; [by destruct l1|].
          lia. }
      specialize (Hle (map render a1) (render x) (map render a2)). lia.
    + simpl in Hfuel. rewrite length_app in Hfuel. simpl in Hfuel.
      clear -Hfuel.
      assert (∀ l : list tree, List.length l ≤ S (List.length (commas (map render l))))%nat
        as Hle.
      { clear. induction l as [|z l IHl]; [simpl; lia|].
        cbn [map]. rewrite commas_length. simpl.
        destruct (map render l) eqn:E; [destruct l; [simpl; lia|done]|]. lia. }
      specialize (Hle a). lia.
    + exists (Array vs). rewrite Hloop. rewrite with_pos_with_pos. split.
      * do 3 f_equal. rewrite <- !app_assoc. done.
      * cbn [contents]. simpl in Hseq. by rewrite Hseq.
  - apply tree_ok_object in Hok as [Hok Hasc].
    intros fuel r pre suf Hfuel Hc Hsuf. cbn [render] in *.
    change (map (λ '(k, x), quoted k ++ ":"%char :: render x) o)
      with (map entry_text o) in *.
    rewrite <- app_comm_cons, <- app_assoc in Hc. cbn [app] in Hc.
    rewrite (parse_value_at_brace h fuel r pre _ Hc).
    unfold parse_object. apply cursor_step in Hc as Hc1.
    assert (Forall starts_value (map entry_text o)) as Hstarts.
    { apply Forall_map. apply Forall_forall. by intros [k' x'] _. }
    rewrite (skip_whitespace_stay h _ _ _ Hc1) by by apply commas_starts.
    cbn [mbind result_bind].
    destruct (object_loop_back fuel suf o IH Hok) with
      (n := fuel) (obj := @nil (cow_string * Value))
      (ts := @nil (list char * tree))
      (r := with_pos r (size_add (pos r) 1)) (pre := pre ++ ["{"%char])
      as (es & Hloop & Hseq); [| |done|done|done|].
    + simpl in Hfuel. rewrite length_app in Hfuel. simpl in Hfuel.
      clear -Hfuel. apply Forall_forall. intros x Hx.
      apply list_elem_of_split in Hx as (a1 & a2 & ->).
      rewrite map_app in Hfuel. cbn [map] in Hfuel.
      assert (∀ l1 y l2, List.length y ≤ List.length (commas (l1 ++ y :: l2)))%nat
        as Hle.
      { clear. induction l1 as [|z l1 IHl]; intros y l2.
        - cbn [app]. rewrite commas_length. lia.
        - rewrite <- app_comm_cons, commas_length.
          specialize (IHl y l2). destruct (l1 ++ y :: l2) eqn:E; [by destruct l1|].
          lia. }
      specialize (Hle (map entry_text a1) (entry_text x) (map entry_text a2)). lia.
    + simpl in Hfuel. rewrite length_app in Hfuel. simpl in Hfuel.
      clear -Hfuel.
      assert (∀ l : list (list char * tree),
                List.length l ≤ S (List.length (commas (map entry_text l))))%nat
        as Hle.
      { clear. induction l as [|z l IHl]; [simpl; lia|].
        cbn [map]. rewrite commas_length. simpl.
        destruct (map entry_text l) eqn:E; [destruct l; [simpl; lia|done]|]. lia. }
      specialize (Hle o). lia.
    + exists (Object es). rewrite Hloop. rewrite with_pos_with_pos. split.
      * do 3 f_equal. rewrite <- !app_assoc. done.
      * cbn [contents]. simpl in Hseq.
        change (map (λ '(k, x), window h k ≫= λ w, contents h x ≫= λ t, Ok (w, t)) es)
          with (map (entry_contents h) es).
        by rewrite Hseq.
Qed.

End parse_back.

(** ** Writing a tree *)

(** Induction on values, with the elements and the entries. *)
Lemma Value_induction (P : Value → Prop) :
  P Null → (∀ b, P (Bool b)) → (∀ i, P (Integer i)) → (∀ f, P (Float f)) →
  (∀ s, P (String s)) →
  (∀ a, Forall P a → P (Array a)) →
  (∀ o, Forall (λ e, P e.2) o → P (Object o)) →
  ∀ v, P v.
Proof.
  intros HN HB HI HF HS HA HO.
  fix IH 1. intros [| | | | |a|o]; [done..| |].
  - apply HA. induction a as [|x a IHa]; constructor; [apply IH|done].
  - apply HO. induction o as [|[k x] o IHo]; constructor; [apply IH|done].
Qed.

Section write_facts.
Import cow_string json_writer.
Context (h : heap).

Lemma until_nul_app w rest : NUL ∉ w → until_nul (w ++ NUL :: rest) = Ok w.
Proof.
  induction w as [|c w IH]; intros Hw; simpl; [done|].
  apply not_elem_of_cons in Hw as [Hc Hw].
  unfold char_eqb. destruct (Ascii.eqb_spec c NUL) as [->|_]; [done|].
  by rewrite IH.
Qed.

(** [c_str] gives the bytes of the view. *)
Lemma c_str_bytes s a w b :
  holds h s a w b → b ≠ [] → NUL ∉ w →
  ∃ h' s', c_str h s = Ok (h', s', w).
Proof.
  intros Hs Hb Hw. pose proof Hs as (Hblk & Ho & Hl & Hn).
  destruct b as [|c b]; [done|].
  rewrite !length_app in Hn. simpl in Hn.
  assert (∃ h' s', copy h s ≫= (λ '(h, s),
            c_string h (storage s) (offset s) ≫= λ cs, Ok (h, s, cs))
          = Ok (h', s', w)) as Hcopy.
  { unfold copy. rewrite Hl. size_simpl.
    destruct (N.leb_spec (N.of_nat (List.length w) + 1) (N.of_nat (List.length w)));
      [lia|].
    rewrite (holds_window h _ _ _ _ Hs). cbn [mbind result_bind].
    unfold c_string. cbn [storage offset]. rewrite lookup_insert_eq.
    change (drop (N.to_nat 0) (w ++ [NUL])) with (w ++ [NUL]).
    rewrite until_nul_app by done. simpl. eauto. }
  unfold c_str. destruct (N.eqb_spec (offset s) 0) as [Hz|Hnz]; [|done].
  rewrite Hz in Ho. destruct a as [|? a]; [|simpl in Ho; lia].
  rewrite Hz, Hl. size_simpl. rewrite N.add_0_l. simpl in Hblk.
  erewrite load_block; [|done|by apply list_lookup_middle].
  cbn [mbind result_bind]. unfold char_eqb.
  destruct (Ascii.eqb_spec c NUL) as [->|_]; [|done].
  unfold c_string. rewrite Hblk.
  change (drop (N.to_nat 0) (w ++ NUL :: b)) with (w ++ NUL :: b).
  rewrite until_nul_app by done. simpl. eauto.
Qed.

Lemma separated_commas items : ∀ texts,
  Forall2 (λ r x, r = Ok x) items texts → separated items = Ok (commas texts).
Proof.
  induction items as [|r items IH]; intros texts H.
  - by apply Forall2_nil_inv_l in H as ->.
  - apply Forall2_cons_inv_l in H as (x & texts' & -> & H & ->).
    specialize (IH _ H). destruct items as [|r' items].
    + by apply Forall2_nil_inv_l in H as ->.
    + apply Forall2_cons_inv_l in H as (x' & texts'' & -> & H & ->).
      cbn [separated commas] in *. rewrite IH. done.
Qed.

(** The writer puts the text of what the value says. *)
Lemma write_render v : ∀ t,
  contents h v = Ok t → writable h v → write h v = Ok (render t).
Proof.
  induction v as [|b|i|f|s|a IH|o IH] using Value_induction;
    intros t Ht Hw; cbn [contents] in Ht.
  - by simplify_eq.
  - by simplify_eq.
  - by simplify_eq.
  - by simplify_eq.
  - bind_inv Ht as w Hwin. simplify_eq.
    destruct Hw as (a & w' & b & Hs & Hb & Hnul).
    rewrite (holds_window h _ _ _ _ Hs) in Hwin. simplify_eq.
    destruct (c_str_bytes s a w b Hs Hb Hnul) as (h' & s' & Hc).
    cbn [write]. rewrite Hc. done.
  - bind_inv Ht as ts Hts. simplify_eq. cbn [write render].
    rewrite (separated_commas _ (map render ts)); [done|].
    clear -IH Hts Hw. revert ts Hts.
    induction a as [|x a IHa]; intros ts Hts; simpl in Hts.
    + simplify_eq. constructor.
    + bind_inv Hts as t Ht. bind_inv Hts as ts' Hts'. simplify_eq.
      apply Forall_cons in IH as [IHx IH]. destruct Hw as [Hwx Hw].
      constructor; [by apply IHx|by apply IHa].
  - bind_inv Ht as es Hes. simplify_eq. cbn [write render].
    rewrite (separated_commas _
               (map (λ '(k, x), quoted k ++ ":"%char :: render x) es)); [done|].
    clear -IH Hes Hw. revert es Hes.
    induction o as [|[k x] o IHo]; intros es Hes; simpl in Hes.
    + simplify_eq. constructor.
    + bind_inv Hes as e He. bind_inv Hes as es' Hes'. simplify_eq.
      bind_inv He as w Hwin. bind_inv He as t Ht. simplify_eq.
      apply Forall_cons in IH as [IHx IH]. destruct Hw as [Hwx Hw].
      cbn [snd] in IHx.
      constructor; [|by apply IHo].
      rewrite Hwin. cbn [mbind result_bind].
      rewrite (IHx t Ht Hwx). cbn [mbind result_bind]. unfold quoted.
      rewrite <- app_comm_cons, <- app_assoc. done.
Qed.

End write_facts.

(** ** Round trip *)

(** C2, as amended.  Let the value [v] say the tree [t], with integers that
    are not negative, floats whose six-digit text has a point or an
    exponent letter and converts back, strings and keys without a double
    quote, and string values without a NUL byte.  Then the writer puts a
    text, and parsing that text gives a value that says [t] again: the same
    scalars, the same nesting, the entries of every object in the order of
    their keys. *)
Theorem round_trip h v t :
  contents h v = Ok t → tree_ok t → writable h v →
  ∃ text,
    json_writer.write h v = Ok text
    ∧ (N.of_nat (List.length text) < npos → parsed text = Ok t).
Proof.
  intros Ht Hok Hw. exists (render t). split; [by apply write_render|].
  intros Hlen. unfold parsed, parse_text, json_reader.parse.
  set (h' := text_heap (render t)). set (r := text_reader (render t)).
  change {| json_reader.src := json_reader.src r; json_reader.pos := 0;
            json_reader.row := 1; json_reader.column := 0 |} with r.
  pose proof (text_reader_cursor (render t) Hlen) as Hc. fold h' r in Hc.
  unfold json_reader.fuel_of. rewrite (cursor_size _ _ _ _ Hc).
  rewrite Nat2N.id. cbn [List.length Nat.add].
  rewrite <- (app_nil_r (render t)) in Hc.
  destruct (tree_back h' t Hok (List.length (render t)) r [] []
              ltac:(lia) Hc eq_refl) as (v' & Hv' & Hcv').
  rewrite Hv'. cbn [mbind result_bind]. done.
Qed.

Lemma sample_text_parses : parse_text sample_text = Ok sample_value.
Proof. vm_compute. reflexivity. Qed.

Lemma round_trip_witness :
  ∃ text,
    json_writer.write (text_heap sample_text) sample_value = Ok text
    ∧ (N.of_nat (List.length text) < npos → parsed text = Ok sample_tree).
Proof.
  apply (round_trip (text_heap sample_text) sample_value sample_tree).
  - vm_compute. reflexivity.
  - cbn. split_and!; try done.
    + apply not_elem_of_cons. split; [done|apply not_elem_of_nil].
    + apply not_elem_of_cons. split; [done|apply not_elem_of_nil].
    + apply not_elem_of_cons. split; [done|apply not_elem_of_nil].
    + by repeat constructor.
  - cbn [writable sample_value foldr].
    split; [|exact (conj I (conj I (conj (conj I (conj I I)) I)))].
    exists (lit "['"), (str "x"), (lit "',1,2.5,{'k':null,'m':true}]" ++ [NUL]).
    unfold holds. split_and!.
    + vm_compute. reflexivity.
    + reflexivity.
    + reflexivity.
    + vm_compute. discriminate.
    + done.
    + apply not_elem_of_cons. split; [done|apply not_elem_of_nil].
Defined.

(** C2 as stated fails.  A negative integer is written with its sign and is
    not read back; a float is written with six digits, with an exponent
    sign that ends the token, or without a point, and comes back as another
    float or as an integer; a string with a double quote comes back cut. *)
Lemma round_trip_fails :
  (json_writer.write ∅ (Integer (-1)) = Ok (str "-1")
   ∧ parse_text (str "-1") = Throw (InvalidToken "-"%char 1 0))
  ∧ (json_writer.write ∅ (Float (binary_normalize prec emax (10 ^ 10) 0 false))
     = Ok (str "1e+10")
     ∧ parse_text (str "1e+10") = Ok (Float (binary_normalize prec emax 1 0 false)))
  ∧ (json_writer.write ∅ (Float (binary_normalize prec emax 2 0 false))
     = Ok (str "2")
     ∧ parse_text (str "2") = Ok (Integer 2))
  ∧ (∃ f f', parse_text (str "0.1234567") = Ok (Float f)
             ∧ json_writer.write ∅ (Float f) = Ok (str "0.123457")
             ∧ parse_text (str "0.123457") = Ok (Float f') ∧ f' ≠ f)
  ∧ (let '(h, s) := cow_string.ctor ∅ (lit "a'b") in
     json_writer.write h (String s) = Ok (lit "'a'b'")
     ∧ contents h (String s) = Ok (TString (lit "a'b"))
     ∧ parsed (lit "'a'b'") = Ok (TString (str "a"))).
Proof.
  split_and!; try (vm_compute; reflexivity).
  - eexists _, _. split_and!; try (vm_compute; reflexivity).
    vm_compute. discriminate.
  - vm_compute. split_and!; reflexivity.
Qed.

(** ** End of input *)

Section end_of_input.
Import cow_string json_reader.
Context (h : heap).

Lemma before_char_end r c :
  size (src r) ≤ pos r → before_char h r c = Ok false.
Proof.
  intros H. unfold before_char.
  by destruct (N.ltb_spec (pos r) (size (src r))); [lia|].
Qed.

Lemma at_char_end r c : size (src r) ≤ pos r → at_char h r c = Ok false.
Proof.
  intros H. unfold at_char.
  by destruct (N.ltb_spec (pos r) (size (src r))); [lia|].
Qed.

Lemma skip_whitespace_end r : size (src r) ≤ pos r → skip_whitespace h r = Ok r.
Proof.
  intros H. unfold skip_whitespace.
  by replace (N.to_nat (size (src r) - pos r)) with 0%nat by lia.
Qed.

Lemma after_element_end r : size (src r) ≤ pos r → after_element h r = Ok r.
Proof.
  intros H. unfold after_element. rewrite at_char_end by done.
  cbn [mbind result_bind]. by apply skip_whitespace_end.
Qed.

(** When the input is used up where the loop of [parse_array] or
    [parse_object] looks for the closing byte, the loop returns the
    container that it has built: at the start of a turn, and after an
    element or an entry that ends the input. *)
Lemma loops_close_at_end pv n r :
  (size (src r) ≤ pos r →
   (∀ arr, parse_array_loop h pv (S n) r arr
           = Ok (Array arr, with_pos r (size_add (pos r) 1)))
   ∧ (∀ obj, parse_object_loop h pv (S n) r obj
             = Ok (Object obj, with_pos r (size_add (pos r) 1))))
  ∧ (∀ arr value r1,
       before_char h r "]"%char = Ok true →
       pv r = Ok (value, r1) → size (src r1) ≤ pos r1 →
       parse_array_loop h pv (S (S n)) r arr
       = Ok (Array (arr ++ [value]), with_pos r1 (size_add (pos r1) 1)))
  ∧ (∀ obj key value r1 obj1,
       before_char h r "}"%char = Ok true →
       parse_entry h pv r = Ok (key, value, r1) → size (src r1) ≤ pos r1 →
       map_assign h obj key value = Ok obj1 →
       parse_object_loop h pv (S (S n)) r obj
       = Ok (Object obj1, with_pos r1 (size_add (pos r1) 1))).
Proof.
  split_and!.
  - intros Hend. split; intros acc; cbn [parse_array_loop parse_object_loop];
      by rewrite before_char_end.
  - intros arr value r1 Hmore Hv Hend.
    cbn [parse_array_loop]. rewrite Hmore. cbn [mbind result_bind].
    rewrite Hv. cbn [mbind result_bind].
    rewrite after_element_end by done. cbn [mbind result_bind].
    by rewrite before_char_end.
  - intros obj key value r1 obj1 Hmore He Hend Hassign.
    cbn [parse_object_loop]. rewrite Hmore. cbn [mbind result_bind].
    rewrite He. cbn [mbind result_bind]. rewrite Hassign.
    cbn [mbind result_bind]. by rewrite before_char_end.
Qed.

End end_of_input.

(** ** The recursion bound is enough *)

Lemma runs_bind {A B} (m : result A) (f : A → result B) :
  runs m → (∀ a, m = Ok a → runs (f a)) → runs (m ≫= f).
Proof. destruct m; simpl; intros Hm Hf; [by apply Hf|done..]. Qed.

Section running.
Import cow_string json_reader.
Context (h : heap).

Lemma load_runs p i : runs (load h p i).
Proof. unfold load. by repeat case_match. Qed.

Lemma load_range_runs p n : ∀ i, runs (load_range h p i n).
Proof.
  induction n as [|n IH]; intros i; simpl; [done|].
  apply runs_bind; [apply load_runs|]. intros c _.
  apply runs_bind; [apply IH|]. done.
Qed.

Lemma at_runs s i : runs (at_ h s i).
Proof. apply load_runs. Qed.

Lemma window_runs s : runs (window h s).
Proof. apply load_range_runs. Qed.

Lemma find_from_runs s c n : ∀ i, runs (find_from h s c n i).
Proof.
  induction n as [|n IH]; intros i; simpl; [done|].
  apply runs_bind; [apply at_runs|]. intros x _.
  destruct (char_eqb x c); [done|apply IH].
Qed.

Lemma lt_runs s s' : runs (lt h s s').
Proof.
  unfold lt. apply runs_bind; [apply load_range_runs|]. intros pa _.
  apply runs_bind; [apply load_range_runs|]. intros pb _.
  by destruct (compare pa pb).
Qed.

Lemma map_assign_runs obj key v : runs (map_assign h obj key v).
Proof.
  induction obj as [|[k x] obj IH]; simpl; [done|].
  apply runs_bind; [apply lt_runs|]. intros [] _; [done|].
  apply runs_bind; [apply lt_runs|]. intros [] _; [|done].
  by apply runs_bind.
Qed.

Lemma cur_runs r : runs (cur h r).
Proof. apply at_runs. Qed.

Lemma at_char_runs r c : runs (at_char h r c).
Proof.
  unfold at_char. destruct (_ <? _); [|done].
  apply runs_bind; [apply cur_runs|done].
Qed.

Lemma before_char_runs r c : runs (before_char h r c).
Proof.
  unfold before_char. destruct (_ <? _); [|done].
  apply runs_bind; [apply cur_runs|done].
Qed.

Lemma skip_whitespace_loop_runs n : ∀ r, runs (skip_whitespace_loop h n r).
Proof.
  induction n as [|n IH]; intros r; simpl; [done|].
  apply runs_bind; [apply cur_runs|]. intros c _.
  destruct (isspace c); [apply IH|done].
Qed.

Lemma skip_whitespace_runs r : runs (skip_whitespace h r).
Proof. apply skip_whitespace_loop_runs. Qed.

Lemma after_element_runs r : runs (after_element h r).
Proof.
  unfold after_element. apply runs_bind; [apply at_char_runs|].
  intros comma _. apply skip_whitespace_runs.
Qed.

Lemma parse_literal_runs r n kw v : runs (parse_literal h r n kw v).
Proof.
  unfold parse_literal, eq_cstr.
  apply runs_bind.
  - destruct (negb _); [done|].
    apply runs_bind; [apply window_runs|done].
  - intros [] _; [done|]. apply runs_bind; [apply cur_runs|done].
Qed.

Lemma parse_string_runs r : runs (parse_string h r).
Proof.
  unfold parse_string. apply runs_bind; [apply find_from_runs|].
  intros e _. destruct (e =? npos); [|done].
  apply runs_bind; [apply cur_runs|done].
Qed.

Lemma scan_number_runs s n : ∀ i, runs (scan_number h s n i).
Proof.
  induction n as [|n IH]; intros i; simpl; [done|].
  apply runs_bind; [apply at_runs|]. intros c _.
  destruct (_ || _); [apply IH|done].
Qed.

Lemma parse_number_runs r : runs (parse_number h r).
Proof.
  unfold parse_number. apply runs_bind; [apply scan_number_runs|].
  intros e _. apply runs_bind.
  { unfold is_float. apply runs_bind; [apply find_from_runs|].
    intros d _. destruct (negb _); [done|].
    apply runs_bind; [apply find_from_runs|done]. }
  intros fl _. apply runs_bind; [apply window_runs|]. intros text _.
  destruct fl.
  - destruct (from_chars_double _ _). case_bool_decide; [done|].
    apply runs_bind; [apply cur_runs|done].
  - destruct (from_chars_int _ _). case_bool_decide; [done|].
    apply runs_bind; [apply cur_runs|done].
Qed.

End running.

Section progress.
Import cow_string json_reader.
Context (h : heap).
Implicit Types (text pre suf : list char).


Lemma load_range_spec p blk n : ∀ i w,
  h !! p = Some blk → N.of_nat (List.length blk) ≤ npos →
  load_range h p (N.of_nat i) n = Ok w →
  ((0 < n)%nat → (i + n ≤ List.length blk)%nat) ∧ w = take n (drop i blk).
Proof.
  induction n as [|n IH]; intros i w Hb Hn H; simpl in H.
  - simplify_eq. split; [lia|done].
  - bind_inv H as c Hc. bind_inv H as cs Hcs. simplify_eq.
    unfold load in Hc. rewrite Hb, Nat2N.id in Hc.
    destruct (blk !! i) as [c'|] eqn:Hi; [|done]. simplify_eq.
    apply lookup_lt_Some in Hi as Hlt.
    rewrite size_add_small in Hcs
      by (unfold npos in Hn; rewrite size_max_eq in *; lia).
    replace (N.of_nat i + 1) with (N.of_nat (S i)) in Hcs by lia.
    destruct (IH _ _ Hb Hn Hcs) as [Hle ->]. split.
    + intros _. destruct n; [lia|]. specialize (Hle ltac:(lia)). lia.
    + by rewrite (drop_S _ _ _ Hi).
Qed.

Lemma reads_with_pos r text p : reads h r text → reads h (with_pos r p) text.
Proof. done. Qed.

Lemma skip_whitespace_loop_pos text n : ∀ r r',
  reads h r text → n = N.to_nat ((N.of_nat (List.length text)) - pos r) →
  skip_whitespace_loop h n r = Ok r' →
  reads h r' text ∧ pos r ≤ pos r'
  ∧ pos r' ≤ N.max (pos r) (N.of_nat (List.length text)).
Proof.
  induction n as [|n IH]; intros r r' Hr Hn H; simpl in H.
  - simplify_eq. split_and!; [done|lia|lia].
  - bind_inv H as c Hc. destruct (isspace c); [|simplify_eq; split_and!; [done|lia|lia]].
    pose proof Hr as (_ & _ & _ & Hb). rewrite !length_app in Hb. simpl in Hb.
    apply IH in H as (Hr' & Hle & Hmax).
    + split; [done|]. simpl in Hle, Hmax.
      assert (pos (if char_eqb c "010"%char
                   then {| src := src r; pos := pos r;
                           row := size_add (row r) 1; column := 0 |}
                   else r) = pos r) as Hp by by destruct (char_eqb c "010"%char).
      rewrite Hp in Hle, Hmax. rewrite size_add_small in Hle, Hmax
        by (unfold npos in Hb; rewrite size_max_eq in *; lia).
      lia.
    + unfold reads in *. simpl. by destruct (char_eqb c "010"%char).
    + simpl. assert (pos (if char_eqb c "010"%char
                   then {| src := src r; pos := pos r;
                           row := size_add (row r) 1; column := 0 |}
                   else r) = pos r) as Hp by by destruct (char_eqb c "010"%char).
      rewrite Hp. rewrite size_add_small
        by (unfold npos in Hb; rewrite size_max_eq in *; lia).
      lia.
Qed.

Lemma reads_size r text : reads h r text → size (src r) = (N.of_nat (List.length text)).
Proof. by intros (_ & _ & Hl & _). Qed.

Lemma reads_bound r text : reads h r text → (N.of_nat (List.length text)) < npos.
Proof.
  intros (_ & _ & _ & Hb). rewrite !length_app in Hb. simpl in Hb.
  lia.
Qed.

Lemma skip_whitespace_pos r text r' :
  reads h r text → skip_whitespace h r = Ok r' →
  reads h r' text ∧ pos r ≤ pos r'
  ∧ pos r' ≤ N.max (pos r) (N.of_nat (List.length text)).
Proof.
  intros Hr H. eapply skip_whitespace_loop_pos; [done| |done].
  by rewrite (reads_size _ _ Hr).
Qed.

Lemma after_element_pos r text r' :
  reads h r text → after_element h r = Ok r' →
  reads h r' text ∧ pos r ≤ pos r'
  ∧ pos r' ≤ N.max (pos r) (N.of_nat (List.length text)).
Proof.
  intros Hr H. unfold after_element in H. bind_inv H as comma Hcomma.
  pose proof (reads_bound _ _ Hr) as Hb.
  destruct comma.
  - unfold at_char in Hcomma. rewrite (reads_size _ _ Hr) in Hcomma.
    destruct (N.ltb_spec (pos r) (N.of_nat (List.length text))) as [Hlt|];
      [|by simplify_eq].
    apply (skip_whitespace_pos _ text) in H as (Hr' & Hle & Hmax); [|done].
    simpl in Hle, Hmax. rewrite size_add_small in Hle, Hmax
      by (unfold npos in Hb; rewrite size_max_eq in *; lia).
    split; [done|lia].
  - by apply (skip_whitespace_pos _ text) in H.
Qed.

Lemma parse_literal_pos r text pre c suf n kw v0 v r' :
  text = pre ++ c :: suf → cursor h r pre (c :: suf) → 0 < n →
  parse_literal h r n kw v0 = Ok (v, r') →
  reads h r' text ∧ pos r < pos r' ∧ pos r' ≤ (N.of_nat (List.length text)) + 1.
Proof.
  intros -> Hc Hn H. unfold parse_literal in H. bind_inv H as same Hsame.
  destruct same; [|by bind_inv H]. simplify_eq.
  pose proof Hc as [Hr Hp]. pose proof (reads_bound _ _ Hr) as Hb.
  split; [done|]. simpl. unfold eq_cstr in Hsame.
  destruct (negb _); [done|]. bind_inv Hsame as w Hw.
  unfold window, substr in Hw. simpl in Hw.
  destruct Hr as (Hblk & Ho & Hl & Hbb). rewrite Ho, Hp in Hw.
  rewrite size_add_small in Hw
    by (unfold npos in *; rewrite length_app in *; simpl in *;
        rewrite size_max_eq in *; lia).
  rewrite N.add_0_l in Hw.
  destruct (load_range_spec _ _ _ _ _ Hblk Hbb Hw) as [Hle _].
  simpl in Hle. rewrite !length_app in Hle. simpl in Hle.
  specialize (Hle ltac:(lia)).
  rewrite length_app in *. simpl in *.
  rewrite Hp. rewrite size_add_small
    by (unfold npos in *; rewrite size_max_eq in *; lia).
  lia.
Qed.

Lemma parse_string_pos r text pre suf v r' :
  text = pre ++ "034"%char :: suf → cursor h r pre ("034"%char :: suf) →
  parse_string h r = Ok (v, r') →
  reads h r' text ∧ pos r < pos r' ∧ pos r' ≤ (N.of_nat (List.length text)).
Proof.
  intros -> Hc H. pose proof Hc as [Hr Hp].
  destruct (decide ("034"%char ∈ suf)) as [Hin|Hout].
  - apply list_elem_of_split_l in Hin as (k & suf' & -> & Hk).
    rewrite (parse_string_ok h r pre k suf' Hc Hk) in H. simplify_eq.
    split; [done|]. simpl. rewrite Hp.
    rewrite length_app. simpl. rewrite length_app. simpl. lia.
  - by rewrite (parse_string_unterminated h r pre suf Hc Hout) in H.
Qed.

Lemma parse_number_pos r text pre c suf v r' :
  text = pre ++ c :: suf → cursor h r pre (c :: suf) →
  parse_number h r = Ok (v, r') →
  reads h r' text ∧ pos r < pos r' ∧ pos r' ≤ (N.of_nat (List.length text)).
Proof.
  intros -> Hc H. pose proof Hc as [Hr Hp].
  rewrite (parse_number_run h r pre (number_run (c :: suf)) (after_run (c :: suf)))
    in H.
  - unfold convert in H.
    assert (r' = with_pos r (N.of_nat (List.length (pre ++ number_run (c :: suf))))
            ∧ number_run (c :: suf) ≠ []) as [-> Hne].
    { destruct (number_run (c :: suf)) as [|d run] eqn:E.
      - exfalso. vm_compute in H. done.
      - split; [|done].
        destruct (has_point_or_e _).
        + destruct (from_chars_double _ _). by case_bool_decide; simplify_eq.
        + destruct (from_chars_int _ _). by case_bool_decide; simplify_eq. }
    split; [done|]. unfold with_pos. cbn [pos]. rewrite Hp.
    pose proof (f_equal List.length (number_run_split (c :: suf))) as Hs.
    rewrite length_app in Hs. rewrite !length_app.
    assert (0 < List.length (number_run (c :: suf)))%nat
      by (destruct (number_run (c :: suf)); simpl; [done|lia]).
    lia.
  - by rewrite <- number_run_split.
  - apply number_run_chars.
  - apply after_run_head.
Qed.

End progress.

Section fuel_loops.
Import cow_string json_reader.
Context (h : heap) (text : list char).
Context (pv : json_reader → result (Value * json_reader)) (f : nat).

Hypothesis room : N.of_nat (List.length text) + N.of_nat (S f) ≤ npos.

Hypothesis pv_pos : ∀ r v r',
  reads h r text → pos r ≤ N.of_nat (List.length text) →
  pv r = Ok (v, r') →
  reads h r' text ∧ pos r < pos r'
  ∧ pos r' ≤ N.of_nat (List.length text) + N.of_nat f.

Hypothesis pv_runs : ∀ r,
  reads h r text → pos r ≤ N.of_nat (List.length text) →
  N.of_nat (List.length text) - pos r < N.of_nat f → runs (pv r).

Lemma before_char_true r c :
  reads h r text → before_char h r c = Ok true →
  pos r < N.of_nat (List.length text).
Proof.
  intros Hr H. unfold before_char in H. rewrite (reads_size _ _ _ Hr) in H.
  by destruct (N.ltb_spec (pos r) (N.of_nat (List.length text))).
Qed.

Lemma at_char_true r c :
  reads h r text → at_char h r c = Ok true →
  pos r < N.of_nat (List.length text).
Proof.
  intros Hr H. unfold at_char in H. rewrite (reads_size _ _ _ Hr) in H.
  by destruct (N.ltb_spec (pos r) (N.of_nat (List.length text))).
Qed.

Lemma parse_array_loop_pos n : ∀ r arr v r',
  reads h r text →
  pos r ≤ N.of_nat (List.length text) + N.of_nat f →
  parse_array_loop h pv n r arr = Ok (v, r') →
  reads h r' text ∧ pos r < pos r'
  ∧ pos r' ≤ N.of_nat (List.length text) + N.of_nat (S f).
Proof.
  induction n as [|n IH]; intros r arr v r' Hr Hp H; [done|].
  cbn [parse_array_loop] in H. bind_inv H as more Hmore. destruct more.
  - apply (before_char_true _ _ Hr) in Hmore.
    bind_inv H as [value r2] Hv.
    apply pv_pos in Hv as (Hr2 & Hlt & Hle); [|done|lia].
    bind_inv H as r3 Ha.
    apply (after_element_pos h _ text) in Ha as (Hr3 & Hle3 & Hmax); [|done].
    apply IH in H as (Hr' & Hlt' & Hle'); [|done|lia].
    split; [done|lia].
  - simplify_eq. split; [done|]. cbn [pos with_pos].
    rewrite size_add_small
      by (unfold npos in room; rewrite size_max_eq in *; lia).
    lia.
Qed.

Lemma parse_array_pos n r v r' :
  reads h r text → pos r < N.of_nat (List.length text) →
  parse_array h pv n r = Ok (v, r') →
  reads h r' text ∧ pos r < pos r'
  ∧ pos r' ≤ N.of_nat (List.length text) + N.of_nat (S f).
Proof.
  intros Hr Hp H. unfold parse_array in H. bind_inv H as r1 Hs.
  apply (skip_whitespace_pos h _ text) in Hs as (Hr1 & Hle & Hmax); [|done].
  cbn [pos with_pos] in Hle, Hmax.
  rewrite size_add_small in Hle, Hmax
    by (unfold npos in room; rewrite size_max_eq in *; lia).
  apply parse_array_loop_pos in H as (Hr' & Hlt' & Hle'); [|done|lia].
  split; [done|lia].
Qed.

Lemma parse_entry_pos r k v r' :
  reads h r text → pos r < N.of_nat (List.length text) →
  parse_entry h pv r = Ok (k, v, r') →
  reads h r' text ∧ pos r < pos r'
  ∧ pos r' ≤ N.of_nat (List.length text) + N.of_nat f.
Proof.
  intros Hr Hp H. unfold parse_entry in H. bind_inv H as [key r1] Hk.
  apply pv_pos in Hk as (Hr1 & Hlt1 & Hle1); [|done|lia].
  destruct key; try done. bind_inv H as colon Hcolon.
  destruct colon; [|by bind_inv H].
  apply (at_char_true _ _ Hr1) in Hcolon.
  bind_inv H as [value r2] Hv.
  apply pv_pos in Hv as (Hr2 & Hlt2 & Hle2); [|done|].
  - cbn [pos with_pos] in Hlt2. rewrite size_add_small in Hlt2
      by (unfold npos in room; rewrite size_max_eq in *; lia).
    bind_inv H as r3 Ha. simplify_eq.
    apply (after_element_pos h _ text) in Ha as (Hr3 & Hle3 & Hmax); [|done].
    split; [done|lia].
  - cbn [pos with_pos]. rewrite size_add_small
      by (unfold npos in room; rewrite size_max_eq in *; lia).
    lia.
Qed.

Lemma parse_object_loop_pos n : ∀ r obj v r',
  reads h r text →
  pos r ≤ N.of_nat (List.length text) + N.of_nat f →
  parse_object_loop h pv n r obj = Ok (v, r') →
  reads h r' text ∧ pos r < pos r'
  ∧ pos r' ≤ N.of_nat (List.length text) + N.of_nat (S f).
Proof.
  induction n as [|n IH]; intros r obj v r' Hr Hp H; [done|].
  cbn [parse_object_loop] in H. bind_inv H as more Hmore. destruct more.
  - apply (before_char_true _ _ Hr) in Hmore.
    bind_inv H as [[key value] r2] He.
    apply parse_entry_pos in He as (Hr2 & Hlt & Hle); [|done..].
    bind_inv H as obj' Ho.
    apply IH in H as (Hr' & Hlt' & Hle'); [|done|lia].
    split; [done|lia].
  - simplify_eq. split; [done|]. cbn [pos with_pos].
    rewrite size_add_small
      by (unfold npos in room; rewrite size_max_eq in *; lia).
    lia.
Qed.

Lemma parse_object_pos n r v r' :
  reads h r text → pos r < N.of_nat (List.length text) →
  parse_object h pv n r = Ok (v, r') →
  reads h r' text ∧ pos r < pos r'
  ∧ pos r' ≤ N.of_nat (List.length text) + N.of_nat (S f).
Proof.
  intros Hr Hp H. unfold parse_object in H. bind_inv H as r1 Hs.
  apply (skip_whitespace_pos h _ text) in Hs as (Hr1 & Hle & Hmax); [|done].
  cbn [pos with_pos] in Hle, Hmax.
  rewrite size_add_small in Hle, Hmax
    by (unfold npos in room; rewrite size_max_eq in *; lia).
  apply parse_object_loop_pos in H as (Hr' & Hlt' & Hle'); [|done|lia].
  split; [done|lia].
Qed.

Lemma parse_array_loop_runs n : ∀ r arr,
  reads h r text →
  pos r ≤ N.of_nat (List.length text) + N.of_nat f →
  N.of_nat (List.length text) - pos r < N.of_nat n →
  N.of_nat (List.length text) - pos r < N.of_nat f →
  runs (parse_array_loop h pv n r arr).
Proof.
  induction n as [|n IH]; intros r arr Hr Hp Hn Hf; [lia|].
  cbn [parse_array_loop]. apply runs_bind; [apply before_char_runs|].
  intros [] Hmore; [|done].
  apply (before_char_true _ _ Hr) in Hmore.
  apply runs_bind; [apply pv_runs; [done|lia|done]|].
  intros [value r2] Hv.
  apply pv_pos in Hv as (Hr2 & Hlt & Hle); [|done|lia].
  apply runs_bind; [apply after_element_runs|]. intros r3 Ha.
  apply (after_element_pos h _ text) in Ha as (Hr3 & Hle3 & Hmax); [|done].
  apply IH; [done|lia..].
Qed.

Lemma parse_array_runs n r :
  reads h r text → pos r < N.of_nat (List.length text) →
  N.of_nat (List.length text) - pos r ≤ N.of_nat n →
  N.of_nat (List.length text) - pos r ≤ N.of_nat f →
  runs (parse_array h pv n r).
Proof.
  intros Hr Hp Hn Hf. unfold parse_array.
  apply runs_bind; [apply skip_whitespace_runs|]. intros r1 Hs.
  apply (skip_whitespace_pos h _ text) in Hs as (Hr1 & Hle & Hmax); [|done].
  cbn [pos with_pos] in Hle, Hmax.
  rewrite size_add_small in Hle, Hmax
    by (unfold npos in room; rewrite size_max_eq in *; lia).
  apply parse_array_loop_runs; [done|lia..].
Qed.

Lemma parse_entry_runs r :
  reads h r text → pos r < N.of_nat (List.length text) →
  N.of_nat (List.length text) - pos r < N.of_nat f →
  runs (parse_entry h pv r).
Proof.
  intros Hr Hp Hf. unfold parse_entry.
  apply runs_bind; [apply pv_runs; [done|lia|done]|].
  intros [key r1] Hk.
  apply pv_pos in Hk as (Hr1 & Hlt1 & Hle1); [|done|lia].
  destruct key; try done.
  apply runs_bind; [apply at_char_runs|]. intros [] Hcolon.
  - apply (at_char_true _ _ Hr1) in Hcolon.
    assert (pos (with_pos r1 (size_add (pos r1) 1)) = pos r1 + 1) as Hp2.
    { cbn [pos with_pos]. apply size_add_small.
      unfold npos in room. rewrite size_max_eq in *. lia. }
    apply runs_bind.
    { apply pv_runs; [done|lia|lia]. }
    intros [value r2] Hv.
    apply runs_bind; [apply after_element_runs|done].
  - apply runs_bind; [apply cur_runs|done].
Qed.

Lemma parse_object_loop_runs n : ∀ r obj,
  reads h r text →
  pos r ≤ N.of_nat (List.length text) + N.of_nat f →
  N.of_nat (List.length text) - pos r < N.of_nat n →
  N.of_nat (List.length text) - pos r < N.of_nat f →
  runs (parse_object_loop h pv n r obj).
Proof.
  induction n as [|n IH]; intros r obj Hr Hp Hn Hf; [lia|].
  cbn [parse_object_loop]. apply runs_bind; [apply before_char_runs|].
  intros [] Hmore; [|done].
  apply (before_char_true _ _ Hr) in Hmore.
  apply runs_bind; [by apply parse_entry_runs|].
  intros [[key value] r2] He.
  apply parse_entry_pos in He as (Hr2 & Hlt & Hle); [|done..].
  apply runs_bind; [apply map_assign_runs|]. intros obj' _.
  apply IH; [done|lia..].
Qed.

Lemma parse_object_runs n r :
  reads h r text → pos r < N.of_nat (List.length text) →
  N.of_nat (List.length text) - pos r ≤ N.of_nat n →
  N.of_nat (List.length text) - pos r ≤ N.of_nat f →
  runs (parse_object h pv n r).
Proof.
  intros Hr Hp Hn Hf. unfold parse_object.
  apply runs_bind; [apply skip_whitespace_runs|]. intros r1 Hs.
  apply (skip_whitespace_pos h _ text) in Hs as (Hr1 & Hle & Hmax); [|done].
  cbn [pos with_pos] in Hle, Hmax.
  rewrite size_add_small in Hle, Hmax
    by (unfold npos in room; rewrite size_max_eq in *; lia).
  apply parse_object_loop_runs; [done|lia..].
Qed.

End fuel_loops.

Section fuel.
Import cow_string json_reader.
Context (h : heap) (text : list char).

Lemma parse_value_S fuel r :
  parse_value h (S fuel) r =
    r ← skip_whitespace h r;
    if size (src r) <=? pos r then Throw UnexpectedEnd
    else
      c ← cur h r;
      if char_eqb c "n"%char then parse_null h r
      else if char_eqb c "t"%char then parse_true h r
      else if char_eqb c "f"%char then parse_false h r
      else if char_eqb c "034"%char then parse_string h r
      else if char_eqb c "["%char
        then parse_array h (parse_value h fuel) fuel r
      else if char_eqb c "{"%char
        then parse_object h (parse_value h fuel) fuel r
      else parse_number h r.
Proof. done. Qed.

(** A value that [parse_value] returns ends after the byte it started at,
    and at most [fuel] bytes after the end of the text. *)
Lemma parse_value_pos fuel : ∀ r v r',
  N.of_nat (List.length text) + N.of_nat fuel ≤ npos →
  reads h r text → pos r ≤ N.of_nat (List.length text) →
  parse_value h fuel r = Ok (v, r') →
  reads h r' text ∧ pos r < pos r'
  ∧ pos r' ≤ N.of_nat (List.length text) + N.of_nat fuel.
Proof.
  induction fuel as [|fuel IH]; intros r v r' Hroom Hr Hp H; [done|].
  rewrite parse_value_S in H. bind_inv H as r1 Hs.
  apply (skip_whitespace_pos h _ text) in Hs as (Hr1 & Hle & Hmax); [|done].
  rewrite (reads_size _ _ _ Hr1) in H.
  destruct (N.leb_spec (N.of_nat (List.length text)) (pos r1)) as [|Hlt];
    [done|].
  destruct (reads_cursor h r1 text Hr1) as (pre & c & suf & Ht & Hc).
  { by rewrite (reads_size _ _ _ Hr1). }
  rewrite (cursor_cur _ _ _ _ _ Hc) in H. cbn [mbind result_bind] in H.
  assert (∀ r'', reads h r'' text ∧ pos r1 < pos r''
                 ∧ pos r'' ≤ N.of_nat (List.length text) + 1 →
          reads h r'' text ∧ pos r < pos r''
          ∧ pos r'' ≤ N.of_nat (List.length text) + N.of_nat (S fuel))
    as Hweak by (intros r'' (? & ? & ?); split; [done|lia]).
  assert (∀ r'', reads h r'' text ∧ pos r1 < pos r''
                 ∧ pos r'' ≤ N.of_nat (List.length text) →
          reads h r'' text ∧ pos r < pos r''
          ∧ pos r'' ≤ N.of_nat (List.length text) + N.of_nat (S fuel))
    as Hweak0 by (intros r'' (? & ? & ?); split; [done|lia]).
  assert (∀ r'', reads h r'' text ∧ pos r1 < pos r''
                 ∧ pos r'' ≤ N.of_nat (List.length text) + N.of_nat (S fuel) →
          reads h r'' text ∧ pos r < pos r''
          ∧ pos r'' ≤ N.of_nat (List.length text) + N.of_nat (S fuel))
    as Hweak1 by (intros r'' (? & ? & ?); split; [done|lia]).
  assert (∀ r v r',
    reads h r text → pos r ≤ N.of_nat (List.length text) →
    parse_value h fuel r = Ok (v, r') →
    reads h r' text ∧ pos r < pos r'
    ∧ pos r' ≤ N.of_nat (List.length text) + N.of_nat fuel) as IH'.
  { intros ? v0 ? ? ? ?. apply (IH _ v0); [lia|done..]. }
  repeat case_match.
  - apply Hweak. eapply parse_literal_pos; [exact Ht|exact Hc| |exact H]; lia.
  - apply Hweak. eapply parse_literal_pos; [exact Ht|exact Hc| |exact H]; lia.
  - apply Hweak. eapply parse_literal_pos; [exact Ht|exact Hc| |exact H]; lia.
  - apply Hweak0.
    assert (c = "034"%char) as -> by by apply Ascii.eqb_eq.
    by eapply (parse_string_pos h r1 text pre suf).
  - apply Hweak1. by eapply (parse_array_pos h text _ fuel Hroom IH').
  - apply Hweak1. by eapply (parse_object_pos h text _ fuel Hroom IH').
  - apply Hweak0. by eapply (parse_number_pos h r1 text pre c suf).
Qed.

(** With more fuel than bytes left, [parse_value] does not run out of it. *)
Lemma parse_value_runs fuel : ∀ r,
  N.of_nat (List.length text) + N.of_nat fuel ≤ npos →
  reads h r text → pos r ≤ N.of_nat (List.length text) →
  N.of_nat (List.length text) - pos r < N.of_nat fuel →
  runs (parse_value h fuel r).
Proof.
  induction fuel as [|fuel IH]; intros r Hroom Hr Hp Hf; [lia|].
  rewrite parse_value_S.
  apply runs_bind; [apply skip_whitespace_runs|]. intros r1 Hs.
  apply (skip_whitespace_pos h _ text) in Hs as (Hr1 & Hle & Hmax); [|done].
  rewrite (reads_size _ _ _ Hr1).
  destruct (N.leb_spec (N.of_nat (List.length text)) (pos r1)) as [|Hlt];
    [done|].
  apply runs_bind; [apply cur_runs|]. intros c _.
  assert (∀ r v r',
    reads h r text → pos r ≤ N.of_nat (List.length text) →
    parse_value h fuel r = Ok (v, r') →
    reads h r' text ∧ pos r < pos r'
    ∧ pos r' ≤ N.of_nat (List.length text) + N.of_nat fuel) as Hpos.
  { intros ? v0 ? ? ? ?. apply (parse_value_pos _ _ v0); [lia|done..]. }
  assert (∀ r,
    reads h r text → pos r ≤ N.of_nat (List.length text) →
    N.of_nat (List.length text) - pos r < N.of_nat fuel →
    runs (parse_value h fuel r)) as Hruns.
  { intros. apply IH; [lia|done..]. }
  repeat case_match.
  - apply parse_literal_runs.
  - apply parse_literal_runs.
  - apply parse_literal_runs.
  - apply parse_string_runs.
  - apply (parse_array_runs h text _ fuel Hroom Hpos Hruns); [done|lia..].
  - apply (parse_object_runs h text _ fuel Hroom Hpos Hruns); [done|lia..].
  - apply parse_number_runs.
Qed.

(** The bound that [parse] runs with is enough: on a text whose length,
    doubled, is a [size_t], [parse] returns a value or throws. *)
Theorem parse_value_fuel r :
  2 * N.of_nat (List.length text) + 2 ≤ npos →
  reads h r text → runs (parse h r).
Proof.
  intros Hroom Hr. unfold parse.
  apply runs_bind; [|by intros [v r'] _].
  apply parse_value_runs.
  - unfold fuel_of. cbn [src]. rewrite (reads_size _ _ _ Hr). lia.
  - done.
  - cbn [pos]. lia.
  - unfold fuel_of. cbn [src pos]. rewrite (reads_size _ _ _ Hr). lia.
Qed.

End fuel.

(** [parse] on a text given to the constructor returns or throws. *)
Corollary parse_text_runs text :
  2 * N.of_nat (List.length text) + 2 ≤ npos → runs (parse_text text).
Proof.
  intros Hroom. apply (parse_value_fuel _ text); [done|].
  apply text_reader_reads. lia.
Qed.

(** ** Closers left out *)

Section truncation.
Import cow_string json_reader.
Context (h1 h2 : heap) (s1 s2 : cow_string) (text cs : list char).

Hypothesis full : holds h1 s1 [] (text ++ cs) [NUL].
Hypothesis short : holds h2 s2 [] text [NUL].
Hypothesis same_block : storage s1 = storage s2.
Hypothesis closers : Forall (λ c, closer c = true) cs.

Lemma substr_same p n : substr s1 p n = substr s2 p n.
Proof.
  destruct full as (_ & Ho1 & _), short as (_ & Ho2 & _).
  unfold substr. by rewrite Ho1, Ho2, same_block.
Qed.

Lemma reads_full r : src r = s1 → reads h1 r (text ++ cs).
Proof. intros Hs. unfold reads. by rewrite Hs. Qed.

Lemma reads_cut r : reads h2 (on s2 r) text.
Proof. done. Qed.

(** Where a reader on the full text stands: on a byte of [text], on one of
    the closers, or after the end. *)
Lemma place r :
  src r = s1 →
  (∃ pre c suf, text = pre ++ c :: suf
     ∧ cursor h1 r pre (c :: suf ++ cs) ∧ cursor h2 (on s2 r) pre (c :: suf))
  ∨ (N.of_nat (List.length text) ≤ pos r
     ∧ ((∃ cs1 c cs2, cs = cs1 ++ c :: cs2 ∧ closer c = true
           ∧ cursor h1 r (text ++ cs1) (c :: cs2))
        ∨ N.of_nat (List.length (text ++ cs)) ≤ pos r)).
Proof.
  intros Hs. destruct (decide (pos r < N.of_nat (List.length text))) as [Hlt|Hge].
  - left.
    destruct (lookup_lt_is_Some_2 text (N.to_nat (pos r))) as [c Hc]; [lia|].
    apply list_elem_of_split_length in Hc as (pre & suf & -> & Hlen).
    exists pre, c, suf. split; [done|]. split; (split; [|cbn [pos on]; lia]).
    + unfold reads. rewrite Hs.
      by rewrite <- app_assoc, <- app_comm_cons in full.
    + done.
  - right. split; [lia|].
    destruct (decide (pos r < N.of_nat (List.length (text ++ cs)))) as [Hlt|Hge'];
      [left|right; lia].
    rewrite length_app in Hlt.
    destruct (lookup_lt_is_Some_2 cs (N.to_nat (pos r) - List.length text))
      as [c Hc]; [lia|].
    apply list_elem_of_split_length in Hc as (cs1 & cs2 & -> & Hlen).
    exists cs1, c, cs2. split; [done|]. split.
    + rewrite Forall_app, Forall_cons in closers. by destruct closers as (_ & ? & _).
    + split.
      * unfold reads. rewrite Hs. by rewrite <- app_assoc.
      * rewrite length_app. lia.
Qed.

Lemma closer_not_space c : closer c = true → isspace c = false.
Proof.
  unfold closer, char_eqb. intros H.
  apply orb_true_iff in H as [H|H]; apply Ascii.eqb_eq in H; by subst.
Qed.

Lemma closer_not_number c : closer c = true → number_char c = false.
Proof.
  unfold closer, char_eqb. intros H.
  apply orb_true_iff in H as [H|H]; apply Ascii.eqb_eq in H; by subst.
Qed.

Lemma size_full r : src r = s1 → size (src r) = N.of_nat (List.length (text ++ cs)).
Proof. intros ->. by destruct full as (_ & _ & ? & _). Qed.

Lemma size_cut r : size (src (on s2 r)) = N.of_nat (List.length text).
Proof. by destruct short as (_ & _ & ? & _). Qed.

Lemma room_full : N.of_nat (List.length (text ++ cs)) < npos.
Proof.
  destruct full as (_ & _ & _ & H). rewrite !length_app in *. simpl in H. lia.
Qed.

Lemma skip_whitespace_loop_cut n2 : ∀ n1 r r',
  src r = s1 →
  n2 = N.to_nat (N.of_nat (List.length text) - pos r) →
  n1 = N.to_nat (N.of_nat (List.length (text ++ cs)) - pos r) →
  skip_whitespace_loop h1 n1 r = Ok r' →
  src r' = s1 ∧ skip_whitespace_loop h2 n2 (on s2 r) = Ok (on s2 r').
Proof.
  pose proof room_full as Hroom.
  induction n2 as [|n2 IH]; intros n1 r r' Hs Hn2 Hn1 H.
  - destruct (place r Hs)
      as [(pre & c & suf & -> & Hc1 & Hc2)
         |[Hge [(cs1 & c & cs2 & -> & Hcl & Hc1)|Hend]]].
    + destruct Hc1 as [_ Hp]. rewrite length_app in Hn2. simpl in Hn2. lia.
    + destruct n1 as [|n1]; simpl in H; [by simplify_eq|].
      rewrite (cursor_cur _ _ _ _ _ Hc1) in H. simpl in H.
      rewrite (closer_not_space _ Hcl) in H. by simplify_eq.
    + replace n1 with 0%nat in H by lia. simpl in H. by simplify_eq.
  - destruct (place r Hs)
      as [(pre & c & suf & -> & Hc1 & Hc2)|[Hge _]]; [|lia].
    rewrite !length_app in *.
    destruct n1 as [|n1]; [lia|]. simpl in H |- *.
    rewrite (cursor_cur _ _ _ _ _ Hc1) in H. rewrite (cursor_cur _ _ _ _ _ Hc2).
    simpl in H |- *. destruct (isspace c); [|by simplify_eq].
    assert (size_add (pos r) 1 = pos r + 1) as Hp
      by (apply size_add_small; unfold npos in *; rewrite size_max_eq in *; lia).
    destruct (char_eqb c "010"%char);
      (eapply IH in H; [exact H|exact Hs|cbn [pos]; rewrite Hp; lia..]).
Qed.

Lemma skip_whitespace_cut r r' :
  src r = s1 → skip_whitespace h1 r = Ok r' →
  src r' = s1 ∧ skip_whitespace h2 (on s2 r) = Ok (on s2 r').
Proof.
  intros Hs H. unfold skip_whitespace in *.
  rewrite (size_full _ Hs) in H. rewrite size_cut.
  by eapply skip_whitespace_loop_cut.
Qed.

Lemma at_char_cut r x b :
  src r = s1 → closer x = false → at_char h1 r x = Ok b →
  at_char h2 (on s2 r) x = Ok b
  ∧ (b = true → pos r < N.of_nat (List.length text)).
Proof.
  intros Hs Hx H.
  destruct (place r Hs)
    as [(pre & c & suf & -> & Hc1 & Hc2)
       |[Hge [(cs1 & c & cs2 & -> & Hcl & Hc1)|Hend]]].
  - rewrite (cursor_at_char _ _ _ _ _ _ Hc1) in H.
    rewrite (cursor_at_char _ _ _ _ _ _ Hc2). split; [done|].
    intros _. destruct Hc1 as [_ ->]. rewrite length_app. simpl. lia.
  - rewrite (cursor_at_char _ _ _ _ _ _ Hc1) in H.
    assert (char_eqb c x = false) as Hcx.
    { destruct (char_eqb c x) eqn:E; [|done].
      apply Ascii.eqb_eq in E. congruence. }
    rewrite Hcx in H. simplify_eq. split; [|done].
    apply at_char_end. by rewrite size_cut.
  - rewrite at_char_end in H by (by rewrite (size_full _ Hs)).
    simplify_eq. split; [|done]. apply at_char_end. by rewrite size_cut.
Qed.

Lemma before_char_cut r x b :
  src r = s1 → pos r < N.of_nat (List.length text) →
  before_char h1 r x = Ok b → before_char h2 (on s2 r) x = Ok b.
Proof.
  intros Hs Hp H.
  destruct (place r Hs) as [(pre & c & suf & -> & Hc1 & Hc2)|[Hge _]]; [|lia].
  rewrite (cursor_before_char _ _ _ _ _ _ Hc1) in H.
  by rewrite (cursor_before_char _ _ _ _ _ _ Hc2).
Qed.

Lemma before_char_false_cut r x :
  src r = s1 → before_char h1 r x = Ok false →
  before_char h2 (on s2 r) x = Ok false.
Proof.
  intros Hs H.
  destruct (decide (pos r < N.of_nat (List.length text))) as [Hlt|Hge].
  - by apply before_char_cut.
  - apply before_char_end. rewrite size_cut. cbn [pos on]. lia.
Qed.

Lemma after_element_cut r r' :
  src r = s1 → after_element h1 r = Ok r' →
  src r' = s1 ∧ after_element h2 (on s2 r) = Ok (on s2 r').
Proof.
  intros Hs H. unfold after_element in *. bind_inv H as comma Hcomma.
  apply at_char_cut in Hcomma as [Hcomma _]; [|done..].
  rewrite Hcomma. cbn [mbind result_bind].
  apply skip_whitespace_cut in H as [Hs' H]; [|by destruct comma].
  split; [done|]. by destruct comma.
Qed.

(** *** Tokens *)

Lemma load_cut i c :
  load h1 (storage s1) i = Ok c → c ∉ cs ++ [NUL] →
  load h2 (storage s2) i = Ok c.
Proof.
  destruct full as (Hb1 & _), short as (Hb2 & _).
  unfold load. rewrite Hb1, Hb2. simpl. intros H Hc.
  destruct (((text ++ cs) ++ [NUL]) !! N.to_nat i) as [c'|] eqn:E; [|done].
  simplify_eq. rewrite <- app_assoc in E.
  destruct (decide (N.to_nat i < List.length text)%nat) as [Hlt|Hge].
  - rewrite lookup_app_l in E by done. by rewrite lookup_app_l, E by done.
  - rewrite lookup_app_r in E by lia. apply list_elem_of_lookup_2 in E. done.
Qed.

Lemma load_range_cut n : ∀ i w,
  load_range h1 (storage s1) i n = Ok w →
  Forall (λ c, c ∉ cs ++ [NUL]) w →
  load_range h2 (storage s2) i n = Ok w.
Proof.
  induction n as [|n IH]; intros i w H Hw; simpl in *; [done|].
  bind_inv H as c Hc. bind_inv H as w' Hw'. simplify_eq.
  apply Forall_cons in Hw as [Hc' Hw].
  rewrite (load_cut _ _ Hc Hc'). cbn [mbind result_bind].
  by rewrite (IH _ _ Hw' Hw).
Qed.

Lemma parse_literal_cut r n kw v0 v r' :
  src r = s1 →
  Forall (λ c, closer c = false ∧ c ≠ NUL) (list_ascii_of_string kw) →
  parse_literal h1 r n kw v0 = Ok (v, r') →
  src r' = s1 ∧ parse_literal h2 (on s2 r) n kw v0 = Ok (v, on s2 r').
Proof.
  intros Hs Hkw H. unfold parse_literal in *. bind_inv H as same Hsame.
  destruct same; [|by bind_inv H]. injection H as <- <-. split; [done|].
  cbn [src on]. rewrite Hs, substr_same in Hsame.
  unfold eq_cstr in *. destruct (negb _); [done|].
  bind_inv Hsame as w Hw. injection Hsame as Hsame.
  apply bool_decide_eq_true in Hsame as ->.
  unfold window in *. cbn [storage offset length substr src pos on] in *.
  rewrite <- same_block in Hw.
  apply load_range_cut in Hw.
  - rewrite Hw. cbn [mbind result_bind]. by rewrite bool_decide_eq_true_2.
  - eapply Forall_impl; [exact Hkw|]. intros c [Hc Hn] Hin.
    apply elem_of_app in Hin as [Hin|Hin].
    + rewrite Forall_forall in closers. apply closers in Hin. congruence.
    + apply list_elem_of_singleton in Hin. done.
Qed.

Lemma same_contents_String k : same_contents h1 h2 (String k) ↔ same_window h1 h2 k.
Proof.
  unfold same_contents, same_window. simpl. split.
  - intros (t & H1 & H2). bind_inv H1 as w1 Hw1. bind_inv H2 as w2 Hw2.
    exists w1. split; [done|]. congruence.
  - intros (w & -> & ->). by eexists.
Qed.

Lemma same_contents_Array a :
  Forall (same_contents h1 h2) a → same_contents h1 h2 (Array a).
Proof.
  intros Ha. unfold same_contents. simpl.
  assert (∃ ts, sequence (map (contents h1) a) = Ok ts
                ∧ sequence (map (contents h2) a) = Ok ts) as (ts & -> & ->).
  { induction Ha as [|x a (t & Hx1 & Hx2) _ (ts & IH1 & IH2)]; simpl.
    - by eexists.
    - rewrite Hx1, Hx2, IH1, IH2. by eexists. }
  by eexists.
Qed.

Lemma same_contents_Object o :
  Forall (same_entry h1 h2) o → same_contents h1 h2 (Object o).
Proof.
  intros Ho. unfold same_contents. simpl.
  assert (∃ es,
    sequence (map (λ '(k, x), w ← window h1 k; t ← contents h1 x; Ok (w, t)) o)
      = Ok es
    ∧ sequence (map (λ '(k, x), w ← window h2 k; t ← contents h2 x; Ok (w, t)) o)
      = Ok es) as (es & -> & ->).
  { induction Ho as [|[k x] o [(w & Hk1 & Hk2) (t & Hx1 & Hx2)] _ (es & IH1 & IH2)];
      simpl in *.
    - by eexists.
    - rewrite Hk1, Hk2. simpl. rewrite Hx1, Hx2. simpl.
      rewrite IH1, IH2. by eexists. }
  by eexists.
Qed.

Lemma quote_not_closer : "034"%char ∉ cs.
Proof.
  intros Hin. rewrite Forall_forall in closers. by apply closers in Hin.
Qed.

Lemma parse_string_cut r pre suf v r' :
  src r = s1 →
  cursor h1 r pre ("034"%char :: suf ++ cs) →
  cursor h2 (on s2 r) pre ("034"%char :: suf) →
  parse_string h1 r = Ok (v, r') →
  src r' = s1 ∧ same_contents h1 h2 v
  ∧ parse_string h2 (on s2 r) = Ok (v, on s2 r').
Proof.
  intros Hs Hc1 Hc2 H.
  destruct (decide ("034"%char ∈ suf)) as [Hin|Hout].
  - apply list_elem_of_split_l in Hin as (k & suf' & -> & Hk).
    rewrite <- app_assoc, <- app_comm_cons in Hc1.
    rewrite (parse_string_ok h1 r pre k _ Hc1 Hk) in H.
    rewrite (parse_string_ok h2 _ pre k _ Hc2 Hk).
    injection H as <- <-. cbn [src on]. rewrite Hs. split; [done|].
    split; [|by rewrite substr_same].
    apply same_contents_String. exists k. split.
    + rewrite <- Hs. eapply holds_window. by eapply parse_string_holds.
    + rewrite substr_same. eapply holds_window.
      by eapply (parse_string_holds h2 (on s2 r)).
  - rewrite (parse_string_unterminated h1 r pre _ Hc1) in H; [done|].
    intros Hin. apply elem_of_app in Hin as [Hin|Hin]; [done|].
    by apply quote_not_closer.
Qed.

Lemma next_byte_not_number suf :
  number_char (next_byte (after_run suf ++ cs)) = false.
Proof.
  pose proof (after_run_head suf) as H.
  destruct (after_run suf) as [|c rest]; [|done]. simpl.
  destruct closers as [|c cs' Hc _]; [done|]. simpl.
  by apply closer_not_number.
Qed.

Lemma parse_number_cut r pre c suf v r' :
  src r = s1 →
  cursor h1 r pre (c :: suf ++ cs) → cursor h2 (on s2 r) pre (c :: suf) →
  parse_number h1 r = Ok (v, r') →
  src r' = s1 ∧ same_contents h1 h2 v
  ∧ parse_number h2 (on s2 r) = Ok (v, on s2 r').
Proof.
  intros Hs Hc1 Hc2 H.
  rewrite (parse_number_run h1 r pre (number_run (c :: suf))
             (after_run (c :: suf) ++ cs)) in H.
  2:{ by rewrite app_assoc, <- number_run_split. }
  2:{ apply number_run_chars. }
  2:{ apply next_byte_not_number. }
  rewrite (parse_number_run h2 _ pre (number_run (c :: suf))
             (after_run (c :: suf))).
  2:{ by rewrite <- number_run_split. }
  2:{ apply number_run_chars. }
  2:{ apply after_run_head. }
  unfold convert in *.
  destruct (has_point_or_e _).
  - destruct (from_chars_double _ _) as [res val].
    case_bool_decide; [|done]. injection H as <- <-.
    split; [done|]. split; [by eexists|done].
  - destruct (from_chars_int _ _) as [res val].
    case_bool_decide; [|done]. injection H as <- <-.
    split; [done|]. split; [by eexists|done].
Qed.

Lemma parse_number_closer h r pre c suf :
  cursor h r pre (c :: suf) → closer c = true →
  ∃ e, parse_number h r = Throw e.
Proof.
  intros Hc Hcl.
  rewrite (parse_number_run h r pre [] (c :: suf) Hc); [|done|].
  - by eexists.
  - by apply closer_not_number.
Qed.

Lemma map_assign_cut obj : ∀ key v obj',
  Forall (same_entry h1 h2) obj → same_window h1 h2 key → same_contents h1 h2 v →
  map_assign h1 obj key v = Ok obj' →
  map_assign h2 obj key v = Ok obj' ∧ Forall (same_entry h1 h2) obj'.
Proof.
  induction obj as [|[k x] obj IH]; intros key v obj' Ho Hk Hv H; simpl in *.
  - injection H as <-. split; [done|]. by repeat constructor.
  - apply Forall_cons in Ho as [[Hk' Hx] Ho]. simpl in *.
    destruct Hk as (w & Hw1 & Hw2), Hk' as (w' & Hw1' & Hw2').
    rewrite (window_lt h1 _ _ _ _ Hw1 Hw1') in H.
    rewrite (window_lt h2 _ _ _ _ Hw2 Hw2').
    rewrite (window_lt h1 _ _ _ _ Hw1' Hw1) in H.
    rewrite (window_lt h2 _ _ _ _ Hw2' Hw2).
    cbn [mbind result_bind] in *.
    assert (same_window h1 h2 key) as Hkey by by exists w.
    assert (same_window h1 h2 k) as Hkk by by exists w'.
    destruct (bytes_lt w w').
    { injection H as <-. split; [done|]. by repeat constructor. }
    destruct (bytes_lt w' w).
    + bind_inv H as rest Hrest. injection H as <-.
      destruct (IH _ _ _ Ho Hkey Hv Hrest) as [-> Hrest'].
      split; [done|]. by repeat constructor.
    + injection H as <-. split; [done|]. by repeat constructor.
Qed.

Section cut_loops.
Context (pv1 pv2 : json_reader → result (Value * json_reader)).

Hypothesis pv_cut : ∀ r v r',
  src r = s1 → pv1 r = Ok (v, r') →
  src r' = s1 ∧ pos r < N.of_nat (List.length text) ∧ same_contents h1 h2 v
  ∧ pv2 (on s2 r) = Ok (v, on s2 r').

Lemma parse_array_loop_cut n : ∀ r arr v r',
  src r = s1 → Forall (same_contents h1 h2) arr →
  parse_array_loop h1 pv1 n r arr = Ok (v, r') →
  src r' = s1 ∧ same_contents h1 h2 v
  ∧ parse_array_loop h2 pv2 n (on s2 r) arr = Ok (v, on s2 r').
Proof.
  induction n as [|n IH]; intros r arr v r' Hs Harr H; [done|].
  cbn [parse_array_loop] in *. bind_inv H as more Hmore. destruct more.
  - bind_inv H as [value ra] Hv.
    destruct (pv_cut _ _ _ Hs Hv) as (Hsa & Hp & Hvalue & Hv2).
    rewrite (before_char_cut _ _ _ Hs Hp Hmore). cbn [mbind result_bind].
    rewrite Hv2. cbn [mbind result_bind].
    bind_inv H as rb Ha.
    destruct (after_element_cut _ _ Hsa Ha) as [Hsb Ha2].
    rewrite Ha2. cbn [mbind result_bind].
    apply IH; [done| |done].
    apply Forall_app. split; [done|]. by constructor.
  - injection H as <- <-.
    rewrite (before_char_false_cut _ _ Hs Hmore). cbn [mbind result_bind].
    split; [done|]. split; [|done]. by apply same_contents_Array.
Qed.

Lemma parse_array_cut n r v r' :
  src r = s1 → parse_array h1 pv1 n r = Ok (v, r') →
  src r' = s1 ∧ same_contents h1 h2 v
  ∧ parse_array h2 pv2 n (on s2 r) = Ok (v, on s2 r').
Proof.
  intros Hs H. unfold parse_array in *. bind_inv H as ra Hskip.
  apply skip_whitespace_cut in Hskip as [Hsa Hskip]; [|done].
  change (with_pos (on s2 r) (size_add (pos (on s2 r)) 1))
    with (on s2 (with_pos r (size_add (pos r) 1))).
  rewrite Hskip. cbn [mbind result_bind].
  by apply parse_array_loop_cut.
Qed.

Lemma parse_entry_cut r key v r' :
  src r = s1 → parse_entry h1 pv1 r = Ok (key, v, r') →
  src r' = s1 ∧ pos r < N.of_nat (List.length text)
  ∧ same_window h1 h2 key ∧ same_contents h1 h2 v
  ∧ parse_entry h2 pv2 (on s2 r) = Ok (key, v, on s2 r').
Proof.
  intros Hs H. unfold parse_entry in *. bind_inv H as [k ra] Hk.
  destruct (pv_cut _ _ _ Hs Hk) as (Hsa & Hp & Hkey & Hk2).
  rewrite Hk2. cbn [mbind result_bind].
  destruct k; try done. bind_inv H as colon Hcolon.
  destruct colon; [|by bind_inv H].
  apply at_char_cut in Hcolon as [Hcolon _]; [|done..].
  rewrite Hcolon. cbn [mbind result_bind].
  bind_inv H as [value rb] Hv.
  destruct (pv_cut (with_pos ra (size_add (pos ra) 1)) _ _ Hsa Hv)
    as (Hsb & _ & Hvalue & Hv2).
  change (with_pos (on s2 ra) (size_add (pos (on s2 ra)) 1))
    with (on s2 (with_pos ra (size_add (pos ra) 1))).
  rewrite Hv2. cbn [mbind result_bind].
  bind_inv H as rc Ha. injection H as <- <- <-.
  destruct (after_element_cut _ _ Hsb Ha) as [Hsc Ha2].
  rewrite Ha2. cbn [mbind result_bind].
  split; [done|]. split; [done|]. split; [by apply same_contents_String|].
  done.
Qed.

Lemma parse_object_loop_cut n : ∀ r obj v r',
  src r = s1 → Forall (same_entry h1 h2) obj →
  parse_object_loop h1 pv1 n r obj = Ok (v, r') →
  src r' = s1 ∧ same_contents h1 h2 v
  ∧ parse_object_loop h2 pv2 n (on s2 r) obj = Ok (v, on s2 r').
Proof.
  induction n as [|n IH]; intros r obj v r' Hs Hobj H; [done|].
  cbn [parse_object_loop] in *. bind_inv H as more Hmore. destruct more.
  - bind_inv H as [[key value] ra] He.
    destruct (parse_entry_cut _ _ _ _ Hs He) as (Hsa & Hp & Hkey & Hvalue & He2).
    rewrite (before_char_cut _ _ _ Hs Hp Hmore). cbn [mbind result_bind].
    rewrite He2. cbn [mbind result_bind].
    bind_inv H as obj' Ho.
    destruct (map_assign_cut _ _ _ _ Hobj Hkey Hvalue Ho) as [Ho2 Hobj'].
    rewrite Ho2. cbn [mbind result_bind].
    by apply IH.
  - injection H as <- <-.
    rewrite (before_char_false_cut _ _ Hs Hmore). cbn [mbind result_bind].
    split; [done|]. split; [|done]. by apply same_contents_Object.
Qed.

Lemma parse_object_cut n r v r' :
  src r = s1 → parse_object h1 pv1 n r = Ok (v, r') →
  src r' = s1 ∧ same_contents h1 h2 v
  ∧ parse_object h2 pv2 n (on s2 r) = Ok (v, on s2 r').
Proof.
  intros Hs H. unfold parse_object in *. bind_inv H as ra Hskip.
  apply skip_whitespace_cut in Hskip as [Hsa Hskip]; [|done].
  change (with_pos (on s2 r) (size_add (pos (on s2 r)) 1))
    with (on s2 (with_pos r (size_add (pos r) 1))).
  rewrite Hskip. cbn [mbind result_bind].
  by apply parse_object_loop_cut.
Qed.

End cut_loops.

Lemma literal_chars :
  Forall (λ c, closer c = false ∧ c ≠ NUL) (list_ascii_of_string "null")
  ∧ Forall (λ c, closer c = false ∧ c ≠ NUL) (list_ascii_of_string "true")
  ∧ Forall (λ c, closer c = false ∧ c ≠ NUL) (list_ascii_of_string "false").
Proof. by repeat constructor. Qed.

Lemma parse_value_cut fuel : ∀ r v r',
  src r = s1 → parse_value h1 fuel r = Ok (v, r') →
  src r' = s1 ∧ pos r < N.of_nat (List.length text) ∧ same_contents h1 h2 v
  ∧ parse_value h2 fuel (on s2 r) = Ok (v, on s2 r').
Proof.
  induction fuel as [|fuel IH]; intros r v r' Hs H; [done|].
  rewrite parse_value_S in *. bind_inv H as ra Hskip.
  pose proof (skip_whitespace_pos h1 r (text ++ cs) ra (reads_full r Hs) Hskip)
    as (_ & Hle & _).
  apply skip_whitespace_cut in Hskip as [Hsa Hskip]; [|done].
  rewrite Hskip. cbn [mbind result_bind].
  rewrite size_cut. rewrite (size_full _ Hsa) in H.
  destruct literal_chars as (Hnull & Htrue & Hfalse).
  destruct (place ra Hsa)
    as [(pre & c & suf & Ht & Hc1 & Hc2)
       |[Hge [(cs1 & c & cs2 & Hcs & Hcl & Hc1)|Hend]]].
  - assert (pos ra < N.of_nat (List.length text)) as Hp.
    { destruct Hc1 as [_ ->]. rewrite Ht, length_app. simpl. lia. }
    destruct (N.leb_spec (N.of_nat (List.length (text ++ cs))) (pos ra))
      as [Hbad|_]; [rewrite length_app in Hbad; lia|].
    destruct (N.leb_spec (N.of_nat (List.length text)) (pos (on s2 ra)))
      as [Hbad|_]; [cbn [pos on] in Hbad; lia|].
    rewrite (cursor_cur _ _ _ _ _ Hc1) in H. rewrite (cursor_cur _ _ _ _ _ Hc2).
    cbn [mbind result_bind] in *.
    assert (∀ P, src r' = s1 ∧ same_contents h1 h2 v ∧ P →
                 src r' = s1 ∧ pos r < N.of_nat (List.length text)
                 ∧ same_contents h1 h2 v ∧ P) as Hfrom.
    { intros P (? & ? & ?). split; [done|]. split; [lia|done]. }
    assert (∀ n kw v0,
      Forall (λ c, closer c = false ∧ c ≠ NUL) (list_ascii_of_string kw) →
      same_contents h1 h2 v0 →
      parse_literal h1 ra n kw v0 = Ok (v, r') →
      src r' = s1 ∧ same_contents h1 h2 v
      ∧ parse_literal h2 (on s2 ra) n kw v0 = Ok (v, on s2 r')) as Hlit.
    { intros n kw v0 Hkw Hv0 Hl.
      destruct (parse_literal_src h1 _ _ _ _ _ _ Hl) as [Hv _].
      destruct (parse_literal_cut _ _ _ _ _ _ Hsa Hkw Hl) as [? ?].
      split; [done|]. split; [by rewrite Hv|done]. }
    apply Hfrom. repeat case_match.
    + apply (Hlit 4 "null"%string Null Hnull); [by eexists|done].
    + apply (Hlit 4 "true"%string (Bool true) Htrue); [by eexists|done].
    + apply (Hlit 5 "false"%string (Bool false) Hfalse); [by eexists|done].
    + assert (c = "034"%char) as -> by by apply Ascii.eqb_eq.
      by eapply parse_string_cut.
    + by eapply (parse_array_cut _ _ IH).
    + by eapply (parse_object_cut _ _ IH).
    + by eapply parse_number_cut.
  - destruct (N.leb_spec (N.of_nat (List.length (text ++ cs))) (pos ra))
      as [|_]; [done|].
    rewrite (cursor_cur _ _ _ _ _ Hc1) in H. cbn [mbind result_bind] in H.
    destruct (parse_number_closer h1 ra _ c cs2 Hc1 Hcl) as [e He].
    unfold closer, char_eqb in Hcl.
    apply orb_true_iff in Hcl as [Hcl|Hcl]; apply Ascii.eqb_eq in Hcl;
      subst c; simpl in H; congruence.
  - by destruct (N.leb_spec (N.of_nat (List.length (text ++ cs))) (pos ra))
      as [|Hbad]; [|lia].
Qed.

End truncation.

Section more_fuel.
Import cow_string json_reader.
Context (h : heap).

Lemma runs_OutOfFuel {A} : ¬ runs (@OutOfFuel A).
Proof. by intros H. Qed.

Section loops_more_fuel.
Context (pv pv' : json_reader → result (Value * json_reader)).
Hypothesis pv_more : ∀ r, runs (pv r) → pv' r = pv r.

Lemma parse_array_loop_more n : ∀ n' r arr,
  runs (parse_array_loop h pv n r arr) → (n ≤ n')%nat →
  parse_array_loop h pv' n' r arr = parse_array_loop h pv n r arr.
Proof.
  induction n as [|n IH]; intros n' r arr Hr Hn; [by apply runs_OutOfFuel in Hr|].
  destruct n' as [|n']; [lia|]. cbn [parse_array_loop] in *.
  destruct (before_char h r "]"%char) as [[]| | |]; cbn in *; try done.
  assert (runs (pv r)) as Hv by (intros E; by rewrite E in Hr).
  rewrite (pv_more _ Hv).
  destruct (pv r) as [[value ra]| | |]; cbn in *; try done.
  destruct (after_element h ra) as [rb| | |]; cbn in *; try done.
  apply IH; [done|lia].
Qed.

Lemma parse_object_loop_more n : ∀ n' r obj,
  runs (parse_object_loop h pv n r obj) → (n ≤ n')%nat →
  parse_object_loop h pv' n' r obj = parse_object_loop h pv n r obj.
Proof.
  induction n as [|n IH]; intros n' r obj Hr Hn; [by apply runs_OutOfFuel in Hr|].
  destruct n' as [|n']; [lia|]. cbn [parse_object_loop] in *.
  destruct (before_char h r "}"%char) as [[]| | |]; cbn in *; try done.
  assert (parse_entry h pv' r = parse_entry h pv r
          ∧ runs (parse_entry h pv r)) as [-> He].
  { split; [|intros E; by rewrite E in Hr].
    unfold parse_entry in *.
    assert (runs (pv r)) as Hv by (intros E; by rewrite E in Hr).
    rewrite (pv_more _ Hv).
    destruct (pv r) as [[key ra]| | |]; cbn in *; try done.
    destruct key; try done.
    destruct (at_char h ra ":"%char) as [[]| | |]; cbn in *; try done.
    assert (runs (pv (with_pos ra (size_add (pos ra) 1)))) as Hv2
      by (intros E; by rewrite E in Hr).
    by rewrite (pv_more _ Hv2). }
  destruct (parse_entry h pv r) as [[[key value] ra]| | |]; cbn in *; try done.
  destruct (map_assign h obj key value) as [obj'| | |]; cbn in *; try done.
  apply IH; [done|lia].
Qed.

End loops_more_fuel.

(** More fuel does not change what [parse_value] returns or throws. *)
Lemma parse_value_more fuel : ∀ fuel' r,
  runs (parse_value h fuel r) → (fuel ≤ fuel')%nat →
  parse_value h fuel' r = parse_value h fuel r.
Proof.
  induction fuel as [|fuel IH]; intros fuel' r Hr Hf;
    [by apply runs_OutOfFuel in Hr|].
  destruct fuel' as [|fuel']; [lia|]. rewrite !parse_value_S in *.
  destruct (skip_whitespace h r) as [ra| | |]; cbn in *; try done.
  destruct (size (src ra) <=? pos ra); [done|].
  destruct (cur h ra) as [c| | |]; cbn in *; try done.
  assert (∀ r, runs (parse_value h fuel r) →
               parse_value h fuel' r = parse_value h fuel r) as Hpv
    by (intros; apply IH; [done|lia]).
  repeat case_match; try done.
  - unfold parse_array in *.
    destruct (skip_whitespace h _) as [rb| | |]; cbn in *; try done.
    apply parse_array_loop_more; [done..|lia].
  - unfold parse_object in *.
    destruct (skip_whitespace h _) as [rb| | |]; cbn in *; try done.
    apply parse_object_loop_more; [done..|lia].
Qed.

End more_fuel.

(** A text that parses still parses, to the same tree, when the closing
    brackets and braces at its end are left out. *)
Lemma closers_left_out text cs v :
  Forall (λ c, closer c = true) cs →
  2 * N.of_nat (List.length (text ++ cs)) + 2 ≤ npos →
  parse_text (text ++ cs) = Ok v →
  parse_text text = Ok v
  ∧ ∃ t, parsed (text ++ cs) = Ok t ∧ parsed text = Ok t.
Proof.
  intros Hcs Hroom H.
  assert (N.of_nat (List.length text) < npos
          ∧ N.of_nat (List.length (text ++ cs)) < npos) as [Hl2 Hl1]
    by (rewrite length_app in *; lia).
  pose proof (text_reader_reads _ Hl1) as Hfull.
  pose proof (text_reader_reads _ Hl2) as Hshort.
  assert (parse_text text = Ok v
          ∧ same_contents (text_heap (text ++ cs)) (text_heap text) v)
    as [Hv (t & Ht1 & Ht2)].
  { unfold parse_text, json_reader.parse in H.
    bind_inv H as [v' r'] Hv. injection H as ->.
    apply (parse_value_cut _ (text_heap text) _
             (json_reader.src (text_reader text)) text cs Hfull Hshort
             eq_refl Hcs) in Hv as (_ & _ & Hsame & Hv); [|done].
    split; [|done].
    unfold parse_text, json_reader.parse.
    set (r2 := {| json_reader.src := json_reader.src (text_reader text);
                  json_reader.pos := 0; json_reader.row := 1;
                  json_reader.column := 0 |}) in *.
    assert (json_reader.fuel_of r2 = S (List.length text)) as Hfuel
      by (unfold json_reader.fuel_of; simpl; lia).
    assert (runs (json_reader.parse_value (text_heap text)
                    (json_reader.fuel_of r2) r2)) as Hruns.
    { rewrite length_app in Hroom.
      apply (parse_value_runs _ text); rewrite ?Hfuel;
        [lia|exact Hshort|simpl; lia|simpl; lia]. }
    match type of Hv with
    | json_reader.parse_value _ ?f _ = ?res =>
        assert (json_reader.parse_value (text_heap text) f r2 = res) as Hv2
          by exact Hv;
        rewrite <- (parse_value_more _ _ f _ Hruns)
    end.
    - by rewrite Hv2.
    - rewrite Hfuel. unfold json_reader.fuel_of. simpl.
      rewrite length_app. lia. }
  split; [done|]. exists t. unfold parsed. by rewrite H, Hv.
Qed.

(** C9, as amended.  When the input is used up where the loop of
    [parse_array] or [parse_object] looks for the closing byte, the loop
    returns the container that it has built, and no error is raised: this
    is so at the start of a turn, and after an element or an entry that
    ends the input.  So a text that parses still parses, to the same tree,
    when the closing brackets and braces at its end are left out. *)
Theorem end_of_input_closes :
  (∀ h pv n r,
     cow_string.size (json_reader.src r) ≤ json_reader.pos r →
     (∀ arr, json_reader.parse_array_loop h pv (S n) r arr
             = Ok (Array arr,
                   json_reader.with_pos r (size_add (json_reader.pos r) 1)))
     ∧ (∀ obj, json_reader.parse_object_loop h pv (S n) r obj
               = Ok (Object obj,
                     json_reader.with_pos r (size_add (json_reader.pos r) 1))))
  ∧ (∀ h pv n r arr value r1,
       json_reader.before_char h r "]"%char = Ok true →
       pv r = Ok (value, r1) →
       cow_string.size (json_reader.src r1) ≤ json_reader.pos r1 →
       json_reader.parse_array_loop h pv (S (S n)) r arr
       = Ok (Array (arr ++ [value]),
             json_reader.with_pos r1 (size_add (json_reader.pos r1) 1)))
  ∧ (∀ h pv n r obj key value r1 obj1,
       json_reader.before_char h r "}"%char = Ok true →
       json_reader.parse_entry h pv r = Ok (key, value, r1) →
       cow_string.size (json_reader.src r1) ≤ json_reader.pos r1 →
       map_assign h obj key value = Ok obj1 →
       json_reader.parse_object_loop h pv (S (S n)) r obj
       = Ok (Object obj1,
             json_reader.with_pos r1 (size_add (json_reader.pos r1) 1)))
  ∧ (∀ text cs v,
       Forall (λ c, closer c = true) cs →
       2 * N.of_nat (List.length (text ++ cs)) + 2 ≤ npos →
       parse_text (text ++ cs) = Ok v →
       parse_text text = Ok v
       ∧ ∃ t, parsed (text ++ cs) = Ok t ∧ parsed text = Ok t).
Proof.
  split_and!.
  - intros h pv n r. apply loops_close_at_end.
  - intros h pv n r. apply loops_close_at_end.
  - intros h pv n r. apply loops_close_at_end.
  - apply closers_left_out.
Qed.

(** The text [[1,2] without its closing bracket: after the element 2 the
    input is used up and the array of the two elements is returned.  The
    text [[1,[2]]] without its two closing brackets, and more texts that
    end before the closing byte. *)
Lemma end_of_input_closes_witness :
  json_reader.parse_array_loop (text_heap (str "[1,2"))
    (json_reader.parse_value (text_heap (str "[1,2")) 4) 2
    (json_reader.with_pos (text_reader (str "[1,2")) 3) [Integer 1]
  = Ok (Array [Integer 1; Integer 2],
        json_reader.with_pos (text_reader (str "[1,2")) 5)
  ∧ (parse_text (str "[1,[2") = parse_text (str "[1,[2]]")
     ∧ ∃ t, parsed (str "[1,[2]]") = Ok t ∧ parsed (str "[1,[2") = Ok t)
  ∧ parse_text (str "[1,2") = Ok (Array [Integer 1; Integer 2])
  ∧ parse_text (str "[1,") = Ok (Array [Integer 1])
  ∧ parse_text (str "[") = Ok (Array [])
  ∧ parse_text (str "{") = Ok (Object [])
  ∧ parse_text (str "[[1,[") = Ok (Array [Array [Integer 1; Array []]])
  ∧ parsed (lit "{'a':1") = Ok (TObject [(str "a", TInteger 1)])
  ∧ parsed (lit "{'a':[1,{'b':null") =
    Ok (TObject [(str "a", TArray [TInteger 1; TObject [(str "b", TNull)]])]).
Proof.
  split; [|split; [|split_and!; vm_compute; reflexivity]].
  - apply (proj1 (proj2 end_of_input_closes) (text_heap (str "[1,2"))
             (json_reader.parse_value (text_heap (str "[1,2")) 4) 0%nat
             (json_reader.with_pos (text_reader (str "[1,2")) 3)
             [Integer 1] (Integer 2)
             (json_reader.with_pos (text_reader (str "[1,2")) 4)).
    + vm_compute. reflexivity.
    + vm_compute. reflexivity.
    + vm_compute. discriminate.
  - destruct (proj2 (proj2 (proj2 end_of_input_closes))
                (str "[1,[2") (str "]]")
                (Array [Integer 1; Array [Integer 2]])) as [Hv Ht].
    + repeat constructor.
    + vm_compute. discriminate.
    + vm_compute. reflexivity.
    + split; [|destruct Ht as (t & Ht1 & Ht2); by exists t].
      rewrite Hv. vm_compute. reflexivity.
Defined.

(** C9 as stated fails: these inputs end before the closing byte of their
    object or array, inside an entry or an element, and the parse throws. *)
Lemma end_of_input_inside_element :
  parse_text (lit "{'a':") = Throw UnexpectedEnd
  ∧ parse_text (lit "{'a'") = Throw (ExpectedColon 4 NUL)
  ∧ parse_text (lit "['a") = Throw (ExpectedQuote 2 "a"%char)
  ∧ parse_text (lit "[1,tru") = Throw (IllegalToken "t"%char 3).
Proof. split_and!; vm_compute; reflexivity. Qed.

(** * More of the code *)

(** ** The views of [cow_string] *)

Section more_views.
Import cow_string.
Context (h : heap).
Implicit Types (s : cow_string) (a w b : list char).

Lemma holds_cut s a w b p :
  holds h s a w b → (p ≤ List.length w)%nat →
  holds h s a (take p w ++ drop p w) b ∧ List.length (take p w) = p.
Proof.
  intros Hs Hp. rewrite take_drop. split; [done|]. rewrite length_take. lia.
Qed.

(** X1. [find] gives the first index at or after [pos] whose byte is [c],
    counted from the start of the view, and [npos] when the view has no
    such byte from [pos] on (so also when [pos] is past the end). *)
Theorem find_first_occurrence s a w b c p :
  holds h s a w b →
  (c ∉ drop p w → find h s c (N.of_nat p) = Ok npos)
  ∧ (∀ k rest, drop p w = k ++ c :: rest → c ∉ k →
       find h s c (N.of_nat p) = Ok (N.of_nat (p + List.length k))).
Proof.
  intros Hs. destruct (decide (p ≤ List.length w)%nat) as [Hp|Hp].
  - destruct (holds_cut s a w b p Hs Hp) as [Hs' Hlen]. split.
    + intros Hc. rewrite <- Hlen at 1. by eapply holds_find_none.
    + intros k rest Hd Hk. rewrite Hd in Hs'.
      rewrite <- Hlen at 1. erewrite holds_find; [|done..].
      by rewrite length_app, Hlen.
  - rewrite drop_ge by lia. split.
    + intros _. unfold find. destruct Hs as (_ & _ & -> & _).
      by replace (N.to_nat _) with 0%nat by lia.
    + intros k rest Hd. by destruct k.
Qed.

(** X2. [operator==] against a C string compares the bytes of the view,
    whatever else the block holds around them; a different length is a
    [false] that reads nothing. *)
Theorem equality_compares_window s a w b other :
  holds h s a w b →
  eq_cstr h s other = Ok (bool_decide (w = other))
  ∧ (List.length w ≠ List.length other → eq_cstr h s other = Ok false).
Proof.
  intros Hs. split; [by eapply holds_eq_cstr|].
  intros Hlen. erewrite holds_eq_cstr by done.
  rewrite bool_decide_eq_false_2; [done|]. by intros ->.
Qed.

(** X3. [operator<] is the lexicographic order of the bytes of the two
    views, taken as unsigned, a proper prefix first: a strict order whose
    equivalence is the equality of the bytes, as [std::map] needs. *)
Theorem less_is_strict_order s1 s2 s3 w1 w2 w3 :
  window h s1 = Ok w1 → window h s2 = Ok w2 → window h s3 = Ok w3 →
  lt h s1 s2 = Ok (bytes_lt w1 w2)
  ∧ lt h s1 s1 = Ok false
  ∧ (lt h s1 s2 = Ok true → lt h s2 s1 = Ok false)
  ∧ (lt h s1 s2 = Ok true → lt h s2 s3 = Ok true → lt h s1 s3 = Ok true)
  ∧ (lt h s1 s2 = Ok false → lt h s2 s1 = Ok false → w1 = w2).
Proof.
  intros H1 H2 H3.
  rewrite (window_lt h _ _ _ _ H1 H2), (window_lt h _ _ _ _ H1 H1),
    (window_lt h _ _ _ _ H2 H1), (window_lt h _ _ _ _ H2 H3),
    (window_lt h _ _ _ _ H1 H3).
  split_and!; [done|by rewrite bytes_lt_irrefl|..].
  - intros [= H]. by rewrite (bytes_lt_asym _ _ H).
  - intros [= Ha] [= Hb]. by rewrite (bytes_lt_trans _ _ _ Ha Hb).
  - intros [= Ha] [= Hb]. by apply bytes_lt_total.
Qed.

Lemma holds_slice s a w b o n :
  holds h s a w b → (o + n ≤ List.length w)%nat →
  holds h (substr s (N.of_nat o) (N.of_nat n))
    (a ++ take o w) (take n (drop o w)) (drop n (drop o w) ++ b).
Proof.
  intros Hs Ho.
  pose proof (holds_substr h s a (take o w) (take n (drop o w))
                (drop n (drop o w)) b) as H.
  rewrite !take_drop in H. specialize (H Hs).
  rewrite !length_take, length_drop in H.
  by replace (o `min` List.length w)%nat with o in H by lia;
     replace (n `min` (List.length w - o))%nat with n in H by lia.
Qed.

(** X4. The view that [substr] gives shows the bytes [off .. off+count)
    of the view it is taken from, and a slice of a slice is the slice of
    the sum of the offsets. *)
Theorem substr_window s a w b o n o' n' :
  holds h s a w b →
  (o + n ≤ List.length w)%nat → (o' + n' ≤ n)%nat →
  window h (substr s (N.of_nat o) (N.of_nat n)) = Ok (take n (drop o w))
  ∧ window h (substr (substr s (N.of_nat o) (N.of_nat n))
                (N.of_nat o') (N.of_nat n'))
    = Ok (take n' (drop (o + o') w))
  ∧ substr (substr s (N.of_nat o) (N.of_nat n)) (N.of_nat o') (N.of_nat n')
    = substr s (N.of_nat (o + o')) (N.of_nat n').
Proof.
  intros Hs Ho Ho'. pose proof (holds_slice s a w b o n Hs Ho) as H1.
  split_and!.
  - by eapply holds_window.
  - apply (holds_slice _ _ _ _ o' n') in H1;
      [|rewrite length_take, length_drop; lia].
    rewrite (holds_window h _ _ _ _ H1). f_equal.
    rewrite skipn_firstn_comm, take_take, drop_drop.
    f_equal. lia.
  - destruct Hs as (_ & Hoff & _ & Hn). unfold substr. cbn [offset storage].
    rewrite !length_app in Hn. f_equal. rewrite Hoff.
    rewrite (size_add_small (N.of_nat (List.length a)) (N.of_nat o))
      by (unfold npos in Hn; rewrite size_max_eq in *; lia).
    size_simpl. lia.
Qed.

Lemma until_nul_before w rest :
  until_nul (w ++ NUL :: rest) = Ok (before_nul w).
Proof.
  induction w as [|c w IH]; [done|]. simpl.
  destruct (char_eqb c NUL); [done|]. by rewrite IH.
Qed.

Lemma c_str_cases s a w b :
  holds h s a w b →
  (a = [] → head b = Some NUL → c_str h s = Ok (h, s, before_nul w))
  ∧ (a ≠ [] ∨ (∃ c, head b = Some c ∧ c ≠ NUL) →
     c_str h s
     = Ok (<[fresh (dom h) := w ++ [NUL]]> h,
           {| offset := 0; length := length s; storage := fresh (dom h) |},
           before_nul w))
  ∧ (a = [] → b = [] → c_str h s = Undefined).
Proof.
  intros Hs. pose proof Hs as (Hblk & Ho & Hl & Hn).
  rewrite !length_app in Hn.
  assert ((0 < List.length a + List.length b)%nat →
          copy h s ≫= (λ '(h, s),
            c_string h (storage s) (offset s) ≫= λ cs, Ok (h, s, cs))
          = Ok (<[fresh (dom h) := w ++ [NUL]]> h,
                {| offset := 0; length := length s; storage := fresh (dom h) |},
                before_nul w)) as Hcopy.
  { intros Hab. unfold copy. rewrite Hl. size_simpl.
    destruct (N.leb_spec (N.of_nat (List.length w) + 1) (N.of_nat (List.length w)));
      [lia|].
    rewrite (holds_window h _ _ _ _ Hs). cbn [mbind result_bind].
    unfold c_string. cbn [storage offset]. rewrite lookup_insert_eq.
    change (drop (N.to_nat 0) (w ++ [NUL])) with (w ++ [NUL]).
    by rewrite until_nul_before. }
  split_and!.
  - intros -> Hb. destruct b as [|c b]; simplify_eq/=.
    unfold c_str. rewrite Ho, Hl. simpl. size_simpl. rewrite N.add_0_l.
    erewrite load_block; [|done|by apply list_lookup_middle].
    cbn [mbind result_bind]. unfold char_eqb. rewrite Ascii.eqb_refl.
    unfold c_string. rewrite Hblk.
    change (drop (N.to_nat 0) (w ++ NUL :: b)) with (w ++ NUL :: b).
    by rewrite until_nul_before.
  - intros Hcase. unfold c_str.
    destruct (N.eqb_spec (offset s) 0) as [Hz|Hnz];
      [|apply Hcopy; destruct a; [simpl in Ho; lia|simpl; lia]].
    rewrite Hz in Ho. destruct a as [|? a]; [|simpl in Ho; lia].
    destruct Hcase as [|(c & Hb & Hc)]; [done|].
    destruct b as [|c' b]; simplify_eq/=.
    specialize (Hcopy ltac:(lia)).
    rewrite Hz, Hl. size_simpl. rewrite N.add_0_l.
    erewrite load_block; [|done|by apply list_lookup_middle].
    cbn [mbind result_bind]. unfold char_eqb.
    destruct (Ascii.eqb_spec c NUL) as [->|_]; [done|].
    rewrite Hl in Hcopy. exact Hcopy.
  - intros -> ->. unfold c_str. rewrite Ho, Hl. simpl. size_simpl.
    rewrite N.add_0_l. unfold load. rewrite Hblk, Nat2N.id. simpl.
    rewrite app_nil_r. by rewrite lookup_ge_None_2.
Qed.

(** X5. [c_str] hands out the block itself, without a copy, when the view
    starts the block and a terminator follows it; any other view is first
    copied to a block of its own, and the old block stays as it is.  The C
    string is the view up to its first NUL.  A view that starts the block
    and ends it is read one byte past the block. *)
Theorem c_str_copies_unless_whole s a w b :
  holds h s a w b →
  (a = [] → head b = Some NUL → c_str h s = Ok (h, s, before_nul w))
  ∧ (a ≠ [] ∨ (∃ c, head b = Some c ∧ c ≠ NUL) →
     c_str h s
     = Ok (<[fresh (dom h) := w ++ [NUL]]> h,
           {| offset := 0; length := length s; storage := fresh (dom h) |},
           before_nul w))
  ∧ (a = [] → b = [] → c_str h s = Undefined).
Proof. apply c_str_cases. Qed.

End more_views.

Lemma find_first_occurrence_witness :
  cow_string.find (text_heap (str "hello"))
    (json_reader.src (text_reader (str "hello"))) "l"%char 1 = Ok 2
  ∧ cow_string.find (text_heap (str "hello"))
      (json_reader.src (text_reader (str "hello"))) "h"%char 1 = Ok npos.
Proof.
  pose proof (text_reader_reads (str "hello") eq_refl) as Hs.
  destruct (find_first_occurrence _ _ _ _ _ "l"%char 1 Hs) as [_ Hl].
  destruct (find_first_occurrence _ _ _ _ _ "h"%char 1 Hs) as [Hh _].
  split.
  - apply (Hl (str "e") (str "lo")); [reflexivity|].
    intros H. apply list_elem_of_singleton in H. discriminate.
  - apply Hh. vm_compute. intros H.
    repeat (apply elem_of_cons in H as [H|H]; [discriminate|]).
    by apply elem_of_nil in H.
Defined.

Lemma equality_compares_window_witness :
  cow_string.eq_cstr (text_heap (str "null"))
    (json_reader.src (text_reader (str "null"))) (str "null") = Ok true
  ∧ cow_string.eq_cstr (text_heap (str "null"))
      (json_reader.src (text_reader (str "null"))) (str "nul") = Ok false.
Proof.
  pose proof (text_reader_reads (str "null") eq_refl) as Hs.
  split.
  - apply (proj1 (equality_compares_window _ _ _ _ _ (str "null") Hs)).
  - apply (proj2 (equality_compares_window _ _ _ _ _ (str "nul") Hs)).
    discriminate.
Defined.

Lemma less_is_strict_order_witness :
  cow_string.lt (text_heap (str "abc"))
    (cow_string.substr (json_reader.src (text_reader (str "abc"))) 0 1)
    (cow_string.substr (json_reader.src (text_reader (str "abc"))) 0 2)
  = Ok true.
Proof.
  apply (proj1 (less_is_strict_order (text_heap (str "abc"))
                  (cow_string.substr (json_reader.src (text_reader (str "abc"))) 0 1)
                  (cow_string.substr (json_reader.src (text_reader (str "abc"))) 0 2)
                  (cow_string.substr (json_reader.src (text_reader (str "abc"))) 1 2)
                  (str "a") (str "ab") (str "bc")
                  eq_refl eq_refl eq_refl)).
Defined.

Lemma substr_window_witness :
  cow_string.window (text_heap (str "hello world"))
    (cow_string.substr
       (cow_string.substr (json_reader.src (text_reader (str "hello world"))) 6 5)
       1 3)
  = Ok (str "orl").
Proof.
  pose proof (text_reader_reads (str "hello world") eq_refl) as Hs.
  apply (proj1 (proj2 (substr_window _ _ _ _ _ 6 5 1 3 Hs
                         ltac:(vm_compute; lia) ltac:(lia)))).
Defined.

Lemma c_str_copies_unless_whole_witness :
  (∃ cs, cow_string.c_str (text_heap (str "hello"))
           (json_reader.src (text_reader (str "hello")))
         = Ok (text_heap (str "hello"),
               json_reader.src (text_reader (str "hello")), cs)
         ∧ cs = str "hello").
Proof.
  pose proof (text_reader_reads (str "hello") eq_refl) as Hs.
  exists (str "hello"). split; [|done].
  apply (proj1 (c_str_copies_unless_whole _ _ _ _ _ Hs) eq_refl eq_refl).
Defined.

(** ** Writes through [char_proxy] *)

Section more_cow.
Import cow_string memory.

Lemma store_block h p blk i c :
  h !! p = Some blk → (i < List.length blk)%nat →
  store h p (N.of_nat i) c = Ok (<[p := <[i := c]> blk]> h).
Proof.
  intros Hb Hi. unfold store. rewrite Hb, Nat2N.id.
  by destruct (Nat.ltb_spec i (List.length blk)); [|lia].
Qed.

Lemma store_dom h p i c h' : store h p i c = Ok h' → dom h' = dom h.
Proof.
  unfold store. destruct (h !! p) as [blk|] eqn:Hb; [|done].
  destruct (_ <? _)%nat; [|done]. intros [= <-].
  rewrite dom_insert_L. apply elem_of_dom_2 in Hb.
  apply subseteq_union_1_L. by apply singleton_subseteq_l.
Qed.

Lemma store_other h p i c h' q : store h p i c = Ok h' → q ≠ p → h' !! q = h !! q.
Proof.
  unfold store. destruct (h !! p) as [blk|] eqn:Hb; [|done].
  destruct (_ <? _)%nat; [|done]. intros [= <-] Hq.
  by rewrite lookup_insert_ne.
Qed.

(** The write when no other object points to the block. *)
Lemma assign_alone m x sx index c :
  strings m !! x = Some sx →
  (use_count m (storage sx) ≤ 1)%nat →
  assign m x index c
  = h ← store (blocks m) (storage sx) (size_add (offset sx) index) c;
    Ok {| blocks := h; strings := strings m |}.
Proof.
  intros Hx Hc. unfold assign, get. rewrite Hx. cbn [mbind result_bind].
  destruct (Nat.ltb_spec 1 (use_count m (storage sx))) as [|_]; [lia|].
  cbn [mbind result_bind]. by rewrite Hx.
Qed.

(** X6. After [x[i] = c] the string [x] shows its bytes with [c] at the
    place [i], and its length is what it was: the copy that a shared block
    needs first is a copy of the view of [x], and the write goes to the
    same place of the copy. *)
Theorem write_then_read m x s a w b i c :
  strings m !! x = Some s → holds (blocks m) s a w b →
  (i < List.length w)%nat → N.of_nat (List.length w) < npos →
  ∃ m' s', assign m x (N.of_nat i) c = Ok m'
           ∧ strings m' !! x = Some s'
           ∧ length s' = length s
           ∧ window (blocks m') s' = Ok (<[i := c]> w)
           ∧ read m' x (N.of_nat i) = Ok c.
Proof.
  intros Hx Hs Hi Hw. pose proof Hs as (Hblk & Ho & Hl & Hn).
  rewrite !length_app in Hn.
  assert (∀ h' s' a' b',
    holds h' s' a' (<[i := c]> w) b' →
    at_ h' s' (N.of_nat i) = Ok c) as Hat.
  { intros h' s' a' b' H'. eapply holds_at; [done|].
    rewrite lookup_app_l by (rewrite length_insert; lia).
    by apply list_lookup_insert_eq. }
  destruct (decide (use_count m (storage s) ≤ 1)%nat) as [Hc|Hc].
  - rewrite (assign_alone m x s _ c Hx Hc). rewrite Ho.
    rewrite size_add_small
      by (unfold npos in *; rewrite size_max_eq in *; lia).
    replace (N.of_nat (List.length a) + N.of_nat i)
      with (N.of_nat (List.length a + i)) by lia.
    rewrite (store_block _ _ _ _ c Hblk)
      by (rewrite !length_app; lia).
    cbn [mbind result_bind]. eexists _, s. split; [done|].
    assert (holds (<[storage s := <[(List.length a + i)%nat := c]> (a ++ w ++ b)]>
                     (blocks m)) s a (<[i := c]> w) b) as Hs'.
    { split_and!; [|done|by rewrite length_insert|
                   by rewrite !length_app, length_insert].
      rewrite lookup_insert_eq. f_equal.
      rewrite insert_app_r_alt by lia.
      replace (List.length a + i - List.length a)%nat with i by lia.
      by rewrite insert_app_l by lia. }
    cbn [strings blocks]. split_and!; [done|done|by eapply holds_window|].
    unfold read, get. cbn [strings blocks]. rewrite Hx.
    cbn [mbind result_bind]. by eapply Hat.
  - unfold assign, get. rewrite Hx. cbn [mbind result_bind].
    destruct (Nat.ltb_spec 1 (use_count m (storage s))) as [_|]; [|lia].
    unfold memory.copy, get. rewrite Hx. cbn [mbind result_bind].
    unfold cow_string.copy. rewrite Hl.
    rewrite size_add_small
      by (unfold npos in *; rewrite size_max_eq in *; lia).
    destruct (N.leb_spec (N.of_nat (List.length w) + 1) (N.of_nat (List.length w)));
      [lia|].
    rewrite <- Hl. rewrite (holds_window _ _ _ _ _ Hs).
    cbn [mbind result_bind].
    set (p := fresh (dom (blocks m))).
    set (s' := {| offset := 0; length := length s; storage := p |}).
    assert (x < List.length (strings m))%nat as Hlen
      by by eapply lookup_lt_Some.
    assert (p ≠ storage s) as Hp.
    { intros Hp. assert (is_Some (blocks m !! p)) as Hsome by (rewrite Hp; eauto).
      apply elem_of_dom in Hsome. by apply is_fresh in Hsome. }
    set (m1 := release _ _).
    assert (strings m1 = <[x := s']> (strings m)
            ∧ blocks m1 !! p = Some (w ++ [NUL])) as [Hstr Hb1].
    { unfold m1, release. case_decide; cbn [strings blocks]; (split; [done|]).
      - by rewrite lookup_delete_ne, lookup_insert_eq.
      - by rewrite lookup_insert_eq. }
    rewrite Hstr, list_lookup_insert_eq by done. cbn [mbind result_bind].
    cbn [storage offset s']. rewrite size_add_small
      by (unfold npos in *; rewrite size_max_eq in *; lia).
    rewrite N.add_0_l.
    rewrite (store_block _ _ _ _ c Hb1) by (rewrite length_app; simpl; lia).
    cbn [mbind result_bind]. eexists _, s'. split; [done|].
    cbn [strings blocks]. rewrite list_lookup_insert_eq by done.
    assert (holds (<[p := <[i := c]> (w ++ [NUL])]> (blocks m1)) s'
              [] (<[i := c]> w) [NUL]) as Hs'.
    { split_and!.
      - rewrite lookup_insert_eq. by rewrite insert_app_l by lia.
      - done.
      - cbn [length s']. by rewrite length_insert.
      - simpl. rewrite length_app, length_insert. simpl. lia. }
    split_and!; [done|done|by eapply holds_window|].
    unfold read, get. cbn [strings blocks].
    rewrite list_lookup_insert_eq by done.
    cbn [mbind result_bind]. by eapply Hat.
Qed.

(** X7. A write through one string changes what no other string reads:
    a shared block is cloned first, and a block that is written in place
    has no other owner. *)
Theorem write_leaves_others m x y index c m' :
  live m → x ≠ y → assign m x index c = Ok m' →
  ∀ j, read m' y j = read m y j.
Proof.
  intros Hlive Hxy Ha j.
  destruct (strings m !! x) as [sx|] eqn:Hx;
    [|by unfold assign, get in Ha; rewrite Hx in Ha].
  destruct (decide (use_count m (storage sx) ≤ 1)%nat) as [Hc|Hc].
  - rewrite (assign_alone m x sx _ c Hx Hc) in Ha.
    bind_inv Ha as h' Hst. injection Ha as <-.
    unfold read, get. cbn [strings blocks].
    destruct (strings m !! y) as [sy|] eqn:Hy; [|done].
    cbn [mbind result_bind]. unfold at_, load.
    rewrite (store_other _ _ _ _ _ (storage sy) Hst); [done|].
    intros Hs. pose proof (use_count_shared m x y sx sy Hxy Hx Hy) as H2.
    rewrite Hs in H2. specialize (H2 eq_refl). lia.
  - destruct (assign_shared m x sx index c m' Hx ltac:(lia) Ha)
      as (w & blk & _ & Hstr & Hblk).
    unfold read, get. rewrite Hstr, Hblk.
    rewrite list_lookup_insert_ne by done.
    destruct (strings m !! y) as [sy|] eqn:Hy; [|done].
    cbn [mbind result_bind]. unfold at_, load.
    rewrite lookup_insert_ne; [done|].
    symmetry. apply fresh_block. apply Hlive.
    apply list_elem_of_lookup. eauto.
Qed.

(** X8. Copy-on-write copies only when it has to: a string that is the
    only owner of its block is written in place (no block comes or goes,
    the string keeps its block); a string on a shared block moves to a new
    block, and the old block keeps its bytes. *)
Theorem write_clones_iff_shared m x s index c m' :
  strings m !! x = Some s → assign m x index c = Ok m' →
  ((use_count m (storage s) ≤ 1)%nat →
   strings m' = strings m ∧ dom (blocks m') = dom (blocks m))
  ∧ ((2 ≤ use_count m (storage s))%nat →
     ∃ s', strings m' !! x = Some s'
           ∧ storage s' = fresh (dom (blocks m))
           ∧ (storage s' ∉ dom (blocks m))
           ∧ (is_Some (blocks m !! storage s) →
              blocks m' !! storage s = blocks m !! storage s)).
Proof.
  intros Hx Ha. split.
  - intros Hc. rewrite (assign_alone m x s _ c Hx Hc) in Ha.
    bind_inv Ha as h' Hst. injection Ha as <-. split; [done|].
    by eapply store_dom.
  - intros Hc.
    destruct (assign_shared m x s index c m' Hx Hc Ha)
      as (w & blk & _ & Hstr & Hblk).
    eexists. rewrite Hstr, Hblk.
    rewrite list_lookup_insert_eq by by eapply lookup_lt_Some.
    split; [done|]. cbn [storage]. split; [done|]. split; [apply is_fresh|].
    intros Hsome. rewrite lookup_insert_ne; [done|].
    symmetry. by apply fresh_block.
Qed.

(** X9. No operation leaves a string without its block: the constructor,
    the copy constructor, [substr] and the write keep every object on a
    live block. *)
Theorem live_is_kept m :
  live m →
  (∀ view, live (construct m view))
  ∧ (∀ x m', copy_construct m x = Ok m' → live m')
  ∧ (∀ x off count m', memory.substr m x off count = Ok m' → live m')
  ∧ (∀ x index c m', assign m x index c = Ok m' → live m').
Proof.
  intros Hlive. split_and!.
  - intros view s Hs. unfold construct, ctor in *. cbn [strings blocks] in *.
    apply elem_of_app in Hs as [Hs|Hs].
    + destruct (Hlive s Hs) as [blk Hb].
      rewrite lookup_insert_ne; [eauto|].
      symmetry. apply fresh_block. eauto.
    + apply list_elem_of_singleton in Hs as ->. cbn [storage].
      rewrite lookup_insert_eq. eauto.
  - intros x m' H. unfold copy_construct, get in H.
    destruct (strings m !! x) as [sx|] eqn:Hx; [|done].
    injection H as <-. intros s Hs. cbn [strings blocks] in *.
    apply elem_of_app in Hs as [Hs|Hs]; [by apply Hlive|].
    apply list_elem_of_singleton in Hs as ->. apply Hlive.
    by eapply list_elem_of_lookup_2.
  - intros x off count m' H. unfold memory.substr, get in H.
    destruct (strings m !! x) as [sx|] eqn:Hx; [|done].
    injection H as <-. intros s Hs. cbn [strings blocks] in *.
    apply elem_of_app in Hs as [Hs|Hs]; [by apply Hlive|].
    apply list_elem_of_singleton in Hs as ->. cbn [storage cow_string.substr].
    apply Hlive. by eapply list_elem_of_lookup_2.
  - intros x index c m' Ha.
    destruct (strings m !! x) as [sx|] eqn:Hx;
      [|by unfold assign, get in Ha; rewrite Hx in Ha].
    destruct (decide (use_count m (storage sx) ≤ 1)%nat) as [Hc|Hc].
    + rewrite (assign_alone m x sx _ c Hx Hc) in Ha.
      bind_inv Ha as h' Hst. injection Ha as <-.
      intros s Hs. cbn [strings blocks] in *.
      apply elem_of_dom. rewrite (store_dom _ _ _ _ _ Hst).
      apply elem_of_dom. by apply Hlive.
    + destruct (assign_shared m x sx index c m' Hx ltac:(lia) Ha)
        as (w & blk & _ & Hstr & Hblk).
      intros s Hs. rewrite Hstr in Hs. rewrite Hblk.
      apply list_elem_of_lookup in Hs as [i Hi].
      destruct (decide (i = x)) as [->|Hne].
      * rewrite list_lookup_insert_eq in Hi by by eapply lookup_lt_Some.
        injection Hi as <-. cbn [storage]. rewrite lookup_insert_eq. eauto.
      * rewrite list_lookup_insert_ne in Hi by done.
        destruct (Hlive s) as [blk' Hb]; [by eapply list_elem_of_lookup_2|].
        rewrite lookup_insert_ne; [eauto|].
        symmetry. apply fresh_block. eauto.
Qed.

End more_cow.

Lemma hello_shared_live : memory.live hello_shared.
Proof.
  intros s Hs. apply list_elem_of_In in Hs. simpl in Hs.
  destruct Hs as [<-|[<-|[]]]; vm_compute; eauto.
Qed.

Lemma write_then_read_witness :
  ∃ m' s', memory.assign hello_shared 1 (N.of_nat 7) "C"%char = Ok m'
           ∧ memory.strings m' !! 1%nat = Some s'
           ∧ cow_string.length s' = 13
           ∧ cow_string.window (memory.blocks m') s' = Ok (str "Hello, Corld!")
           ∧ memory.read m' 1 (N.of_nat 7) = Ok "C"%char.
Proof.
  apply (write_then_read hello_shared 1
           {| cow_string.offset := 0; cow_string.length := 13;
              cow_string.storage := 1%positive |}
           [] (str "Hello, World!") [NUL] 7 "C"%char).
  - reflexivity.
  - split_and!; [reflexivity..|]. vm_compute. discriminate.
  - vm_compute. lia.
  - reflexivity.
Defined.

(** Two strings, each on a block of its own. *)
Lemma write_leaves_others_witness :
  ∃ m m', m = memory.construct
                (memory.construct
                   {| memory.blocks := ∅; memory.strings := [] |} (str "ab"))
                (str "cd")
          ∧ memory.assign m 0 1 "x"%char = Ok m'
          ∧ memory.read m' 0 1 = Ok "x"%char
          ∧ memory.read m' 1 1 = memory.read m 1 1.
Proof.
  eexists _, _. split; [reflexivity|].
  assert (memory.assign
            (memory.construct
               (memory.construct
                  {| memory.blocks := ∅; memory.strings := [] |} (str "ab"))
               (str "cd")) 0 1 "x"%char
          = Ok {| memory.blocks := <[1%positive := str "ax" ++ [NUL]]>
                                     (<[2%positive := str "cd" ++ [NUL]]> ∅);
                  memory.strings :=
                    [ {| cow_string.offset := 0; cow_string.length := 2;
                         cow_string.storage := 1%positive |};
                      {| cow_string.offset := 0; cow_string.length := 2;
                         cow_string.storage := 2%positive |} ] |}) as Ha
    by (vm_compute; reflexivity).
  split; [exact Ha|]. split; [vm_compute; reflexivity|].
  apply (write_leaves_others _ 0 1 1 "x"%char _); [|discriminate|exact Ha].
  intros s Hs. apply list_elem_of_In in Hs. simpl in Hs.
  destruct Hs as [<-|[<-|[]]]; vm_compute; eauto.
Defined.

Lemma write_clones_iff_shared_witness :
  ∃ s', memory.strings hello_written !! 1%nat = Some s'
        ∧ cow_string.storage s' = fresh (dom (memory.blocks hello_shared))
        ∧ (cow_string.storage s' ∉ dom (memory.blocks hello_shared))
        ∧ (is_Some (memory.blocks hello_shared !! 1%positive) →
           memory.blocks hello_written !! 1%positive
           = memory.blocks hello_shared !! 1%positive).
Proof.
  apply (proj2 (write_clones_iff_shared hello_shared 1
                  {| cow_string.offset := 0; cow_string.length := 13;
                     cow_string.storage := 1%positive |}
                  7 "C"%char hello_written eq_refl
                  ltac:(vm_compute; reflexivity))).
  vm_compute. lia.
Defined.

Lemma live_is_kept_witness :
  memory.live (memory.construct hello_shared (str "x"))
  ∧ memory.live hello_written.
Proof.
  pose proof (live_is_kept hello_shared hello_shared_live)
    as (Hc & _ & _ & Ha).
  split; [apply Hc|].
  apply (Ha 1%nat 7 "C"%char). vm_compute. reflexivity.
Defined.

(** ** Whitespace, rows and columns *)

Lemma column_after_plain ws : ∀ col,
  "010"%char ∉ ws → column_after col ws = col + N.of_nat (List.length ws).
Proof.
  induction ws as [|c ws IH]; intros col Hn; simpl; [lia|].
  apply not_elem_of_cons in Hn as [Hc Hn]. unfold char_eqb.
  destruct (Ascii.eqb_spec c "010"%char) as [->|_]; [done|].
  rewrite IH by done. lia.
Qed.

Lemma column_after_line ws1 : ∀ col ws2,
  "010"%char ∉ ws2 →
  column_after col (ws1 ++ "010"%char :: ws2) = 1 + N.of_nat (List.length ws2).
Proof.
  induction ws1 as [|c ws1 IH]; intros col ws2 Hn; simpl.
  - by rewrite column_after_plain.
  - by apply IH.
Qed.

Lemma column_after_le ws : ∀ col,
  column_after col ws ≤ col + N.of_nat (List.length ws).
Proof.
  induction ws as [|c ws IH]; intros col; simpl; [lia|].
  specialize (IH ((if char_eqb c "010"%char then 0 else col) + 1)).
  destruct (char_eqb c "010"%char); lia.
Qed.

Section more_whitespace.
Import cow_string json_reader.
Context (h : heap).

Lemma skip_whitespace_loop_counts ws : ∀ r pre suf,
  cursor h r pre (ws ++ suf) → Forall (λ c, isspace c = true) ws →
  no_space_ahead suf →
  row r + N.of_nat (List.length ws) < size_max →
  column r + N.of_nat (List.length ws) < size_max →
  ∃ r', skip_whitespace_loop h (List.length (ws ++ suf)) r = Ok r'
        ∧ row r' = row r + N.of_nat (newlines ws)
        ∧ column r' = column_after (column r) ws.
Proof.
  pose proof size_max_eq as Hmax.
  induction ws as [|c ws IH]; intros r pre suf Hc Hws Hs Hrow Hcol.
  - exists r. split_and!; [|unfold newlines; simpl; lia|done].
    simpl in *. destruct suf as [|c suf]; [done|]. simpl.
    rewrite (cursor_cur _ _ _ _ _ Hc). simpl. simpl in Hs. by rewrite Hs.
  - apply Forall_cons in Hws as [Hcs Hws]. cbn [List.length app] in *.
    cbn [skip_whitespace_loop]. rewrite (cursor_cur _ _ _ _ _ Hc).
    cbn [mbind result_bind]. rewrite Hcs.
    apply (cursor_step h r pre c (ws ++ suf)) in Hc as [Hc1 Hc2].
    unfold newlines. cbn [column_after]. rewrite filter_cons.
    unfold char_eqb. destruct (Ascii.eqb_spec c "010"%char) as [->|Hne].
    + rewrite decide_True by done.
      match goal with |- context [skip_whitespace_loop _ _ ?r2] =>
        destruct (IH r2 (pre ++ ["010"%char]) suf) as (r' & Hr' & Hrow' & Hcol')
      end; [by split|done|done|..].
      * cbn [row]. rewrite size_add_small by lia. lia.
      * cbn [column]. rewrite size_add_small by lia. lia.
      * exists r'. split; [done|]. rewrite Hrow', Hcol'. cbn [row column].
        rewrite !size_add_small by lia.
        cbn [List.length]. fold (newlines ws). split; [lia|done].
    + rewrite decide_False by done.
      match goal with |- context [skip_whitespace_loop _ _ ?r2] =>
        destruct (IH r2 (pre ++ [c]) suf) as (r' & Hr' & Hrow' & Hcol')
      end; [by split|done|done|..].
      * cbn [row]. lia.
      * cbn [column]. rewrite size_add_small by lia. lia.
      * exists r'. split; [done|]. rewrite Hrow', Hcol'. cbn [row column].
        rewrite !size_add_small by lia.
        fold (newlines ws). split; [lia|done].
Qed.

(** X10. [skip_whitespace] moves the cursor over the whitespace ahead and
    stops at the first other byte or at the end.  [row] goes up by the
    line feeds it has passed; [column] goes up by the bytes passed when no
    line feed is among them, and after a line feed it is the number of
    bytes since the last one, that line feed counted. *)
Theorem skip_whitespace_counts r pre ws suf :
  cursor h r pre (ws ++ suf) → Forall (λ c, isspace c = true) ws →
  no_space_ahead suf →
  row r + N.of_nat (List.length ws) < size_max →
  column r + N.of_nat (List.length ws) < size_max →
  ∃ r', skip_whitespace h r = Ok r'
        ∧ cursor h r' (pre ++ ws) suf
        ∧ row r' = row r + N.of_nat (newlines ws)
        ∧ ("010"%char ∉ ws →
           column r' = column r + N.of_nat (List.length ws))
        ∧ (∀ ws1 ws2, ws = ws1 ++ "010"%char :: ws2 → "010"%char ∉ ws2 →
             column r' = 1 + N.of_nat (List.length ws2)).
Proof.
  intros Hc Hws Hs Hrow Hcol.
  destruct (skip_whitespace_spaces h r pre ws suf Hc Hws Hs)
    as (r1 & Hr1 & Hc1 & _).
  destruct (skip_whitespace_loop_counts ws r pre suf Hc Hws Hs Hrow Hcol)
    as (r2 & Hr2 & Hrow2 & Hcol2).
  unfold skip_whitespace in *. rewrite (cursor_left _ _ _ _ Hc) in *.
  rewrite Hr2 in Hr1. injection Hr1 as ->.
  exists r1. split_and!; [done..| |].
  - intros Hn. by rewrite Hcol2, column_after_plain.
  - intros ws1 ws2 -> Hn. by rewrite Hcol2, column_after_line.
Qed.

End more_whitespace.

Lemma skip_whitespace_counts_witness :
  ∃ r', json_reader.skip_whitespace (text_heap spaced_one)
          (text_reader spaced_one) = Ok r'
        ∧ json_reader.pos r' = 5
        ∧ json_reader.row r' = 3
        ∧ json_reader.column r' = 3.
Proof.
  destruct (skip_whitespace_counts (text_heap spaced_one)
              (text_reader spaced_one) [] (take 5 spaced_one) (str "1"))
    as (r' & Hr' & Hc & Hrow & _ & Hcol).
  - apply text_reader_cursor. reflexivity.
  - repeat constructor.
  - reflexivity.
  - vm_compute. reflexivity.
  - vm_compute. reflexivity.
  - exists r'. split; [exact Hr'|]. split; [exact (proj2 Hc)|].
    split; [exact Hrow|].
    apply (Hcol (take 2 spaced_one) (str "  ")); [reflexivity|].
    intros H. repeat (apply elem_of_cons in H as [H|H]; [discriminate|]).
    by apply elem_of_nil in H.
Defined.

(** ** Tokens *)

Lemma not_minus c :
  c ≠ "-"%char → ∀ (A : Type) (s : list char) (f : list char → A) (g : A),
  match c :: s with
  | "-"%char :: rest => f rest
  | _ => g
  end = g.
Proof. intros Hc A s f g. by destruct c as [[] [] [] [] [] [] [] []]. Qed.

Lemma span_digits_stop ds rest :
  Forall (λ c, isdigit c = true) ds → isdigit (next_byte rest) = false →
  span_digits (ds ++ rest) = (ds, rest).
Proof.
  intros Hds Hrest. induction Hds as [|c ds Hc _ IH]; cbn [span_digits app].
  - destruct rest as [|c rest]; [done|]. cbn [span_digits].
    cbn [next_byte] in Hrest. by rewrite Hrest.
  - by rewrite Hc, IH.
Qed.

Lemma from_chars_int_digits ds v0 :
  Forall (λ c, isdigit c = true) ds → ds ≠ [] →
  from_chars_int ds v0
  = if (Z.of_N (digits_value ds) <=? INT64_MAX)%Z
    then ({| consumed := List.length ds; ec := errc_ok |},
          Z.of_N (digits_value ds))
    else ({| consumed := List.length ds; ec := result_out_of_range |}, v0).
Proof.
  intros Hdig Hne. unfold from_chars_int.
  destruct ds as [|c ds]; [done|].
  assert (c ≠ "-"%char) as Hc.
  { intros ->. by apply Forall_cons in Hdig as [? _]. }
  rewrite (not_minus c Hc).
  rewrite (span_digits_all _ Hdig). rewrite bool_decide_eq_false_2 by done.
  assert ((INT64_MIN <=? Z.of_N (digits_value (c :: ds)))%Z = true) as ->
    by (apply Z.leb_le; unfold INT64_MIN; lia).
  rewrite Nat.add_0_r. done.
Qed.

Section more_tokens.
Import cow_string json_reader.
Context (h : heap).

(** X11. A string token ends at the next double quote, whatever stands
    before it (a backslash does not protect a quote): the value is a view
    of the bytes between the two quotes and the cursor goes behind the
    closing one.  Without a closing quote in the rest of the input the
    reader throws, naming the place after the opening quote and the byte
    there. *)
Theorem string_token r pre suf :
  cursor h r pre ("034"%char :: suf) →
  (∀ k rest, suf = k ++ "034"%char :: rest → "034"%char ∉ k →
     ∃ s, parse_string h r
          = Ok (String s,
                with_pos r (N.of_nat (List.length pre + List.length k + 2)))
          ∧ window h s = Ok k
          ∧ storage s = storage (src r))
  ∧ ("034"%char ∉ suf →
     parse_string h r
     = Throw (ExpectedQuote (N.of_nat (S (List.length pre))) (next_byte suf))).
Proof.
  intros Hc. split.
  - intros k rest -> Hk. eexists.
    split; [by apply (parse_string_ok h r pre k rest)|].
    split; [|done]. eapply holds_window.
    by eapply (parse_string_holds h r pre k rest).
  - by apply parse_string_unterminated.
Qed.

(** X12. With the cursor on a byte and the keyword no longer than what is
    left of the block, its terminator counted, [parse_null], [parse_true]
    and [parse_false] give their value when the next bytes are the keyword
    and move the cursor behind it; otherwise they throw, naming the byte
    at the cursor and its place. *)
Theorem literal_token r pre suf kw v :
  cursor h r pre suf →
  (String.length kw ≤ S (List.length suf))%nat →
  parse_literal h r (N.of_nat (String.length kw)) kw v
  = if bool_decide (take (String.length kw) (suf ++ [NUL])
                    = list_ascii_of_string kw)
    then Ok (v, with_pos r (pos r + N.of_nat (String.length kw)))
    else Throw (IllegalToken (next_byte suf) (pos r)).
Proof.
  intros Hc Hlen. pose proof (cursor_bound _ _ _ _ Hc) as Hn.
  pose proof Hc as [(Hblk & Ho & Hl & Hb) Hp].
  assert (holds h (substr (src r) (pos r) (N.of_nat (String.length kw)))
            pre (take (String.length kw) (suf ++ [NUL]))
            (drop (String.length kw) (suf ++ [NUL]))) as Hs.
  { split_and!.
    - cbn [storage substr]. rewrite Hblk, take_drop. simpl.
      by rewrite <- app_assoc.
    - cbn [offset substr]. rewrite Ho, Hp. simpl. apply size_add_small.
      unfold npos in Hn. rewrite size_max_eq in *. lia.
    - cbn [length substr]. rewrite length_take, length_app. simpl. lia.
    - rewrite take_drop. simpl in Hb. by rewrite <- app_assoc in Hb. }
  unfold parse_literal. rewrite (holds_eq_cstr h _ _ _ _ _ Hs).
  cbn [mbind result_bind]. case_bool_decide.
  - rewrite size_add_small; [done|].
    unfold npos in Hn. rewrite size_max_eq in *. lia.
  - by rewrite (cursor_next _ _ _ _ Hc).
Qed.

(** X13. A token of digits alone is the Integer that the digits spell, as
    long as that is at most 2^63 - 1; a larger one is not wrapped or cut:
    the reader throws. *)
Theorem integer_token r pre ds suf :
  cursor h r pre (ds ++ suf) → ds ≠ [] →
  Forall (λ c, isdigit c = true) ds →
  number_char (next_byte suf) = false →
  parse_number h r
  = if (Z.of_N (digits_value ds) <=? INT64_MAX)%Z
    then Ok (Integer (Z.of_N (digits_value ds)),
             with_pos r (N.of_nat (List.length (pre ++ ds))))
    else Throw (InvalidToken (next_byte suf) (row r) (column r)).
Proof.
  intros Hc Hne Hds Hsuf.
  rewrite (parse_number_run h r pre ds suf Hc); [|
    eapply Forall_impl; [exact Hds|apply isdigit_number_char]|done].
  unfold convert. rewrite (digits_no_point_or_e _ Hds).
  rewrite (from_chars_int_digits _ _ Hds Hne).
  by destruct (_ <=? _)%Z.
Qed.

End more_tokens.

Lemma string_token_witness :
  ∃ s, json_reader.parse_string (text_heap escaped_quote)
         (text_reader escaped_quote)
       = Ok (String s, json_reader.with_pos (text_reader escaped_quote) 4)
       ∧ cow_string.window (text_heap escaped_quote) s
         = Ok ["a"; "092"]%char.
Proof.
  destruct (proj1 (string_token (text_heap escaped_quote)
                     (text_reader escaped_quote) [] (drop 1 escaped_quote)
                     (text_reader_cursor escaped_quote eq_refl))
              ["a"; "092"]%char (lit "b'") eq_refl) as (s & Hs & Hw & _).
  - intros H. repeat (apply elem_of_cons in H as [H|H]; [discriminate|]).
    by apply elem_of_nil in H.
  - by exists s.
Defined.

Lemma literal_token_witness :
  json_reader.parse_null (text_heap (str "nul")) (text_reader (str "nul"))
  = Throw (IllegalToken "n"%char 0)
  ∧ json_reader.parse_true (text_heap (str "true]")) (text_reader (str "true]"))
    = Ok (Bool true, json_reader.with_pos (text_reader (str "true]")) 4).
Proof.
  split.
  - apply (literal_token (text_heap (str "nul")) (text_reader (str "nul"))
             [] (str "nul") "null" Null
             (text_reader_cursor (str "nul") eq_refl)).
    simpl. lia.
  - apply (literal_token (text_heap (str "true]")) (text_reader (str "true]"))
             [] (str "true]") "true" (Bool true)
             (text_reader_cursor (str "true]") eq_refl)).
    simpl. lia.
Defined.

Lemma integer_token_witness :
  json_reader.parse_number (text_heap (str "9223372036854775807"))
    (text_reader (str "9223372036854775807"))
  = Ok (Integer 9223372036854775807,
        json_reader.with_pos (text_reader (str "9223372036854775807")) 19)
  ∧ json_reader.parse_number (text_heap (str "9223372036854775808"))
      (text_reader (str "9223372036854775808"))
    = Throw (InvalidToken NUL 1 0).
Proof.
  split.
  - apply (integer_token (text_heap (str "9223372036854775807"))
             (text_reader (str "9223372036854775807")) []
             (str "9223372036854775807") []).
    + rewrite app_nil_r. apply text_reader_cursor. reflexivity.
    + discriminate.
    + repeat constructor.
    + reflexivity.
  - apply (integer_token (text_heap (str "9223372036854775808"))
             (text_reader (str "9223372036854775808")) []
             (str "9223372036854775808") []).
    + rewrite app_nil_r. apply text_reader_cursor. reflexivity.
    + discriminate.
    + repeat constructor.
    + reflexivity.
Defined.

Lemma from_chars_double_second_point ip fp tail v0 :
  Forall (λ c, isdigit c = true) ip → Forall (λ c, isdigit c = true) fp →
  from_chars_double (ip ++ "."%char :: fp ++ "."%char :: tail) v0
  = from_chars_double (ip ++ "."%char :: fp) v0.
Proof.
  intros Hip Hfp. unfold from_chars_double.
  assert (∀ rest,
    match ip ++ "."%char :: rest with
    | "-"%char :: rest' => (true, rest')
    | _ => (false, ip ++ "."%char :: rest)
    end = (false, ip ++ "."%char :: rest)) as Hhead.
  { intros rest. destruct ip as [|c ip']; [done|].
    apply Forall_cons in Hip as [Hc _]. simpl.
    apply (not_minus c); by intros ->. }
  rewrite !Hhead.
  rewrite !(span_digits_stop ip) by done.
  rewrite (span_digits_stop fp ("."%char :: tail)) by done.
  rewrite (span_digits_all fp) by done.
  cbn [fst snd]. done.
Qed.

Section more_numbers.
Import cow_string json_reader.
Context (h : heap).

(** X14. What follows a second point in a number token is dropped without
    an error: the token [ip.fp.tail] is the Float that [ip.fp] spells, and
    the cursor goes behind the whole token. *)
Theorem second_point_dropped r pre ip fp tail suf :
  cursor h r pre ((ip ++ "."%char :: fp ++ "."%char :: tail) ++ suf) →
  Forall (λ c, isdigit c = true) ip → Forall (λ c, isdigit c = true) fp →
  Forall (λ c, number_char c = true) tail →
  number_char (next_byte suf) = false →
  parse_number h r
  = let '(res, val) :=
      from_chars_double (ip ++ "."%char :: fp) (S754_zero false) in
    if bool_decide (ec res = errc_ok)
    then Ok (Float val,
             with_pos r
               (N.of_nat (List.length
                            (pre ++ ip ++ "."%char :: fp ++ "."%char :: tail))))
    else Throw (InvalidToken (next_byte suf) (row r) (column r)).
Proof.
  intros Hc Hip Hfp Htail Hsuf.
  rewrite (parse_number_run h r pre _ suf Hc); [| |done].
  - unfold convert.
    assert (has_point_or_e (ip ++ "."%char :: fp ++ "."%char :: tail) = true)
      as ->.
    { apply bool_decide_eq_true_2. left.
      apply elem_of_app. right. left. }
    by rewrite from_chars_double_second_point.
  - apply Forall_app. split.
    { eapply Forall_impl; [exact Hip|apply isdigit_number_char]. }
    constructor; [done|]. apply Forall_app. split.
    { eapply Forall_impl; [exact Hfp|apply isdigit_number_char]. }
    by constructor.
Qed.

End more_numbers.

Lemma second_point_dropped_witness :
  json_reader.parse_number (text_heap (str "2.5.7e")) (text_reader (str "2.5.7e"))
  = Ok (Float two_and_a_half,
        json_reader.with_pos (text_reader (str "2.5.7e")) 6).
Proof.
  apply (second_point_dropped (text_heap (str "2.5.7e"))
           (text_reader (str "2.5.7e")) [] (str "2") (str "5") (str "7e") []).
  - apply (text_reader_cursor (str "2.5.7e")). reflexivity.
  - repeat constructor.
  - repeat constructor.
  - repeat constructor.
  - reflexivity.
Defined.

(** ** Progress *)

(** X15. A value that [parse_value] returns ends after the byte where the
    call started: every turn of the loops of [parse_array] and
    [parse_object] moves the cursor forward.  So the loops end, and the
    recursion bound that the model gives [parse], one more than the
    length of the text, is never used up. *)
Theorem parse_makes_progress text :
  2 * N.of_nat (List.length text) + 2 ≤ npos →
  (∀ h fuel r v r',
     (fuel ≤ S (List.length text))%nat →
     reads h r text → json_reader.pos r ≤ N.of_nat (List.length text) →
     json_reader.parse_value h fuel r = Ok (v, r') →
     json_reader.pos r < json_reader.pos r'
     ∧ json_reader.src r' = json_reader.src r)
  ∧ parse_text text ≠ OutOfFuel.
Proof.
  intros Hroom. split.
  - intros h fuel r v r' Hf Hr Hp H. split.
    + apply (parse_value_pos h text fuel r v r'); [lia|done..].
    + by apply (parse_value_into h fuel r v r').
  - by apply parse_text_runs.
Qed.

Lemma parse_makes_progress_witness :
  parse_text (str "[[[[") ≠ OutOfFuel
  ∧ parse_text (str "[[[[") = Ok (Array [Array [Array [Array []]]]).
Proof.
  split; [|vm_compute; reflexivity].
  apply (parse_makes_progress (str "[[[[")). vm_compute. discriminate.
Defined.

(** ** The strings of a parsed tree *)

Lemma every_string_array P a :
  every_string P (Array a) ↔ Forall (every_string P) a.
Proof.
  simpl. induction a as [|x a IH]; simpl; [by split|].
  rewrite Forall_cons. tauto.
Qed.

Lemma every_string_object P o :
  every_string P (Object o) ↔ Forall (λ e, P e.1 ∧ every_string P e.2) o.
Proof.
  simpl. induction o as [|[k x] o IH]; simpl; [by split|].
  rewrite Forall_cons. simpl. tauto.
Qed.

Lemma every_string_impl (P Q : cow_string → Prop) v :
  (∀ s, P s → Q s) → every_string P v → every_string Q v.
Proof.
  intros HPQ. induction v as [| | | | |a IH|o IH] using Value_induction;
    try done.
  - apply HPQ.
  - rewrite !every_string_array. intros Ha.
    induction Ha as [|x a Hx Ha IHa]; [done|].
    apply Forall_cons in IH as [IHx IH]. constructor; [by apply IHx|by apply IHa].
  - rewrite !every_string_object. intros Ho.
    induction Ho as [|[k x] o [Hk Hx] Ho IHo]; [done|].
    apply Forall_cons in IH as [IHx IH]. constructor; [|by apply IHo].
    split; [by apply HPQ|by apply IHx].
Qed.

Section strings_of_parse.
Import cow_string json_reader.
Context (h : heap) (text : list char).

Lemma map_assign_every P obj : ∀ key v obj',
  every_string P (Object obj) → P key → every_string P v →
  map_assign h obj key v = Ok obj' → every_string P (Object obj').
Proof.
  induction obj as [|[k x] obj IH]; intros key v obj' Ho Hk Hv H; simpl in H.
  - injection H as <-. by repeat split.
  - destruct Ho as (Hk1 & Hx & Ho). bind_inv H as below Hb. destruct below.
    + injection H as <-. by repeat split.
    + bind_inv H as above Ha. destruct above.
      * bind_inv H as rest Hrest. injection H as <-.
        split; [done|split; [done|]]. by apply (IH key v _ Ho Hk Hv).
      * injection H as <-. by repeat split.
Qed.

Lemma parse_string_view r pre suf v r' :
  cursor h r pre ("034"%char :: suf) → text = pre ++ "034"%char :: suf →
  parse_string h r = Ok (v, r') → every_string (view_of h text) v.
Proof.
  intros Hc -> H.
  destruct (decide ("034"%char ∈ suf)) as [Hin|Hout].
  - apply list_elem_of_split_l in Hin as (k & rest & -> & Hk).
    rewrite (parse_string_ok h r pre k rest Hc Hk) in H.
    injection H as <- <-. simpl.
    exists (pre ++ ["034"%char]), k, ("034"%char :: rest). split.
    + by rewrite <- !app_assoc.
    + by apply (parse_string_holds h r pre k rest).
  - by rewrite (parse_string_unterminated h r pre suf Hc Hout) in H.
Qed.

Section loops_strings.
Context (pv : json_reader → result (Value * json_reader)).
Hypothesis pv_views : ∀ r v r',
  reads h r text → pv r = Ok (v, r') →
  every_string (view_of h text) v ∧ src r' = src r.

Lemma parse_array_loop_views n : ∀ r arr v r',
  reads h r text → Forall (every_string (view_of h text)) arr →
  parse_array_loop h pv n r arr = Ok (v, r') →
  every_string (view_of h text) v.
Proof.
  induction n as [|n IH]; intros r arr v r' Hr Harr H; [done|].
  cbn [parse_array_loop] in H. bind_inv H as more Hmore. destruct more.
  - bind_inv H as [value r1] Hv.
    apply pv_views in Hv as [Hv Hs1]; [|done].
    bind_inv H as r2 Ha. apply after_element_src in Ha.
    apply IH in H; [done| |].
    + unfold reads. rewrite Ha, Hs1. exact Hr.
    + apply Forall_app. split; [done|]. by constructor.
  - injection H as <- _. by apply every_string_array.
Qed.

Lemma parse_object_loop_views n : ∀ r obj v r',
  reads h r text → every_string (view_of h text) (Object obj) →
  parse_object_loop h pv n r obj = Ok (v, r') →
  every_string (view_of h text) v.
Proof.
  induction n as [|n IH]; intros r obj v r' Hr Hobj H; [done|].
  cbn [parse_object_loop] in H. bind_inv H as more Hmore. destruct more.
  - bind_inv H as [[key value] r1] He.
    unfold parse_entry in He. bind_inv He as [k ra] Hk.
    apply pv_views in Hk as [Hkey Hsa]; [|done].
    destruct k; try done. bind_inv He as colon Hcolon.
    destruct colon; [|by bind_inv He].
    bind_inv He as [x rb] Hx.
    apply pv_views in Hx as [Hvalue Hsb];
      [|by unfold reads, with_pos; cbn [src]; rewrite Hsa].
    bind_inv He as rc Ha. apply after_element_src in Ha.
    injection He as <- <- <-.
    bind_inv H as obj' Ho.
    apply IH in H; [done| |].
    + unfold reads. rewrite Ha, Hsb. unfold with_pos. cbn [src].
      rewrite Hsa. exact Hr.
    + by eapply map_assign_every.
  - by injection H as <- _.
Qed.

End loops_strings.

Lemma parse_value_views fuel : ∀ r v r',
  reads h r text → parse_value h fuel r = Ok (v, r') →
  every_string (view_of h text) v ∧ src r' = src r.
Proof.
  induction fuel as [|fuel IH]; intros r v r' Hr H; [done|].
  split; [|by apply (parse_value_into h (S fuel) r v r')].
  rewrite parse_value_S in H. bind_inv H as ra Hskip.
  apply skip_whitespace_src in Hskip.
  assert (reads h ra text) as Hra by (unfold reads; by rewrite Hskip).
  destruct (N.leb_spec (size (src ra)) (pos ra)) as [|Hp]; [done|].
  destruct (reads_cursor h ra text Hra Hp) as (pre & c & suf & Ht & Hcur).
  rewrite (cursor_cur h _ _ _ _ Hcur) in H. cbn [mbind result_bind] in H.
  destruct (char_eqb c "034"%char) eqn:Hq.
  { apply Ascii.eqb_eq in Hq as ->.
    assert (parse_string h ra = Ok (v, r')) as Hstr by by simpl in H.
    by eapply parse_string_view. }
  repeat match type of H with (if ?c then _ else _) = _ => destruct c end.
  - by apply parse_literal_src in H as [-> ?].
  - by apply parse_literal_src in H as [-> ?].
  - by apply parse_literal_src in H as [-> ?].
  - unfold parse_array in H. bind_inv H as rb Hs.
    apply skip_whitespace_src in Hs. simpl in Hs.
    eapply (parse_array_loop_views _ IH); [| |exact H]; [|done].
    unfold reads. rewrite Hs. exact Hra.
  - unfold parse_object in H. bind_inv H as rb Hs.
    apply skip_whitespace_src in Hs. simpl in Hs.
    eapply (parse_object_loop_views _ IH); [| |exact H]; [|done].
    unfold reads. rewrite Hs. exact Hra.
  - by apply parse_number_src in H as [[[? ->]|[? ->]] ?].
Qed.

Lemma view_of_within s : view_of h text s → within_buffer h s.
Proof.
  intros (a & w & b & _ & Hblk & Ho & Hl & _). unfold within_buffer.
  rewrite Hblk, Ho, Hl. rewrite !length_app. simpl. lia.
Qed.

Lemma views_contents v :
  every_string (view_of h text) v → ∃ t, contents h v = Ok t.
Proof.
  induction v as [| | | | |a IH|o IH] using Value_induction;
    try (by eexists).
  - intros (a & w & b & _ & Hs). simpl.
    rewrite (holds_window h _ _ _ _ Hs). by eexists.
  - rewrite every_string_array. intros Ha. simpl.
    assert (∃ ts, sequence (map (contents h) a) = Ok ts) as [ts ->];
      [|by eexists].
    induction Ha as [|x a Hx Ha IHa]; [by eexists|].
    apply Forall_cons in IH as [IHx IH]. simpl.
    destruct (IHx Hx) as [t ->]. destruct (IHa IH) as [ts ->]. by eexists.
  - rewrite every_string_object. intros Ho. simpl.
    assert (∃ es, sequence
              (map (λ '(k, x), w ← window h k; t ← contents h x; Ok (w, t)) o)
              = Ok es) as [es ->]; [|by eexists].
    induction Ho as [|[k x] o [(a & w & b & _ & Hk) Hx] Ho IHo]; [by eexists|].
    apply Forall_cons in IH as [IHx IH]. simpl in *.
    rewrite (holds_window h _ _ _ _ Hk). simpl.
    destruct (IHx Hx) as [t ->]. simpl.
    destruct (IHo IH) as [es ->]. by eexists.
Qed.

End strings_of_parse.

(** X16. Every string of a tree that [parse] returns, key or value, is a
    view of bytes of the text: it starts and ends inside the buffer
    ([offset + length] is at most the length of the text), so the bytes of
    the whole tree can be read. *)
Theorem parsed_strings_in_text text v :
  N.of_nat (List.length text) < npos →
  parse_text text = Ok v →
  every_string (λ s, view_of (text_heap text) text s
                     ∧ within_buffer (text_heap text) s) v
  ∧ ∃ t, parsed text = Ok t.
Proof.
  intros Hlen H. pose proof (text_reader_reads text Hlen) as Hr.
  assert (every_string (view_of (text_heap text) text) v) as Hv.
  { unfold parse_text, json_reader.parse in H.
    bind_inv H as [v' r'] Hv. injection H as ->.
    by apply (parse_value_views _ text _ _ _ _ Hr) in Hv as [Hv _]. }
  split.
  - eapply every_string_impl; [|exact Hv].
    intros s Hs. split; [done|]. by eapply view_of_within.
  - unfold parsed. rewrite H. cbn [mbind result_bind].
    by eapply views_contents.
Qed.

Lemma parsed_strings_in_text_witness :
  ∃ t, parsed sample1 = Ok t.
Proof.
  apply (parsed_strings_in_text sample1
           (Object
              [({| cow_string.offset := 2; cow_string.length := 1;
                   cow_string.storage := 1%positive |}, Integer 1);
               ({| cow_string.offset := 8; cow_string.length := 1;
                   cow_string.storage := 1%positive |},
                Array [Integer 1; Integer 2; Integer 3]);
               ({| cow_string.offset := 20; cow_string.length := 1;
                   cow_string.storage := 1%positive |},
                Object
                  [({| cow_string.offset := 25; cow_string.length := 1;
                       cow_string.storage := 1%positive |}, Bool true);
                   ({| cow_string.offset := 34; cow_string.length := 1;
                       cow_string.storage := 1%positive |}, Null)]);
               ({| cow_string.offset := 44; cow_string.length := 1;
                   cow_string.storage := 1%positive |},
                Float two_and_a_half)])).
  - reflexivity.
  - vm_compute. reflexivity.
Defined.

(** ** The reader and the writer together *)

Lemma sequence_Ok {A} (rs : list (result A)) : ∀ xs,
  sequence rs = Ok xs → Forall2 (λ r x, r = Ok x) rs xs.
Proof.
  induction rs as [|r rs IH]; intros xs H; simpl in H.
  - injection H as <-. constructor.
  - bind_inv H as x Hx. bind_inv H as xs' Hxs. injection H as <-.
    constructor; [done|by apply IH].
Qed.

Section reader_and_writer.
Import cow_string.
Context (h : heap) (text : list char).

Lemma views_writable v : ∀ t,
  every_string (view_of h text) v → contents h v = Ok t → nul_free t →
  writable h v.
Proof.
  induction v as [| | | | |a IH|o IH] using Value_induction;
    intros t Hv Ht Hn; try done.
  - destruct Hv as (a & w & b & _ & Hs). simpl in Ht.
    rewrite (holds_window h _ _ _ _ Hs) in Ht. injection Ht as <-.
    exists a, w, (b ++ [NUL]). split; [done|]. split; [|done].
    by destruct b.
  - apply every_string_array in Hv. simpl in Ht.
    bind_inv Ht as ts Hts. injection Ht as <-.
    apply sequence_Ok in Hts. simpl in Hn |- *.
    revert ts Hts Hn. induction Hv as [|x a Hx Hv IHa]; intros ts Hts Hn;
      [done|].
    apply Forall_cons in IH as [IHx IH].
    rewrite map_cons in Hts.
    apply Forall2_cons_inv_l in Hts as (t & ts' & Hxt & Hts & ->).
    destruct Hn as [Ht Hn]. simpl. split; [by eapply IHx|by eapply IHa].
  - apply every_string_object in Hv. simpl in Ht.
    bind_inv Ht as es Hes. injection Ht as <-.
    apply sequence_Ok in Hes. simpl in Hn |- *.
    revert es Hes Hn. induction Hv as [|[k x] o [Hk Hx] Hv IHo];
      intros es Hes Hn; [done|].
    apply Forall_cons in IH as [IHx IH].
    rewrite map_cons in Hes.
    apply Forall2_cons_inv_l in Hes as ([w t] & es' & Hxt & Hes & ->).
    bind_inv Hxt as w' Hw. bind_inv Hxt as t' Ht. injection Hxt as <- <-.
    destruct Hn as [Hnt Hn]. simpl in *.
    split; [by eapply IHx|by eapply IHo].
Qed.

(** X19. The writer puts a string value through [c_str], which ends at
    the first NUL: the bytes of the value from its first NUL on are not
    written.  A key goes out through [operator<<], with all its bytes. *)
Theorem string_value_stops_at_nul s a w b :
  holds h s a w b → b ≠ [] →
  json_writer.write h (String s) = Ok (quoted (before_nul w))
  ∧ json_writer.write h (Object [(s, Null)])
    = Ok ("{"%char :: quoted w ++ ":"%char :: str "null" ++ ["}"%char]).
Proof.
  intros Hs Hb. split.
  - cbn [json_writer.write].
    destruct (c_str_cases h s a w b Hs) as (Hwhole & Hcopy & _).
    assert (∃ h' s', c_str h s = Ok (h', s', before_nul w))
      as (h' & s' & ->); [|done].
    destruct a as [|x a].
    + destruct b as [|c b]; [done|].
      destruct (decide (c = NUL)) as [->|Hc].
      * eexists _, _. by apply Hwhole.
      * eexists _, _. apply Hcopy. right. by exists c.
    + eexists _, _. apply Hcopy. by left.
  - cbn [json_writer.write map json_writer.separated].
    rewrite (holds_window h _ _ _ _ Hs). cbn [mbind result_bind].
    unfold quoted, str. simpl. by rewrite <- !app_assoc.
Qed.

End reader_and_writer.

(** X17. [parse] reads one value and does not look at what follows it:
    the text that the writer puts for a tree, followed by any bytes that
    do not go on with a number token, parses to the tree. *)
Theorem trailing_bytes_ignored t suf :
  tree_ok t → number_char (next_byte suf) = false →
  N.of_nat (List.length (render t ++ suf)) < npos →
  parsed (render t ++ suf) = Ok t.
Proof.
  intros Hok Hsuf Hlen. unfold parsed, parse_text, json_reader.parse.
  set (h' := text_heap (render t ++ suf)).
  set (r := text_reader (render t ++ suf)).
  change {| json_reader.src := json_reader.src r; json_reader.pos := 0;
            json_reader.row := 1; json_reader.column := 0 |} with r.
  pose proof (text_reader_cursor (render t ++ suf) Hlen) as Hc.
  fold h' r in Hc.
  unfold json_reader.fuel_of. rewrite (cursor_size _ _ _ _ Hc).
  rewrite Nat2N.id. cbn [List.length Nat.add].
  destruct (tree_back h' t Hok (List.length (render t ++ suf)) r [] suf
              ltac:(rewrite length_app; lia) Hc Hsuf) as (v' & Hv' & Hcv').
  rewrite Hv'. cbn [mbind result_bind]. done.
Qed.

(** X18. The text that the writer puts is a fixed point: parsing it and
    writing the value again gives the same text, for a tree of the round
    trip whose string values have no NUL byte. *)
Theorem write_parse_write t :
  tree_ok t → nul_free t →
  N.of_nat (List.length (render t)) < npos →
  ∃ v, parse_text (render t) = Ok v
       ∧ json_writer.write (text_heap (render t)) v = Ok (render t).
Proof.
  intros Hok Hnul Hlen. unfold parse_text, json_reader.parse.
  set (h' := text_heap (render t)). set (r := text_reader (render t)).
  change {| json_reader.src := json_reader.src r; json_reader.pos := 0;
            json_reader.row := 1; json_reader.column := 0 |} with r.
  pose proof (text_reader_cursor (render t) Hlen) as Hc. fold h' r in Hc.
  pose proof (text_reader_reads (render t) Hlen) as Hr. fold h' r in Hr.
  unfold json_reader.fuel_of. rewrite (cursor_size _ _ _ _ Hc).
  rewrite Nat2N.id. cbn [List.length Nat.add].
  rewrite <- (app_nil_r (render t)) in Hc.
  destruct (tree_back h' t Hok (List.length (render t)) r [] []
              ltac:(lia) Hc eq_refl) as (v' & Hv' & Hcv').
  rewrite Hv'. cbn [mbind result_bind]. exists v'. split; [done|].
  apply write_render; [done|].
  apply (views_writable h' (render t) v' t); [|done..].
  by apply (parse_value_views h' (render t) _ _ _ _ Hr) in Hv' as [? _].
Qed.

Lemma string_value_stops_at_nul_witness :
  json_writer.write (text_heap ["a"; "000"; "b"]%char)
    (String (json_reader.src (text_reader ["a"; "000"; "b"]%char)))
  = Ok (lit "'a'").
Proof.
  apply (string_value_stops_at_nul (text_heap ["a"; "000"; "b"]%char)
           (json_reader.src (text_reader ["a"; "000"; "b"]%char))
           [] ["a"; "000"; "b"]%char [NUL]).
  - apply (text_reader_reads ["a"; "000"; "b"]%char). reflexivity.
  - discriminate.
Defined.

Lemma trailing_bytes_ignored_witness :
  parsed (lit "[1,'x']]garbage") = Ok (TArray [TInteger 1; TString (str "x")]).
Proof.
  apply (trailing_bytes_ignored (TArray [TInteger 1; TString (str "x")])
           (str "]garbage")).
  - cbn. split_and!; try done.
    apply not_elem_of_cons. split; [done|apply not_elem_of_nil].
  - reflexivity.
  - reflexivity.
Defined.

Lemma write_parse_write_witness :
  ∃ v, parse_text (lit "[1,'x']") = Ok v
       ∧ json_writer.write (text_heap (lit "[1,'x']")) v = Ok (lit "[1,'x']").
Proof.
  apply (write_parse_write (TArray [TInteger 1; TString (str "x")])).
  - cbn. split_and!; try done.
    apply not_elem_of_cons. split; [done|apply not_elem_of_nil].
  - cbn. split_and!; try done.
    apply not_elem_of_cons. split; [done|apply not_elem_of_nil].
  - reflexivity.
Defined.

(** ** The accessors of [node] *)

Section more_node.
Import cow_string node_access.

Lemma load_range_extend (h : heap) blk p n : ∀ i w,
  load_range h p i n = Ok w →
  load_range (<[fresh (dom h) := blk]> h) p i n = Ok w.
Proof.
  induction n as [|n IH]; intros i w H; simpl in *; [done|].
  bind_inv H as c Hc. bind_inv H as w' Hw'. injection H as <-.
  rewrite (IH _ _ Hw'). unfold load in *.
  destruct (h !! p) as [b|] eqn:Hb; [|done].
  rewrite lookup_insert_ne, Hb; [by rewrite Hc|].
  symmetry. apply fresh_block. eauto.
Qed.

Lemma keyed_extend (h : heap) blk obj : ∀ l,
  keyed h obj = Ok l → keyed (<[fresh (dom h) := blk]> h) obj = Ok l.
Proof.
  induction obj as [|[k x] obj IH]; intros l H; simpl in *; [done|].
  bind_inv H as w Hw. bind_inv H as l' Hl. injection H as <-.
  unfold window in *. rewrite (load_range_extend _ _ _ _ _ _ Hw).
  cbn [mbind result_bind]. by rewrite (IH _ Hl).
Qed.

Lemma ascending_above w k ks :
  bytes_lt w k = true → Forall (λ k', bytes_lt k k' = true) ks →
  Forall (λ k', k' ≠ w) (k :: ks).
Proof.
  intros Hwk Hks. constructor.
  - intros ->. by rewrite bytes_lt_irrefl in Hwk.
  - eapply Forall_impl; [exact Hks|]. intros k' Hk' ->.
    pose proof (bytes_lt_trans _ _ _ Hwk Hk') as H.
    by rewrite bytes_lt_irrefl in H.
Qed.

Lemma map_index_keyed (h : heap) key w obj : ∀ l,
  keyed h obj = Ok l → window h key = Ok w → ascending l.*1 →
  (values_at w l = []
   ∧ ∃ obj', map_index h obj key = Ok (obj', Null, true)
             ∧ keyed h obj' = Ok (assign_bytes l w Null))
  ∨ (∃ x, values_at w l = [x] ∧ map_index h obj key = Ok (obj, x, false)).
Proof.
  induction obj as [|[k y] obj IH]; intros l Hl Hw Hasc; simpl in Hl.
  - injection Hl as <-. left. split; [done|]. eexists. split; [done|].
    simpl. by rewrite Hw.
  - bind_inv Hl as wk Hwk. bind_inv Hl as l' Hl'. injection Hl as <-.
    destruct Hasc as [Hk Hasc]. cbn [map_index assign_bytes values_at].
    rewrite (window_lt h _ _ _ _ Hw Hwk), (window_lt h _ _ _ _ Hwk Hw).
    cbn [mbind result_bind].
    destruct (bytes_lt w wk) eqn:E1.
    + left. pose proof (ascending_above w wk _ E1 Hk) as Hout.
      split; [by apply (values_at_out w ((wk, y) :: l'))|].
      eexists. split; [done|]. simpl. rewrite Hw, Hwk. simpl. by rewrite Hl'.
    + destruct (bytes_lt wk w) eqn:E2.
      * assert (wk ≠ w) as Hne by (intros ->; by rewrite bytes_lt_irrefl in E2).
        rewrite decide_False by done.
        destruct (IH l' Hl' Hw Hasc)
          as [(Hnone & obj' & Hi & Hk')|(x & Hx & Hi)]; rewrite Hi; simpl.
        -- left. split; [done|]. eexists. split; [done|].
           simpl. rewrite Hwk. simpl. by rewrite Hk'.
        -- right. by exists x.
      * pose proof (bytes_lt_total _ _ E1 E2) as ->.
        rewrite decide_True by done. right. exists y. split; [|done].
        f_equal. apply values_at_out.
        eapply Forall_impl; [exact Hk|]. intros k' Hk' ->.
        by rewrite bytes_lt_irrefl in Hk'.
Qed.

Lemma key_access_cases h obj l kb :
  keyed h obj = Ok l → ascending l.*1 →
  N.of_nat (List.length kb) < npos →
  (∀ x, values_at kb l = [x] →
     at_key h (Object obj) kb = Ref (h, Object obj, x))
  ∧ (values_at kb l = [] →
     ∃ obj', at_key h (Object obj) kb
             = Ref (<[fresh (dom h) := kb ++ [NUL]]> h, Object obj', Null)
             ∧ keyed (<[fresh (dom h) := kb ++ [NUL]]> h) obj'
               = Ok (assign_bytes l kb Null))
  ∧ (values_at kb l = [] ∨ ∃ x, values_at kb l = [x])
  ∧ (∀ value, (∀ o, value ≠ Object o) →
       at_key h value kb = RuntimeError "not an object").
Proof.
  intros Hl Hasc Hlen.
  set (h1 := <[fresh (dom h) := kb ++ [NUL]]> h).
  set (k := {| offset := 0; length := N.of_nat (List.length kb);
               storage := fresh (dom h) |}).
  assert (window h1 k = Ok kb) as Hw.
  { apply (holds_window h1 k [] kb [NUL]). split_and!; [|done..|].
    - unfold h1, k. cbn [storage]. by rewrite lookup_insert_eq.
    - simpl. rewrite length_app. simpl. lia. }
  pose proof (keyed_extend h (kb ++ [NUL]) obj l Hl) as Hl1. fold h1 in Hl1.
  destruct (map_index_keyed h1 k kb obj l Hl1 Hw Hasc)
    as [(Hnone & obj' & Hi & Hk')|(x & Hx & Hi)].
  - split_and!.
    + intros x Hx. by rewrite Hnone in Hx.
    + intros _. exists obj'. split; [|done].
      unfold at_key, ctor. fold h1 k. by rewrite Hi.
    + by left.
    + intros value Hv. destruct value; try done. by destruct (Hv o).
  - split_and!.
    + intros x' Hx'. rewrite Hx in Hx'. injection Hx' as <-.
      unfold at_key, ctor. fold h1 k. by rewrite Hi.
    + intros Hnone. by rewrite Hx in Hnone.
    + right. by exists x.
    + intros value Hv. destruct value; try done. by destruct (Hv o).
Qed.

(** X21. [node[key]] on an object finds the entry by the bytes of the
    key, which is a new string on a block of its own: with an entry of
    these bytes it gives the value of the entry and leaves the object and
    the heap as they were; without one it puts a [Null] entry at the place
    of the key in the order and gives that.  On a node that is not an
    object it throws "not an object". *)
Theorem key_access h obj l kb :
  keyed h obj = Ok l → ascending l.*1 →
  N.of_nat (List.length kb) < npos →
  (∀ x, values_at kb l = [x] →
     at_key h (Object obj) kb = Ref (h, Object obj, x))
  ∧ (values_at kb l = [] →
     ∃ obj', at_key h (Object obj) kb
             = Ref (<[fresh (dom h) := kb ++ [NUL]]> h, Object obj', Null)
             ∧ keyed (<[fresh (dom h) := kb ++ [NUL]]> h) obj'
               = Ok (assign_bytes l kb Null))
  ∧ (values_at kb l = [] ∨ ∃ x, values_at kb l = [x])
  ∧ (∀ value, (∀ o, value ≠ Object o) →
       at_key h value kb = RuntimeError "not an object").
Proof. apply key_access_cases. Qed.

(** X20. [push] puts the node at the end of an array, where
    [node[size]] finds it, and the elements before it stay; on a node
    that is not an array [push] does nothing, without an error, while
    [node[i]] throws "not an array".  An index past the end of an array
    is not checked. *)
Theorem push_then_index :
  (∀ arr v,
     at_index (push (Array arr) v) (N.of_nat (List.length arr)) = Ref v)
  ∧ (∀ arr v i x, arr !! i = Some x →
       at_index (push (Array arr) v) (N.of_nat i) = Ref x)
  ∧ (∀ arr i, (List.length arr ≤ i)%nat →
       at_index (Array arr) (N.of_nat i) = Wild)
  ∧ (∀ value v i, (∀ arr, value ≠ Array arr) →
       push value v = value
       ∧ at_index (push value v) i = RuntimeError "not an array").
Proof.
  split_and!.
  - intros arr v. unfold push, at_index. rewrite Nat2N.id.
    by rewrite list_lookup_middle.
  - intros arr v i x Hi. unfold push, at_index. rewrite Nat2N.id.
    by rewrite lookup_app_l, Hi by by eapply lookup_lt_Some.
  - intros arr i Hi. unfold at_index. rewrite Nat2N.id.
    by rewrite lookup_ge_None_2.
  - intros value v i Hv. destruct value; try done. by destruct (Hv a).
Qed.

End more_node.

Lemma sample5_object :
  ∃ obj, parse_text sample5 = Ok (Object obj)
         ∧ keyed (text_heap sample5) obj = Ok [(str "a", Integer 2)].
Proof. eexists. split; vm_compute; reflexivity. Qed.

Lemma key_access_witness :
  ∃ obj, parse_text sample5 = Ok (Object obj)
         ∧ node_access.at_key (text_heap sample5) (Object obj) (str "a")
           = node_access.Ref (text_heap sample5, Object obj, Integer 2)
         ∧ ∃ h' obj',
             node_access.at_key (text_heap sample5) (Object obj) (str "b")
             = node_access.Ref (h', Object obj', Null)
             ∧ keyed h' obj' = Ok [(str "a", Integer 2); (str "b", Null)].
Proof.
  destruct sample5_object as (obj & Hp & Hk). exists obj. split; [exact Hp|].
  split.
  - apply (proj1 (key_access (text_heap sample5) obj _ (str "a") Hk
                    ltac:(by repeat constructor) eq_refl)).
    reflexivity.
  - destruct (proj1 (proj2 (key_access (text_heap sample5) obj _ (str "b") Hk
                              ltac:(by repeat constructor) eq_refl)))
      as (obj' & Ha & Hk'); [reflexivity|].
    by eexists _, obj'.
Defined.

(** ** Assignment and access *)

Section more_map.
Import cow_string node_access.

(** X22. What [obj[key] = v] has put, [node[key]] finds: after the
    assignment of the reader the access with the bytes of the key gives
    [v], and the entries of the other keys are as they were. *)
Theorem assign_then_lookup h obj l key kb v obj' :
  keyed h obj = Ok l → ascending l.*1 → window h key = Ok kb →
  N.of_nat (List.length kb) < npos →
  map_assign h obj key v = Ok obj' →
  at_key h (Object obj') kb = Ref (h, Object obj', v)
  ∧ ∃ l', keyed h obj' = Ok l' ∧ ascending l'.*1
          ∧ ∀ kb', kb' ≠ kb → values_at kb' l' = values_at kb' l.
Proof.
  intros Hl Hasc Hw Hlen Ha.
  destruct (map_assign_keyed h obj l key kb v Hl Hw) as (obj1 & Ha1 & Hk1).
  rewrite Ha in Ha1. injection Ha1 as <-.
  pose proof (assign_bytes_ascending l kb v Hasc) as Hasc'.
  split.
  - apply (proj1 (key_access_cases h obj' _ kb Hk1 Hasc' Hlen)).
    rewrite assign_bytes_values by done. by rewrite decide_True.
  - eexists. split; [done|]. split; [done|].
    intros kb' Hne. rewrite assign_bytes_values by done.
    by rewrite decide_False.
Qed.

End more_map.

Lemma assign_then_lookup_witness :
  ∃ obj obj',
    parse_text sample5 = Ok (Object obj)
    ∧ map_assign (text_heap sample5) obj
        (cow_string.substr (json_reader.src (text_reader sample5)) 8 1)
        (Bool true) = Ok obj'
    ∧ node_access.at_key (text_heap sample5) (Object obj') (str "a")
      = node_access.Ref (text_heap sample5, Object obj', Bool true).
Proof.
  destruct sample5_object as (obj & Hp & Hk). exists obj.
  assert (∃ obj', map_assign (text_heap sample5) obj
            (cow_string.substr (json_reader.src (text_reader sample5)) 8 1)
            (Bool true) = Ok obj') as [obj' Ha].
  { destruct (map_assign_keyed (text_heap sample5) obj _
                (cow_string.substr (json_reader.src (text_reader sample5)) 8 1)
                (str "a") (Bool true) Hk eq_refl) as (obj' & Ha & _).
    by exists obj'. }
  exists obj'. split; [exact Hp|]. split; [exact Ha|].
  apply (assign_then_lookup (text_heap sample5) obj _
           (cow_string.substr (json_reader.src (text_reader sample5)) 8 1)
           (str "a") (Bool true)
           obj' Hk ltac:(by repeat constructor) eq_refl eq_refl Ha).
Defined.

(** ** More of the reader *)

Section more_reader.
Import cow_string json_reader.

(** X23. An input that is empty or has whitespace only has no value: the
    reader throws "Unexpected end of input". *)
Theorem blank_input ws :
  Forall (λ c, isspace c = true) ws →
  N.of_nat (List.length ws) < npos →
  parse_text ws = Throw UnexpectedEnd.
Proof.
  intros Hws Hlen. unfold parse_text, parse.
  set (h := text_heap ws). set (r := text_reader ws).
  change {| src := src r; pos := 0; row := 1; column := 0 |} with r.
  pose proof (text_reader_cursor ws Hlen) as Hc. fold h r in Hc.
  rewrite <- (app_nil_r ws) in Hc.
  destruct (skip_whitespace_spaces h r [] ws [] Hc Hws I)
    as (r1 & Hskip & Hc1 & _).
  unfold fuel_of. rewrite parse_value_S, Hskip. cbn [mbind result_bind].
  rewrite (cursor_size _ _ _ _ Hc1). destruct Hc1 as [_ ->].
  simpl. rewrite Nat.add_0_r.
  by destruct (N.leb_spec (N.of_nat (List.length ws)) (N.of_nat (List.length ws)));
    [|lia].
Qed.

(** X24. A key that is not a string is read in full, as the value that
    it is, and then refused: the reader throws "Key ... must be a
    string", naming the place behind the key. *)
Theorem key_must_be_string t rest :
  tree_ok t → (∀ s, t ≠ TString s) →
  number_char (next_byte rest) = false →
  N.of_nat (List.length ("{"%char :: render t ++ rest)) < npos →
  parse_text ("{"%char :: render t ++ rest)
  = Throw (KeyMustBeString (N.of_nat (S (List.length (render t))))).
Proof.
  intros Hok Hns Hrest Hlen. unfold parse_text, parse.
  set (text := "{"%char :: render t ++ rest) in *.
  set (h := text_heap text). set (r := text_reader text).
  change {| src := src r; pos := 0; row := 1; column := 0 |} with r.
  pose proof (text_reader_cursor text Hlen) as Hc. fold h r in Hc.
  unfold fuel_of. rewrite (cursor_size _ _ _ _ Hc), Nat2N.id.
  cbn [List.length Nat.add]. unfold text in Hc |- *. cbn [List.length].
  rewrite (parse_value_at_brace h _ r [] _ Hc).
  unfold parse_object. apply cursor_step in Hc.
  pose proof (render_starts t Hok) as Hstart.
  destruct (render t) as [|c body] eqn:Hrender; [done|].
  destruct Hstart as (Hsp & _ & _ & Hbrace).
  rewrite (skip_whitespace_stay h _ _ _ Hc) by done.
  cbn [mbind result_bind parse_object_loop].
  rewrite (cursor_before_char h _ _ _ _ _ Hc). rewrite Hbrace.
  cbn [negb mbind result_bind]. unfold parse_entry.
  rewrite <- Hrender in Hc.
  destruct (tree_back h t Hok (List.length (render t ++ rest))
              (with_pos r (size_add (pos r) 1)) ["{"%char] rest
              ltac:(rewrite length_app; lia) Hc Hrest) as (v & Hv & Hcv).
  rewrite <- Hrender. cbn [app List.length] in Hv. rewrite Hv.
  cbn [mbind result_bind].
  destruct v; try (by cbn [pos with_pos]).
  simpl in Hcv. bind_inv Hcv as w Hw. injection Hcv as <-. by destruct (Hns w).
Qed.

End more_reader.

Lemma blank_input_witness :
  parse_text [] = Throw UnexpectedEnd
  ∧ parse_text (take 5 spaced_one) = Throw UnexpectedEnd.
Proof.
  split.
  - apply (blank_input []); [constructor|reflexivity].
  - apply (blank_input (take 5 spaced_one)); [repeat constructor|reflexivity].
Defined.

Lemma key_must_be_string_witness :
  parse_text (lit "{[1,'x']:2}") = Throw (KeyMustBeString 8).
Proof.
  apply (key_must_be_string (TArray [TInteger 1; TString (str "x")])
           (str ":2}")).
  - cbn. split_and!; try done.
    apply not_elem_of_cons. split; [done|apply not_elem_of_nil].
  - discriminate.
  - reflexivity.
  - reflexivity.
Defined.

Lemma from_chars_double_bare_e ip v0 :
  Forall (λ c, isdigit c = true) ip → ip ≠ [] →
  from_chars_double (ip ++ ["e"%char]) v0 = from_chars_double ip v0.
Proof.
  intros Hip Hne. unfold from_chars_double.
  destruct ip as [|c ip']; [done|].
  assert (c ≠ "-"%char) as Hc.
  { intros ->. by apply Forall_cons in Hip as [? _]. }
  rewrite <- app_comm_cons. rewrite !(not_minus c Hc).
  rewrite app_comm_cons.
  rewrite (span_digits_stop (c :: ip') ["e"%char]) by done.
  rewrite (span_digits_all (c :: ip')) by done.
  reflexivity.
Qed.

Section more_exponents.
Import cow_string json_reader.
Context (h : heap).

(** X25. An e that no digit follows is no exponent, and no error either:
    the token ends with it and is the Float that the digits before it
    spell.  So of 1e-5 the reader takes 1e, gives the Float 1 and stops
    before the sign. *)
Theorem exponent_without_digits r pre ip suf :
  cursor h r pre ((ip ++ ["e"%char]) ++ suf) →
  Forall (λ c, isdigit c = true) ip → ip ≠ [] →
  number_char (next_byte suf) = false →
  parse_number h r
  = let '(res, val) := from_chars_double ip (S754_zero false) in
    if bool_decide (ec res = errc_ok)
    then Ok (Float val,
             with_pos r (N.of_nat (List.length (pre ++ ip ++ ["e"%char]))))
    else Throw (InvalidToken (next_byte suf) (row r) (column r)).
Proof.
  intros Hc Hip Hne Hsuf.
  rewrite (parse_number_run h r pre _ suf Hc); [| |done].
  - unfold convert.
    assert (has_point_or_e (ip ++ ["e"%char]) = true) as ->.
    { apply bool_decide_eq_true_2. right.
      apply elem_of_app. right. left. }
    by rewrite from_chars_double_bare_e.
  - apply Forall_app. split; [|by repeat constructor].
    eapply Forall_impl; [exact Hip|apply isdigit_number_char].
Qed.

End more_exponents.

Lemma exponent_without_digits_witness :
  ∃ one, json_reader.parse_number (text_heap (str "1e-5"))
           (text_reader (str "1e-5"))
         = Ok (Float one, json_reader.with_pos (text_reader (str "1e-5")) 2)
         ∧ parse_text (str "1") = Ok (Integer 1)
         ∧ parse_text (str "1e-5") = Ok (Float one).
Proof.
  exists (binary_normalize prec emax 1 0 false).
  split; [|split; vm_compute; reflexivity].
  apply (exponent_without_digits (text_heap (str "1e-5"))
           (text_reader (str "1e-5")) [] (str "1") (str "-5")).
  - apply (text_reader_cursor (str "1e-5")). reflexivity.
  - repeat constructor.
  - discriminate.
  - reflexivity.
Defined.

Section more_cow_again.
Import cow_string memory.

Lemma filter_none (p : ptr) (l : list cow_string) :
  (∀ s, s ∈ l → storage s ≠ p) → filter (λ s, storage s = p) l = [].
Proof.
  induction l as [|a l IH]; intros Hl; [done|].
  rewrite filter_cons_False by (apply Hl; left).
  apply IH. intros s Hs. apply Hl. by right.
Qed.

(** After a write the string is the only owner of its block. *)
Lemma assign_owner m x index c m1 :
  live m → assign m x index c = Ok m1 →
  ∃ s1, strings m1 !! x = Some s1 ∧ use_count m1 (storage s1) = 1%nat.
Proof.
  intros Hlive Ha.
  destruct (strings m !! x) as [s|] eqn:Hx;
    [|by unfold assign, get in Ha; rewrite Hx in Ha].
  pose proof (filter_length_one (λ s', storage s' = storage s)
                (strings m) x s Hx eq_refl) as Hone.
  destruct (decide (use_count m (storage s) ≤ 1)%nat) as [Hc|Hc].
  - rewrite (assign_alone m x s _ c Hx Hc) in Ha.
    bind_inv Ha as h' Hst. injection Ha as <-. exists s.
    split; [done|]. unfold use_count in *. cbn [strings]. lia.
  - destruct (assign_shared m x s index c m1 Hx ltac:(lia) Ha)
      as (w & blk & _ & Hstr & _).
    set (p := fresh (dom (blocks m))) in *.
    set (s1 := {| offset := 0; length := length s; storage := p |}) in *.
    assert (x < List.length (strings m))%nat as Hlen
      by by eapply lookup_lt_Some.
    exists s1. rewrite Hstr. split; [by rewrite list_lookup_insert_eq|].
    unfold use_count. rewrite Hstr. cbn [storage s1].
    rewrite insert_take_drop by done. rewrite filter_app, filter_cons_True by done.
    rewrite !filter_none; [done| |].
    + intros s' Hs' Heq. apply (subseteq_drop (S x) (strings m)) in Hs'.
      destruct (Hlive s' Hs') as [b Hb]. rewrite Heq in Hb.
      apply elem_of_dom_2 in Hb. by apply is_fresh in Hb.
    + intros s' Hs' Heq. apply (subseteq_take x (strings m)) in Hs'.
      destruct (Hlive s' Hs') as [b Hb]. rewrite Heq in Hb.
      apply elem_of_dom_2 in Hb. by apply is_fresh in Hb.
Qed.

(** X26. A string is cloned at most once in a row: after a write it owns
    its block alone, and the next write through it is in place, without a
    new block. *)
Theorem write_makes_exclusive m x index c m1 :
  live m → assign m x index c = Ok m1 →
  ∃ s1, strings m1 !! x = Some s1
        ∧ use_count m1 (storage s1) = 1%nat
        ∧ ∀ j d m2, assign m1 x j d = Ok m2 →
            strings m2 = strings m1 ∧ dom (blocks m2) = dom (blocks m1).
Proof.
  intros Hlive Ha.
  destruct (assign_owner m x index c m1 Hlive Ha) as (s1 & Hx1 & Hone).
  exists s1. split; [done|]. split; [done|].
  intros j d m2 Ha2.
  rewrite (assign_alone m1 x s1 _ d Hx1) in Ha2 by lia.
  bind_inv Ha2 as h' Hst. injection Ha2 as <-. split; [done|].
  by eapply store_dom.
Qed.

End more_cow_again.

Lemma write_makes_exclusive_witness :
  ∃ s1, memory.strings hello_written !! 1%nat = Some s1
        ∧ memory.use_count hello_written (cow_string.storage s1) = 1%nat
        ∧ ∀ j d m2, memory.assign hello_written 1 j d = Ok m2 →
            memory.strings m2 = memory.strings hello_written
            ∧ dom (memory.blocks m2) = dom (memory.blocks hello_written).
Proof.
  apply (write_makes_exclusive hello_shared 1 7 "C"%char hello_written
           hello_shared_live).
  vm_compute. reflexivity.
Defined.

(** ** What the reader takes between the elements *)

Section lenient.
Import cow_string json_reader.
Context (h : heap).

Lemma after_separator r pre comma ws suf :
  cursor h r pre (separator comma ws ++ suf) →
  Forall (λ c, isspace c = true) ws → no_space_ahead suf →
  (comma = false → char_eqb (next_byte (ws ++ suf)) ","%char = false) →
  ∃ r', after_element h r = Ok r'
        ∧ cursor h r' (pre ++ separator comma ws) suf.
Proof.
  intros Hc Hws Hs Hcomma. unfold after_element, separator in *.
  destruct comma; simpl in Hc.
  - rewrite (cursor_at_char h r pre _ _ _ Hc).
    change (char_eqb ","%char ","%char) with true. cbn [mbind result_bind].
    apply cursor_step in Hc.
    destruct (skip_whitespace_spaces h _ _ ws suf Hc Hws Hs)
      as (r' & -> & Hc' & _).
    exists r'. split; [done|]. simpl. by rewrite <- app_assoc in Hc'.
  - assert (at_char h r ","%char = Ok false) as ->.
    { specialize (Hcomma eq_refl).
      destruct (ws ++ suf) as [|c rest] eqn:E.
      - by apply (cursor_at_char_end h r pre).
      - rewrite (cursor_at_char h r pre c rest _ Hc). by f_equal. }
    cbn [mbind result_bind].
    destruct (skip_whitespace_spaces h r pre ws suf Hc Hws Hs)
      as (r' & -> & Hc' & _).
    by exists r'.
Qed.

Lemma separator_not_number comma ws suf :
  Forall (λ c, isspace c = true) ws → comma = true ∨ ws ≠ [] →
  number_char (next_byte (separator comma ws ++ suf)) = false.
Proof.
  intros Hws Hne. unfold separator. destruct comma; [done|].
  destruct Hne as [|Hne]; [done|]. destruct ws as [|c ws]; [done|].
  apply Forall_cons in Hws as [Hc _]. simpl.
  destruct (number_char c) eqn:E; [|done].
  apply number_char_starts in E as [E _]. congruence.
Qed.

Lemma rest_no_space items last suf :
  Forall item_ok items → (∀ t, last = Some t → tree_ok t) →
  no_space_ahead (spaced items ++ last_text last ++ "]"%char :: suf).
Proof.
  intros Hi Hl. destruct items as [|[[t comma] ws] items]; simpl.
  - destruct last as [t|]; simpl; [|done].
    pose proof (render_starts t (Hl t eq_refl)) as Hs.
    destruct (render t); [done|]. simpl. by destruct Hs.
  - apply Forall_cons in Hi as [(Ht & _) _]. simpl in Ht.
    pose proof (render_starts t Ht) as Hs.
    destruct (render t); [done|]. simpl. by destruct Hs.
Qed.

Lemma lenient_loop fuel suf last items :
  (∀ t, last = Some t → tree_ok t ∧ (List.length (render t) < fuel)%nat) →
  Forall item_ok items →
  Forall (λ item, (List.length (render item.1.1) < fuel)%nat) items →
  ∀ n acc ts r pre,
    (S (List.length items) < n)%nat →
    cursor h r pre (spaced items ++ last_text last ++ "]"%char :: suf) →
    sequence (map (contents h) acc) = Ok ts →
    ∃ vs r',
      parse_array_loop h (parse_value h fuel) n r acc
      = Ok (Array (acc ++ vs), r')
      ∧ sequence (map (contents h) (acc ++ vs))
        = Ok (ts ++ map (λ item, item.1.1) items ++ option_list last).
Proof.
  intros Hlast Hitems Hfuel. induction items as [|[[t comma] ws] items IH];
    intros n acc ts r pre Hn Hc Hacc.
  - destruct last as [t|]; cbn [spaced last_text app map option_list] in *.
    + destruct (Hlast t eq_refl) as [Hok Hft].
      destruct n as [|[|n]]; [simpl in Hn; lia..|].
      pose proof (render_starts t Hok) as Hstart.
      cbn [parse_array_loop].
      destruct (render t) as [|c rx] eqn:Erx; [done|].
      rewrite (cursor_before_char h r pre c _ _ Hc).
      destruct Hstart as (_ & _ & Hcb & _). rewrite Hcb.
      cbn [negb mbind result_bind].
      destruct fuel as [|fuel]; [lia|]. rewrite <- Erx in *.
      destruct (tree_back h t Hok fuel r pre ("]"%char :: suf))
        as (v & Hv & Hcv); [lia|done|done|].
      rewrite Hv. cbn [mbind result_bind].
      assert (cursor h (with_pos r (N.of_nat (List.length (pre ++ render t))))
                (pre ++ render t) ("]"%char :: suf)) as Hc2
        by by apply cursor_with_pos.
      unfold after_element.
      rewrite (cursor_at_char h _ _ _ _ _ Hc2).
      change (char_eqb "]"%char ","%char) with false.
      cbn [mbind result_bind].
      rewrite (skip_whitespace_stay h _ _ _ Hc2) by done.
      cbn [mbind result_bind].
      rewrite (cursor_before_char h _ _ _ _ _ Hc2).
      change (negb (char_eqb "]"%char "]"%char)) with false.
      cbn [mbind result_bind].
      eexists [v], _. split; [done|].
      rewrite map_app. by apply sequence_snoc.
    + destruct n as [|n]; [simpl in Hn; lia|].
      cbn [parse_array_loop].
      rewrite (cursor_before_char h r pre _ _ _ Hc).
      change (negb (char_eqb "]"%char "]"%char)) with false.
      cbn [mbind result_bind].
      eexists [], _. rewrite !app_nil_r. done.
  - destruct n as [|n]; [simpl in Hn; lia|].
    apply Forall_cons in Hitems as [(Hok & Hws & Hne) Hitems].
    apply Forall_cons in Hfuel as [Hft Hfuel]. simpl in Hok, Hws, Hne, Hft.
    cbn [spaced] in Hc. rewrite <- !app_assoc in Hc.
    pose proof (render_starts t Hok) as Hstart.
    cbn [parse_array_loop].
    destruct (render t) as [|c rx] eqn:Erx; [done|].
    rewrite (cursor_before_char h r pre c _ _ Hc).
    destruct Hstart as (_ & _ & Hcb & _). rewrite Hcb.
    cbn [negb mbind result_bind].
    destruct fuel as [|fuel]; [lia|]. rewrite <- Erx in *.
    set (rest := spaced items ++ last_text last ++ "]"%char :: suf) in *.
    destruct (tree_back h t Hok fuel r pre (separator comma ws ++ rest))
      as (v & Hv & Hcv); [lia|done|by apply separator_not_number|].
    rewrite Hv. cbn [mbind result_bind].
    destruct (after_separator
                (with_pos r (N.of_nat (List.length (pre ++ render t))))
                (pre ++ render t) comma ws rest)
      as (r2 & Hafter & Hc2).
    { by apply cursor_with_pos. }
    { done. }
    { apply rest_no_space; [done|]. intros t' Ht'. by apply Hlast. }
    { intros ->. destruct Hne as [|Hne]; [done|].
      destruct ws as [|w ws']; [done|].
      apply Forall_cons in Hws as [Hw _]. simpl.
      by apply space_not_structural in Hw as [? _]. }
    rewrite Hafter. cbn [mbind result_bind].
    destruct (IH Hitems Hfuel n (acc ++ [v]) (ts ++ [t]) r2
                (pre ++ render t ++ separator comma ws))
      as (vs & r' & Hloop & Hseq).
    + simpl in Hn. lia.
    + by rewrite <- app_assoc in Hc2.
    + rewrite map_app. by apply sequence_snoc.
    + exists (v :: vs), r'. rewrite Hloop.
      rewrite <- !app_assoc in Hseq. simpl in Hseq.
      rewrite <- app_assoc. simpl. done.
Qed.

End lenient.

(** X27. Between the elements of an array the reader takes a comma or
    none, then any whitespace, also behind the last element and before
    the first: an array whose elements are texts of the writer, each with
    a separator that is not empty, and a last one with or without a
    separator, parses to the trees of the elements in their order. *)
Theorem lenient_array ws0 items last suf :
  Forall (λ c, isspace c = true) ws0 →
  Forall item_ok items →
  (∀ t, last = Some t → tree_ok t) →
  N.of_nat (List.length
              ("["%char :: ws0 ++ spaced items ++ last_text last
                 ++ "]"%char :: suf)) < npos →
  parsed ("["%char :: ws0 ++ spaced items ++ last_text last ++ "]"%char :: suf)
  = Ok (TArray (map (λ item, item.1.1) items ++ option_list last)).
Proof.
  intros Hws0 Hitems Hlast Hlen.
  set (text := "["%char :: ws0 ++ spaced items ++ last_text last
                 ++ "]"%char :: suf) in *.
  unfold parsed, parse_text, json_reader.parse.
  set (h := text_heap text). set (r := text_reader text).
  change {| json_reader.src := json_reader.src r; json_reader.pos := 0;
            json_reader.row := 1; json_reader.column := 0 |} with r.
  pose proof (text_reader_cursor text Hlen) as Hc. fold h r in Hc.
  unfold json_reader.fuel_of. rewrite (cursor_size _ _ _ _ Hc), Nat2N.id.
  cbn [List.length Nat.add].
  set (fuel := List.length text).
  unfold text in Hc.
  rewrite (parse_value_at_bracket h _ r [] _ Hc).
  unfold json_reader.parse_array. apply cursor_step in Hc.
  destruct (skip_whitespace_spaces h _ _ ws0 _ Hc Hws0) as (r1 & -> & Hc1 & _).
  { by apply rest_no_space. }
  cbn [mbind result_bind].
  assert (∀ x, (List.length (render x) ≤ List.length (spaced items
                  ++ last_text last))%nat →
               (List.length (render x) < fuel)%nat) as Hbound.
  { intros x Hx. unfold fuel, text. cbn [List.length].
    rewrite !length_app in *. cbn [List.length]. lia. }
  assert (List.length items ≤ List.length (spaced items))%nat as Hcount.
  { clear -Hitems. induction Hitems as [|[[t comma] ws] items (Hok & _) _ IH];
      [done|]. simpl in *. rewrite !length_app.
    pose proof (render_starts t Hok) as Hs.
    destruct (render t); [done|]. simpl. lia. }
  destruct (lenient_loop h fuel suf last items) with
    (n := fuel) (acc := @nil Value) (ts := @nil tree) (r := r1)
    (pre := ["["%char] ++ ws0) as (vs & r' & Hloop & Hseq).
  - intros t ->. split; [by apply Hlast|]. apply Hbound.
    rewrite length_app. simpl. lia.
  - done.
  - clear -Hbound. apply Forall_forall. intros [[t comma] ws] Hin.
    apply Hbound. simpl. rewrite length_app.
    apply list_elem_of_split in Hin as (l1 & l2 & ->).
    clear. induction l1 as [|[[t1 c1] w1] l1 IH]; simpl.
    + rewrite !length_app. lia.
    + rewrite !length_app. lia.
  - unfold fuel, text. cbn [List.length]. rewrite !length_app.
    cbn [List.length]. lia.
  - done.
  - done.
  - rewrite Hloop. cbn [mbind result_bind contents app] in *.
    by rewrite Hseq.
Qed.

Lemma lenient_array_witness :
  parsed (lit "[ 1 'x', [2], ]rest")
  = Ok (TArray [TInteger 1; TString (str "x"); TArray [TInteger 2]]).
Proof.
  pose (items := [(TInteger 1, false, str " ");
                  (TString (str "x"), true, str " ");
                  (TArray [TInteger 2], true, str " ")]).
  assert (lit "[ 1 'x', [2], ]rest"
          = "["%char :: str " " ++ spaced items ++ last_text None
              ++ "]"%char :: str "rest") as -> by (vm_compute; reflexivity).
  assert ([TInteger 1; TString (str "x"); TArray [TInteger 2]]
          = map (λ item, item.1.1) items ++ option_list None) as ->
    by reflexivity.
  apply lenient_array.
  - by apply Forall_cons.
  - repeat (apply Forall_cons_2 || apply Forall_nil_2);
      (split; [|split; [by apply Forall_cons|first [by left|by right]]]); cbn.
    + unfold INT64_MAX. lia.
    + apply not_elem_of_cons. split; [done|apply not_elem_of_nil].
    + unfold INT64_MAX. split; [lia|done].
  - done.
  - vm_compute. reflexivity.
Defined.
